(** * SeamLang: AST-to-IR lowering (seam::code_generation)

    A shallow embedding of [src/seam/code_generation/code_generation.cpp].
    The C++ code drives LLVM's [IRBuilder]; here the IR objects it creates
    are plain data, the mutable members of [code_generation] and
    [code_gen_visitor] are threaded explicitly, and a thrown C++ exception
    is the [Throw] outcome of a computation. *)

From stdpp Require Import gmap strings list fin_maps pretty.
From Stdlib Require Floats.SpecFloat.

#[local] Set Warnings "-register-all".

Local Open Scope string_scope.
Local Open Scope Z_scope.

(** ** Exceptions *)

(** Modelled from the spec: [utils::position] (exception.hpp is not among
    the sources), a source position, brace-initialised as [{0, 0}] in
    [get_llvm_type]. *)
Record position := { line : N; column : N }.

(** Modelled from the spec: the [range] member of an AST node, of which
    lowering reads [start]. *)
Record range := { start : position }.

(** The three kinds of C++ exception that lowering can raise:
    [utils::compiler_exception], which carries a position,
    [std::runtime_error] and [std::bad_variant_access] (from [std::get]). *)
Inductive exception :=
  | compiler_exception (pos : position) (what : string)
  | runtime_error (what : string)
  | bad_variant_access.

Inductive result (A : Type) :=
  | Ok (a : A)
  | Throw (e : exception).
Arguments Ok {A} a.
Arguments Throw {A} e.

(** ** The AST, as far as code generation reads it *)

Module ast.

(** Modelled from the spec: the declaration of [ir::ast::type] (type.hpp)
    is not among the sources.  The thirteen enumerators are the ones
    [get_llvm_type] switches on; [unlisted] stands for any other value of
    the enumeration, which reaches the [default] label. *)
Inductive built_in_type :=
  | void_ | bool_
  | u8 | i8 | u16 | i16 | u32 | i32 | u64 | i64
  | string_ | f32 | f64
  | unlisted (tag : N).

(** Modelled from the spec: [type::value] is a [std::variant] of a
    built-in tag and a reference to a user-defined (class) type. *)
Inductive type :=
  | built_in (b : built_in_type)
  | class_type (name : string).

(** Modelled from the spec: a variable declaration, name and type.  The
    storage map compares variables by address; [var_id] is that
    address. *)
Record variable := { var_id : nat; var_name : string; type_ : type }.

Record parameter := { var : variable }.

(** Modelled from the spec: a function signature, with the members the
    code generator reads. *)
Record function_signature := {
  name : string;
  mangled_name : string;
  parameters : list parameter;
  return_type : type;
  is_extern : bool;
  attributes : gset string
}.

(** Modelled from the spec: the operator of a binary node
    ([lexer::lexeme_type]); the ten operators are those [visit(binary)]
    switches on, [other_lexeme] is any lexeme it has no case for. *)
Inductive lexeme_type :=
  | symbol_add | symbol_minus | symbol_multiply | symbol_divide
  | symbol_eq | symbol_neq
  | symbol_lt | symbol_lteq | symbol_gt | symbol_gteq
  | other_lexeme (tag : N).

(** Modelled from the spec: [number_literal::value] is a variant of a
    [std::uint64_t], a [double] (kept as its binary64 bit pattern), and
    whatever else reaches the last branch of [visit(number_literal)]. *)
Inductive number_value :=
  | num_uint64 (v : Z)
  | num_double (bits : Z)
  | num_other.

(** Modelled from the spec: the expression nodes [code_gen_visitor]
    overrides [visit] for, with the members it reads.  A [symbol_wrapper]
    holds its resolved symbol's signature. *)
Inductive expression :=
  | symbol_wrapper (rng : range) (signature : function_signature)
  | call (rng : range) (function : expression) (arguments : list expression)
  | bool_literal (value : bool)
  | variable_ref (v : variable)
  | number_literal (rng : range) (value : number_value) (eval_type : type)
  | binary (rng : range) (left_ : expression) (operation : lexeme_type)
           (right_ : expression).

(** Modelled from the spec: the statement nodes [code_gen_visitor]
    overrides [visit] for. *)
Inductive statement :=
  | while_loop (condition : expression) (body : statement)
  | assignment (to from : expression)
  | if_stat (condition : expression) (main_body : statement)
            (else_body : option statement)
  | expression_ (e : expression)
  | ret (value : option expression)
  | normal_block (body : list statement).

Record function_definition := {
  fd_range : range;
  fd_signature : function_signature;
  fd_body : statement
}.

Record extern_function_definition := {
  efd_range : range;
  efd_signature : function_signature
}.

(** The children of the module body that [function_collector] looks at. *)
Inductive declaration :=
  | decl_function (f : function_definition)
  | decl_extern_function (f : extern_function_definition).

End ast.
Import ast.

(** ** The IR *)

Module llvm.

(** IR types.  LLVM interns types in the context, so two [llvm::Type*]
    are the same object exactly when they are structurally equal: pointer
    identity of types is equality here. *)
Inductive Type_ :=
  | VoidTy
  | IntegerTy (bits : N)
  | FloatTy
  | DoubleTy
  | PointerTy (pointee : Type_) (address_space : N)
  | StructTy (fields : list Type_) (packed : bool)
  | FunctionTy (ret_ty : Type_) (params : list Type_) (var_arg : bool).

Inductive linkage := ExternalLinkage | InternalLinkage.

Inductive binary_op :=
  | Add | Sub | Mul | SDiv | UDiv | FAdd | FSub | FMul | FDiv.

Inductive predicate :=
  | ICMP_EQ | ICMP_NE | ICMP_SLT | ICMP_ULT | ICMP_SLE | ICMP_SGT
  | ICMP_UGT | ICMP_SGE
  | FCMP_OEQ | FCMP_ONE | FCMP_OLT | FCMP_OLE | FCMP_OGT | FCMP_OGE.

(** Values.  A function is named by its name in the module, which is
    unique unless it is empty: a function created with the empty name is
    unnamed (LLVM prints such functions as [@0], [@1], ...), is not in the
    module's symbol table, and is referred to here as [GlobalFunction ""],
    which does not tell one unnamed function from another.  An integer
    constant is its width and its value as an unsigned number; a
    floating-point constant is its type and its bits in that format.  A
    [ConstantExpr] is a constant given by an operation on constants that
    LLVM's folder does not, or must not be relied on to, compute.  An
    instruction is an object of its own, told apart from any other by
    [id], the order of creation.  Blocks are referred to by their index
    in the block store. *)
Inductive Value :=
  | ConstantInt (bits : N) (v : Z)
  | ConstantFP (ty : Type_) (bits : Z)
  | GlobalFunction (fn : string)
  | ConstantExpr (op : opcode)
  | Inst (id : nat) (op : opcode)
with opcode :=
  | Alloca (ty : Type_)
  | Load (ptr : Value)
  | Store (val ptr : Value)
  | Call (callee : Value) (args : list Value)
  | Ret (val : Value)
  | RetVoid
  | Br (dest : nat)
  | CondBr (cond : Value) (if_true if_false : nat)
  | BinaryOperator (op : binary_op) (lhs rhs : Value) (label : string)
  | Cmp (p : predicate) (lhs rhs : Value) (label : string).

Definition instruction : Type := nat * opcode.

(** A block: the name it was created with (LLVM may add a number to keep
    names apart), the name of the function it was appended to, and its
    instructions in order. *)
Record BasicBlock := {
  bb_name : string;
  bb_parent : string;
  bb_insts : list instruction
}.

Record Function_ := {
  fn_name : string;
  fn_type : Type_;
  fn_linkage : linkage
}.

Definition isTerminator (op : opcode) : bool :=
  match op with
  | Ret _ | RetVoid | Br _ | CondBr _ _ _ => true
  | _ => false
  end.

(** [BasicBlock::getTerminator]: the last instruction, if it is a
    terminator. *)
Definition getTerminator (b : BasicBlock) : option instruction :=
  match last (bb_insts b) with
  | Some i => if isTerminator i.2 then Some i else None
  | None => None
  end.

(** [FunctionType::isValidReturnType] and [isValidArgumentType]. *)
Definition isValidReturnType (t : Type_) : bool :=
  match t with FunctionTy _ _ _ => false | _ => true end.

Definition isValidArgumentType (t : Type_) : bool :=
  match t with VoidTy | FunctionTy _ _ _ => false | _ => true end.

Definition isa_Function (v : Value) : bool :=
  match v with GlobalFunction _ => true | _ => false end.

Definition isa_AllocaInst (v : Value) : bool :=
  match v with Inst _ (Alloca _) => true | _ => false end.

(** [isa<Constant>]: everything but an instruction. *)
Definition isa_Constant (v : Value) : bool :=
  match v with Inst _ _ => false | _ => true end.

(** The value of a [bits]-wide integer constant read as a signed
    number. *)
Definition signed (bits : N) (v : Z) : Z :=
  if v <? 2 ^ (Z.of_N bits - 1) then v else v - 2 ^ Z.of_N bits.

(** [ConstantFoldBinaryInstruction] on two integers of the same width;
    [None] where the result is undef or poison (division by zero, the
    overflowing signed division) and for the floating-point operations,
    which are not defined on integers. *)
Definition fold_binary_op (op : binary_op) (bits : N) (a b : Z)
    : option Z :=
  let wrap := λ r, Some (r `mod` 2 ^ Z.of_N bits) in
  match op with
  | Add => wrap (a + b)
  | Sub => wrap (a - b)
  | Mul => wrap (a * b)
  | SDiv =>
      if (b =? 0) || ((signed bits a =? - 2 ^ (Z.of_N bits - 1))
                      && (signed bits b =? -1))
      then None
      else wrap (signed bits a `quot` signed bits b)
  | UDiv => if b =? 0 then None else wrap (a `div` b)
  | FAdd | FSub | FMul | FDiv => None
  end.

(** [ConstantFoldCompareInstruction] on two integers of the same
    width. *)
Definition fold_predicate (p : predicate) (bits : N) (a b : Z)
    : option bool :=
  match p with
  | ICMP_EQ => Some (a =? b)
  | ICMP_NE => Some (negb (a =? b))
  | ICMP_SLT => Some (signed bits a <? signed bits b)
  | ICMP_ULT => Some (a <? b)
  | ICMP_SLE => Some (signed bits a <=? signed bits b)
  | ICMP_SGT => Some (signed bits b <? signed bits a)
  | ICMP_UGT => Some (b <? a)
  | ICMP_SGE => Some (signed bits b <=? signed bits a)
  | FCMP_OEQ | FCMP_ONE | FCMP_OLT | FCMP_OLE | FCMP_OGT | FCMP_OGE => None
  end.

(** What the builder's [ConstantFolder] returns for an arithmetic or
    comparison operation on two constants: the computed integer where the
    operands are integer constants of one width and the result is
    defined, and otherwise a constant that is kept as the operation
    itself (a constant expression over a function's address, undef or
    poison, or the outcome of an operation LLVM's own checks rule out,
    such as operands of different types). *)
Definition ConstantFolder (op : opcode) : Value :=
  match op with
  | BinaryOperator o (ConstantInt bits a) (ConstantInt bits' b) _ =>
      if (bits =? bits')%N then
        match fold_binary_op o bits a b with
        | Some r => ConstantInt bits r
        | None => ConstantExpr op
        end
      else ConstantExpr op
  | Cmp p (ConstantInt bits a) (ConstantInt bits' b) _ =>
      if (bits =? bits')%N then
        match fold_predicate p bits a b with
        | Some r => ConstantInt 1 (if r then 1 else 0)
        | None => ConstantExpr op
        end
      else ConstantExpr op
  | _ => ConstantExpr op
  end.

(** A [double], by its binary64 bits, as a number. *)
Definition decode_binary64 (bits : Z) : SpecFloat.spec_float :=
  let sign := Z.testbit bits 63 in
  let exponent := Z.land (Z.shiftr bits 52) (Z.ones 11) in
  let fraction := Z.land bits (Z.ones 52) in
  if exponent =? 0 then
    match fraction with
    | Z.pos m => SpecFloat.S754_finite sign m (-1074)
    | _ => SpecFloat.S754_zero sign
    end
  else if exponent =? 2047 then
    if fraction =? 0 then SpecFloat.S754_infinity sign
    else SpecFloat.S754_nan
  else
    match fraction + 2 ^ 52 with
    | Z.pos m => SpecFloat.S754_finite sign m (exponent - 1075)
    | _ => SpecFloat.S754_zero sign
    end.

Definition sign_bit32 (sign : bool) : Z := if sign then 2 ^ 31 else 0.

(** [static_cast<float>] of a [double]: the binary32 bits of the nearest
    [float], ties to even, infinity beyond the range of [float]; a NaN
    keeps its sign and the upper bits of its payload and is quiet, as the
    conversion instructions of x86 and ARM give it. *)
Definition static_cast_float (bits : Z) : Z :=
  match decode_binary64 bits with
  | SpecFloat.S754_zero sign => sign_bit32 sign
  | SpecFloat.S754_infinity sign => sign_bit32 sign + 255 * 2 ^ 23
  | SpecFloat.S754_nan =>
      sign_bit32 (Z.testbit bits 63) + 255 * 2 ^ 23 + 2 ^ 22
      + Z.land (Z.shiftr bits 29) (Z.ones 22)
  | SpecFloat.S754_finite sign m e =>
      match SpecFloat.binary_round 24 128 sign m e with
      | SpecFloat.S754_finite sign m e =>
          sign_bit32 sign
          + (if Z.pos m <? 2 ^ 23 then Z.pos m
             else (e + 150) * 2 ^ 23 + (Z.pos m - 2 ^ 23))
      | SpecFloat.S754_infinity sign => sign_bit32 sign + 255 * 2 ^ 23
      | _ => sign_bit32 sign
      end
  end.

End llvm.
Import llvm.

(** ** Type lowering *)

(** [code_generation::get_llvm_type].  [size_type] is a member of
    [code_generation]; it never changes. *)
Definition get_llvm_type (size_type : Type_) (t : type) : result Type_ :=
  match t with
  | built_in arg =>
      match arg with
      | void_ => Ok VoidTy
      | bool_ => Ok (IntegerTy 1)
      | u8 | i8 => Ok (IntegerTy 8)
      | u16 | i16 => Ok (IntegerTy 16)
      | u32 | i32 => Ok (IntegerTy 32)
      | u64 | i64 => Ok (IntegerTy 64)
      | string_ =>
          Ok (StructTy [size_type; PointerTy (IntegerTy 8) 0] false)
      | f32 => Ok FloatTy
      | f64 => Ok DoubleTy
      | unlisted _ =>
          Throw (compiler_exception {| line := 0; column := 0 |}
                   "internal compiler error: unknown type")
      end
  | class_type _ =>
      Throw (runtime_error "TODO: class types are not supported")
  end.

(** ** State and the lowering monad *)

(** The mutable members of [code_generation], together with the objects
    the LLVM module and context own on its behalf: the functions of
    [llvm_module] in creation order, the store of basic blocks (a block's
    position in [basic_blocks] is its identity; the blocks of a function
    are those whose [bb_parent] names it, in creation order) and the
    counter that tells instruction objects apart. *)
Record code_generation := {
  size_type : Type_;
  function_type_map : gmap string Type_;
  llvm_module : list Function_;
  basic_blocks : list BasicBlock;
  constructor_functions : list Value;
  next_inst : nat
}.

(** [code_gen_visitor].  [builder] is the block the [IRBuilder] inserts
    into (it always inserts at the end of that block); the member [value]
    is returned by the expression visits instead of being stored. *)
Record code_gen_visitor := {
  builder : nat;
  gen : code_generation;
  variables : gmap nat Value
}.

Definition M (S A : Type) : Type := S → result (A * S).

Definition mret {S A} (a : A) : M S A := λ s, Ok (a, s).

Definition mbind {S A B} (m : M S A) (k : A → M S B) : M S B :=
  λ s, match m s with
       | Ok (a, s') => k a s'
       | Throw e => Throw e
       end.

Definition throw {S A} (e : exception) : M S A := λ _, Throw e.

Definition lift_result {S A} (r : result A) : M S A :=
  λ s, match r with Ok a => Ok (a, s) | Throw e => Throw e end.

(** Run a [code_generation] member function from inside the visitor. *)
Definition on_gen {A} (m : M code_generation A) : M code_gen_visitor A :=
  λ v, match m (gen v) with
       | Ok (a, g) =>
           Ok (a, {| builder := builder v; gen := g;
                     variables := variables v |})
       | Throw e => Throw e
       end.

Declare Scope lowering_scope.
Delimit Scope lowering_scope with lowering.
Notation "'let*' x ':=' m 'in' k" := (mbind m (λ x, k))
  (at level 10, x name, m at level 100, k at level 200) : lowering_scope.
Notation "m '>>' k" := (mbind m (λ _, k))
  (at level 100, k at level 200, right associativity) : lowering_scope.
Local Open Scope lowering_scope.

(** A loop that visits the elements in order and gathers the results. *)
Section mapM.
Context {S A B : Type}.
Variable f : A → M S B.

Fixpoint mapM (l : list A) : M S (list B) :=
  match l with
  | [] => mret []
  | a :: l' => let* b := f a in let* bs := mapM l' in mret (b :: bs)
  end.

End mapM.

(** A loop that visits the elements in order. *)
Section forM_.
Context {S A : Type}.
Variable f : A → M S unit.

Fixpoint forM_ (l : list A) : M S unit :=
  match l with
  | [] => mret tt
  | a :: l' => f a >> forM_ l'
  end.

End forM_.

(** ** Function signature lowering and the function registry *)

Definition set_function_type_map (m : gmap string Type_)
    (g : code_generation) : code_generation :=
  {| size_type := size_type g; function_type_map := m;
     llvm_module := llvm_module g; basic_blocks := basic_blocks g;
     constructor_functions := constructor_functions g;
     next_inst := next_inst g |}.

Definition set_llvm_module (m : list Function_)
    (g : code_generation) : code_generation :=
  {| size_type := size_type g; function_type_map := function_type_map g;
     llvm_module := m; basic_blocks := basic_blocks g;
     constructor_functions := constructor_functions g;
     next_inst := next_inst g |}.

Definition set_basic_blocks (bs : list BasicBlock)
    (g : code_generation) : code_generation :=
  {| size_type := size_type g; function_type_map := function_type_map g;
     llvm_module := llvm_module g; basic_blocks := bs;
     constructor_functions := constructor_functions g;
     next_inst := next_inst g |}.

Definition set_constructor_functions (cs : list Value)
    (g : code_generation) : code_generation :=
  {| size_type := size_type g; function_type_map := function_type_map g;
     llvm_module := llvm_module g; basic_blocks := basic_blocks g;
     constructor_functions := cs; next_inst := next_inst g |}.

Definition set_next_inst (n : nat)
    (g : code_generation) : code_generation :=
  {| size_type := size_type g; function_type_map := function_type_map g;
     llvm_module := llvm_module g; basic_blocks := basic_blocks g;
     constructor_functions := constructor_functions g; next_inst := n |}.

(** The loop over [signature->parameters] in [get_llvm_function_type]. *)
Fixpoint lower_parameters (size_type : Type_) (pos : position)
    (params : list parameter) : result (list Type_) :=
  match params with
  | [] => Ok []
  | param :: rest =>
      match get_llvm_type size_type (type_ (var param)) with
      | Throw e => Throw e
      | Ok param_type =>
          if isValidArgumentType param_type then
            match lower_parameters size_type pos rest with
            | Ok param_types => Ok (param_type :: param_types)
            | Throw e => Throw e
            end
          else
            Throw (compiler_exception pos
                     "internal compiler error: invalid parameter type")
      end
  end.

(** [code_generation::get_llvm_function_type]. *)
Definition get_llvm_function_type (pos : position)
    (signature : function_signature) : M code_generation Type_ :=
  λ g,
    let name := mangled_name signature in
    match function_type_map g !! name with
    | Some it => Ok (it, g)
    | None =>
        match get_llvm_type (size_type g) (return_type signature) with
        | Throw e => Throw e
        | Ok return_type =>
            if isValidReturnType return_type then
              match lower_parameters (size_type g) pos
                      (parameters signature) with
              | Throw e => Throw e
              | Ok param_types =>
                  let function_type :=
                    FunctionTy return_type param_types false in
                  Ok (function_type,
                      set_function_type_map
                        (<[name := function_type]> (function_type_map g)) g)
              end
            else
              Throw (compiler_exception pos
                       "internal compiler error: invalid return type")
        end
    end.

(** [Module::getFunction]: a lookup in the module's symbol table, which
    holds the named functions only. *)
Definition getFunction (m : list Function_) (n : string)
    : option Function_ :=
  if bool_decide (n = "") then None
  else List.find (λ f, bool_decide (fn_name f = n)) m.

(** The module's symbol table keeps names unique: a requested name that is
    taken gets the first free suffix [.1], [.2], ...  Among the candidates
    up to [length m + 1] one is always free. *)
Fixpoint first_free_suffix (m : list Function_) (base : string)
    (k : N) (tries : nat) : string :=
  let candidate := base +:+ "." +:+ pretty k in
  match tries with
  | O => candidate
  | S tries' =>
      match getFunction m candidate with
      | Some _ => first_free_suffix m base (k + 1)%N tries'
      | None => candidate
      end
  end.

Definition unique_name (m : list Function_) (base : string) : string :=
  match getFunction m base with
  | Some _ => first_free_suffix m base 1%N (length m)
  | None => base
  end.

(** [llvm::Function::Create(type, linkage, name, module)]: a new
    function at the end of the module; with the empty name it stays
    unnamed, whatever the module holds already. *)
Definition Function_Create (ty : Type_) (l : linkage) (n : string)
    : M code_generation Value :=
  λ g,
    let n' := unique_name (llvm_module g) n in
    Ok (GlobalFunction n',
        set_llvm_module
          (llvm_module g ++
             [{| fn_name := n'; fn_type := ty; fn_linkage := l |}]) g).

(** [code_generation::get_or_declare_function]. *)
Definition get_or_declare_function (pos : position)
    (signature : function_signature) : M code_generation Value :=
  let name :=
    if is_extern signature then name signature
    else mangled_name signature in
  λ g,
    match getFunction (llvm_module g) name with
    | Some func => Ok (GlobalFunction (fn_name func), g)
    | None =>
        (let* func_type := get_llvm_function_type pos signature in
         Function_Create func_type
           (if is_extern signature then ExternalLinkage
            else InternalLinkage) name) g
    end.

(** ** The builder *)

Definition set_gen (g : code_generation) (v : code_gen_visitor)
    : code_gen_visitor :=
  {| builder := builder v; gen := g; variables := variables v |}.

Definition GetInsertBlock : M code_gen_visitor nat :=
  λ v, Ok (builder v, v).

(** [builder.SetInsertPoint(block)]: the end of [block]. *)
Definition SetInsertPoint (bb : nat) : M code_gen_visitor unit :=
  λ v, Ok (tt, {| builder := bb; gen := gen v; variables := variables v |}).

Definition getParent (bb : nat) : M code_gen_visitor string :=
  λ v, Ok (default "" (bb_parent <$> basic_blocks (gen v) !! bb), v).

(** [llvm::BasicBlock::Create(context, name, parent)]: a new empty block
    at the end of [parent]. *)
Definition BasicBlock_Create (n parent : string) : M code_generation nat :=
  λ g,
    Ok (length (basic_blocks g),
        set_basic_blocks
          (basic_blocks g ++
             [{| bb_name := n; bb_parent := parent; bb_insts := [] |}]) g).

(** [block->getTerminator()]. *)
Definition block_terminator (bb : nat)
    : M code_gen_visitor (option instruction) :=
  λ v, Ok (basic_blocks (gen v) !! bb ≫= getTerminator, v).

Definition push_inst (i : instruction) (b : BasicBlock) : BasicBlock :=
  {| bb_name := bb_name b; bb_parent := bb_parent b;
     bb_insts := bb_insts b ++ [i] |}.

(** [IRBuilder::Insert] of an instruction, the builder being positioned
    at the end of block [bb]: a new instruction object, appended to that
    block, is the value produced. *)
Definition builder_insert (bb : nat) (op : opcode)
    : M code_generation Value :=
  λ g,
    let id := next_inst g in
    Ok (Inst id op,
        set_next_inst (S id)
          (set_basic_blocks
             (alter (push_inst (id, op)) bb (basic_blocks g)) g)).

Definition Insert (op : opcode) : M code_gen_visitor Value :=
  λ v, on_gen (builder_insert (builder v) op) v.

Definition CreateAlloca ty := Insert (Alloca ty).
Definition CreateLoad ptr := Insert (Load ptr).
Definition CreateStore val ptr := Insert (Store val ptr).
Definition CreateCall callee args := Insert (Call callee args).
Definition CreateRet val := Insert (Ret val).
Definition CreateRetVoid := Insert RetVoid.
Definition CreateBr dest := Insert (Br dest).
Definition CreateCondBr cond t f := Insert (CondBr cond t f).

(** The arithmetic and comparison requests go through the builder's
    folder first ([IRBuilder<>] has the default [ConstantFolder]): when
    both operands are constants the folded constant is returned and
    nothing is inserted.  (The source calls [CreateLoad(ptr)] and
    [makeArrayRef], the API of the LLVM releases in which the folder
    answers every such request on two constants with a constant.)  The
    other requests, loads, stores, calls, returns and branches among
    them, are never folded. *)
Definition CreateBinOp (op : binary_op) (lhs rhs : Value) (label : string)
    : M code_gen_visitor Value :=
  if isa_Constant lhs && isa_Constant rhs
  then mret (ConstantFolder (BinaryOperator op lhs rhs label))
  else Insert (BinaryOperator op lhs rhs label).

Definition CreateCmp (p : predicate) (lhs rhs : Value) (label : string)
    : M code_gen_visitor Value :=
  if isa_Constant lhs && isa_Constant rhs
  then mret (ConstantFolder (Cmp p lhs rhs label))
  else Insert (Cmp p lhs rhs label).

Definition CreateAdd := CreateBinOp Add.
Definition CreateSub := CreateBinOp Sub.
Definition CreateMul := CreateBinOp Mul.
Definition CreateSDiv := CreateBinOp SDiv.
Definition CreateUDiv := CreateBinOp UDiv.
Definition CreateFAdd := CreateBinOp FAdd.
Definition CreateFSub := CreateBinOp FSub.
Definition CreateFMul := CreateBinOp FMul.
Definition CreateFDiv := CreateBinOp FDiv.
Definition CreateICmpEQ := CreateCmp ICMP_EQ.
Definition CreateICmpNE := CreateCmp ICMP_NE.
Definition CreateICmpSLT := CreateCmp ICMP_SLT.
Definition CreateICmpULT := CreateCmp ICMP_ULT.
Definition CreateICmpSLE := CreateCmp ICMP_SLE.
Definition CreateICmpSGT := CreateCmp ICMP_SGT.
Definition CreateICmpUGT := CreateCmp ICMP_UGT.
Definition CreateICmpSGE := CreateCmp ICMP_SGE.
Definition CreateFCmpOEQ := CreateCmp FCMP_OEQ.
Definition CreateFCmpONE := CreateCmp FCMP_ONE.
Definition CreateFCmpOLT := CreateCmp FCMP_OLT.
Definition CreateFCmpOLE := CreateCmp FCMP_OLE.
Definition CreateFCmpOGT := CreateCmp FCMP_OGT.
Definition CreateFCmpOGE := CreateCmp FCMP_OGE.

(** ** Body lowering: [code_gen_visitor] *)

(** The width switch of [visit(number_literal)] for a [std::uint64_t]. *)
Definition integer_type_size (rng : range) (eval_type : type)
    : result N :=
  match eval_type with
  | built_in b =>
      match b with
      | u8 | i8 => Ok 1%N
      | u16 | i16 => Ok 2%N
      | u32 | i32 => Ok 4%N
      | u64 | i64 => Ok 8%N
      | _ =>
          Throw (compiler_exception (start rng)
                   "internal compiler error: unknown integer type")
      end
  | class_type _ => Throw bad_variant_access
  end.

(** [visit(number_literal)].  [APInt(n, value)] keeps the low [n] bits;
    the constant of type float has the bits of the [double] narrowed by
    [static_cast<float>]. *)
Definition visit_number_literal (rng : range) (value : number_value)
    (eval_type : type) : result Value :=
  match value with
  | num_uint64 value =>
      match integer_type_size rng eval_type with
      | Ok type_size =>
          Ok (ConstantInt (type_size * 8)
                (value `mod` 2 ^ Z.of_N (type_size * 8)))
      | Throw e => Throw e
      end
  | num_double value =>
      match eval_type with
      | built_in f32 => Ok (ConstantFP FloatTy (static_cast_float value))
      | built_in f64 => Ok (ConstantFP DoubleTy value)
      | built_in _ =>
          Throw (compiler_exception (start rng)
                   "internal compiler error: unknown floating point type")
      | class_type _ => Throw bad_variant_access
      end
  | num_other =>
      Throw (compiler_exception (start rng)
               "internal compiler error: unknown number type")
  end.

(** The operator switch of [visit(binary)], after both operands. *)
Definition visit_binary_operation (rng : range) (operation : lexeme_type)
    (lhs_value rhs_value : Value) : M code_gen_visitor Value :=
  let unsigned_operation := false in
  let float_operation := false in
  match operation with
  | symbol_add =>
      if float_operation
      then CreateFAdd lhs_value rhs_value "faddtmp"
      else CreateAdd lhs_value rhs_value "addtmp"
  | symbol_minus =>
      if float_operation
      then CreateFSub lhs_value rhs_value "fsubtmp"
      else CreateSub lhs_value rhs_value "subtmp"
  | symbol_multiply =>
      if float_operation
      then CreateFMul lhs_value rhs_value "fmultmp"
      else CreateMul lhs_value rhs_value "multmp"
  | symbol_divide =>
      if float_operation
      then CreateFDiv lhs_value rhs_value "fdivtmp"
      else if unsigned_operation
      then CreateUDiv lhs_value rhs_value "udivtmp"
      else CreateSDiv lhs_value rhs_value "sdivtmp"
  | symbol_eq =>
      if float_operation
      then CreateFCmpOEQ lhs_value rhs_value "feqtmp"
      else CreateICmpEQ lhs_value rhs_value "eqtmp"
  | symbol_neq =>
      if float_operation
      then CreateFCmpONE lhs_value rhs_value "fnetmp"
      else CreateICmpNE lhs_value rhs_value "netmp"
  | symbol_lt =>
      if float_operation
      then CreateFCmpOLT lhs_value rhs_value "folttmp"
      else if unsigned_operation
      then CreateICmpULT lhs_value rhs_value "ulttmp"
      else CreateICmpSLT lhs_value rhs_value "slttmp"
  | symbol_lteq =>
      if float_operation
      then CreateFCmpOLE lhs_value rhs_value "foletmp"
      else if unsigned_operation
      then CreateICmpSLE lhs_value rhs_value "uletmp"
      else CreateICmpSLE lhs_value rhs_value "sletmp"
  | symbol_gt =>
      if float_operation
      then CreateFCmpOGT lhs_value rhs_value "fogttmp"
      else if unsigned_operation
      then CreateICmpUGT lhs_value rhs_value "ugttmp"
      else CreateICmpSGT lhs_value rhs_value "sgttmp"
  | symbol_gteq =>
      if float_operation
      then CreateFCmpOGE lhs_value rhs_value "fogetmp"
      else if unsigned_operation
      then CreateICmpSGE lhs_value rhs_value "ugetmp"
      else CreateICmpSGE lhs_value rhs_value "sgetmp"
  | other_lexeme _ =>
      throw (compiler_exception (start rng)
               "internal compiler error: invalid binary operation")
  end.

(** [visit(variable_ref)]: the map is looked up, and on a miss a slot is
    allocated; nothing is stored into [variables]. *)
Definition visit_variable_ref (var : variable) : M code_gen_visitor Value :=
  λ v,
    match variables v !! var_id var with
    | Some it => Ok (it, v)
    | None =>
        (let* ty :=
           lift_result (get_llvm_type (size_type (gen v)) (type_ var)) in
         CreateAlloca ty) v
    end.

(** The expression visits; the result is the member [value] after the
    visit. *)
Fixpoint visit_expression (node : expression) : M code_gen_visitor Value :=
  match node with
  | symbol_wrapper rng signature =>
      on_gen (get_or_declare_function (start rng) signature)
  | call rng function arguments =>
      let* value := visit_expression function in
      if isa_Function value then
        let func := value in
        let* arguments := mapM visit_expression arguments in
        CreateCall func arguments
      else
        throw (compiler_exception (start rng)
                 "internal compiler error: expected function for call")
  | bool_literal value =>
      mret (ConstantInt 1 (if value then 1 else 0))
  | variable_ref var => visit_variable_ref var
  | number_literal rng value eval_type =>
      lift_result (visit_number_literal rng value eval_type)
  | binary rng left_ operation right_ =>
      let* lhs_value := visit_expression left_ in
      let* rhs_value := visit_expression right_ in
      visit_binary_operation rng operation lhs_value rhs_value
  end.

Definition when_no_terminator (bb : nat) (k : M code_gen_visitor unit)
    : M code_gen_visitor unit :=
  let* t := block_terminator bb in
  match t with
  | None => k
  | Some _ => mret tt
  end.

(** The statement visits.  A visit that returns [true] in the source
    ([normal_block], [expression_]) has its children visited in order. *)
Fixpoint visit_statement (node : statement) : M code_gen_visitor unit :=
  match node with
  | while_loop condition body =>
      let* start_block := GetInsertBlock in
      let* parent := getParent start_block in
      let* loop_start_block :=
        on_gen (BasicBlock_Create "loopstart" parent) in
      when_no_terminator start_block
        (CreateBr loop_start_block >> mret tt) >>
      SetInsertPoint loop_start_block >>
      let* condition_value := visit_expression condition in
      let* loop_body_block :=
        on_gen (BasicBlock_Create "loopbody" parent) in
      SetInsertPoint loop_body_block >>
      visit_statement body >>
      when_no_terminator loop_body_block
        (SetInsertPoint loop_body_block >>
         CreateBr loop_start_block >> mret tt) >>
      let* end_block := on_gen (BasicBlock_Create "end" parent) in
      SetInsertPoint loop_start_block >>
      CreateCondBr condition_value loop_body_block end_block >>
      SetInsertPoint end_block
  | assignment to from =>
      let* to := visit_expression to in
      let* from := visit_expression from in
      let* from :=
        if isa_AllocaInst from then CreateLoad from else mret from in
      CreateStore from to >> mret tt
  | if_stat condition main_body else_body =>
      let* condition_value := visit_expression condition in
      let* start_block := GetInsertBlock in
      let* parent := getParent start_block in
      let* main_body_block :=
        on_gen (BasicBlock_Create "mainbody" parent) in
      SetInsertPoint main_body_block >>
      visit_statement main_body >>
      match else_body with
      | Some _ =>
          let* else_body_block :=
            on_gen (BasicBlock_Create "elsebody" parent) in
          SetInsertPoint else_body_block >>
          visit_statement main_body >>
          let* end_block := on_gen (BasicBlock_Create "end" parent) in
          SetInsertPoint start_block >>
          CreateCondBr condition_value main_body_block else_body_block >>
          when_no_terminator main_body_block
            (SetInsertPoint main_body_block >>
             CreateBr end_block >> mret tt) >>
          when_no_terminator else_body_block
            (SetInsertPoint else_body_block >>
             CreateBr end_block >> mret tt) >>
          SetInsertPoint end_block
      | None =>
          let* end_block := on_gen (BasicBlock_Create "end" parent) in
          when_no_terminator start_block
            (SetInsertPoint start_block >>
             CreateCondBr condition_value main_body_block end_block >>
             mret tt) >>
          when_no_terminator main_body_block
            (SetInsertPoint main_body_block >>
             CreateBr end_block >> mret tt) >>
          SetInsertPoint end_block
      end
  | expression_ e => visit_expression e >> mret tt
  | ret value =>
      match value with
      | Some value =>
          let* value := visit_expression value in
          let* value :=
            if isa_AllocaInst value then CreateLoad value else mret value in
          CreateRet value >> mret tt
      | None => CreateRetVoid >> mret tt
      end
  | normal_block body => forM_ visit_statement body
  end.

(** ** The module assembler *)

Definition function_name (f : Value) : string :=
  match f with GlobalFunction n => n | _ => "" end.

(** [compile_function] up to and including the visit of the body: the
    function is declared or fetched, an "entry" block is added to it, and
    a fresh visitor lowers the body. *)
Definition lower_body (func : function_definition) (g : code_generation)
    : result (Value * code_gen_visitor) :=
  match
    get_or_declare_function (start (fd_range func)) (fd_signature func) g
  with
  | Throw e => Throw e
  | Ok (llvm_func, g) =>
      match BasicBlock_Create "entry" (function_name llvm_func) g with
      | Throw e => Throw e
      | Ok (basic_block, g) =>
          let code_gen :=
            {| builder := basic_block; gen := g; variables := ∅ |} in
          match visit_statement (fd_body func) code_gen with
          | Throw e => Throw e
          | Ok (_, code_gen) => Ok (llvm_func, code_gen)
          end
      end
  end.

(** [code_generation::compile_function].  The outcome of
    [llvm::verifyFunction] is not used by the source and has no
    counterpart here. *)
Definition compile_function (func : function_definition)
    : M code_generation unit :=
  λ g,
    match lower_body func g with
    | Throw e => Throw e
    | Ok (llvm_func, code_gen) =>
        let attribs := attributes (fd_signature func) in
        if bool_decide ("constructor" ∈ attribs) then
          match CreateRetVoid code_gen with
          | Throw e => Throw e
          | Ok (_, code_gen) =>
              Ok (tt,
                  set_constructor_functions
                    (constructor_functions (gen code_gen) ++ [llvm_func])
                    (gen code_gen))
          end
        else Ok (tt, gen code_gen)
    end.

(** [code_generation::compile_extern_function]. *)
Definition compile_extern_function (func : extern_function_definition)
    : M code_generation unit :=
  get_or_declare_function (start (efd_range func)) (efd_signature func) >>
  mret tt.

(** [function_collector]: both kinds of definition, in visiting order. *)
Record function_collector := {
  collected_functions : list function_definition;
  collected_extern_functions : list extern_function_definition
}.

Definition collector_visit (c : function_collector) (node : declaration)
    : function_collector :=
  match node with
  | decl_function f =>
      {| collected_functions := collected_functions c ++ [f];
         collected_extern_functions := collected_extern_functions c |}
  | decl_extern_function f =>
      {| collected_functions := collected_functions c;
         collected_extern_functions := collected_extern_functions c ++ [f] |}
  end.

Definition collect (body : list declaration) : function_collector :=
  foldl collector_visit
    {| collected_functions := []; collected_extern_functions := [] |} body.

(** The loop of [generate] over [constructor_functions]. *)
Definition call_constructors (entry_basic_block : nat)
    : M code_generation unit :=
  λ g,
    forM_ (λ constructor_func,
             builder_insert entry_basic_block (Call constructor_func []) >>
             mret tt)
      (constructor_functions g) g.

(** [code_generation::generate]; the module it returns is part of the
    final state. *)
Definition generate (mod_body : list declaration)
    : M code_generation unit :=
  let collector := collect mod_body in
  forM_ compile_extern_function (collected_extern_functions collector) >>
  forM_ compile_function (collected_functions collector) >>
  let* entry_function :=
    Function_Create (FunctionTy VoidTy [] false) InternalLinkage "entry" in
  let* entry_basic_block :=
    BasicBlock_Create "entry" (function_name entry_function) in
  call_constructors entry_basic_block >>
  builder_insert entry_basic_block RetVoid >>
  mret tt.

(** A [code_generation] object before [generate] runs. *)
Definition initial (size_type : Type_) : code_generation :=
  {| size_type := size_type; function_type_map := ∅; llvm_module := [];
     basic_blocks := []; constructor_functions := []; next_inst := 0 |}.

(** The blocks of a function, in order. *)
Definition function_blocks (g : code_generation) (fn : string)
    : list BasicBlock :=
  filter (λ b, bb_parent b = fn) (basic_blocks g).

(** ** Vocabulary of the statements, and the scenarios they are tried on *)

(** The built-in tags [get_llvm_type] has a case for. *)
Definition recognised (t : type) : bool :=
  match t with
  | built_in (unlisted _) | class_type _ => false
  | built_in _ => true
  end.

Definition succeeded {A} (r : result A) : bool :=
  match r with Ok _ => true | Throw _ => false end.

(** The tag with the same width and the other signedness; a tag that is
    not an integer is its own twin. *)
Definition sign_twin (b : built_in_type) : built_in_type :=
  match b with
  | u8 => i8 | i8 => u8
  | u16 => i16 | i16 => u16
  | u32 => i32 | i32 => u32
  | u64 => i64 | i64 => u64
  | b => b
  end.

Definition produced {A S} (r : result (A * S)) : option A :=
  match r with Ok (a, _) => Some a | Throw _ => None end.

Definition outcome {A S} (r : result (A * S)) : option S :=
  match r with Ok (_, s) => Some s | Throw _ => None end.

Definition here : position := {| line := 1; column := 1 |}.

Definition int_parameter (id : nat) (t : built_in_type) : parameter :=
  {| var := {| var_id := id; var_name := "a"; type_ := built_in t |} |}.

(** [fn f(a: i32)] and [fn g(a: u32)]. *)
Definition sig_f_i32 : function_signature :=
  {| name := "f"; mangled_name := "f_i32";
     parameters := [int_parameter 1 i32]; return_type := built_in void_;
     is_extern := false; attributes := ∅ |}.

Definition sig_g_u32 : function_signature :=
  {| name := "g"; mangled_name := "g_u32";
     parameters := [int_parameter 2 u32]; return_type := built_in void_;
     is_extern := false; attributes := ∅ |}.

Definition at_start : range := {| start := here |}.

(** [fn n() { body }], with the given attributes. *)
Definition define (n : string) (attrs : gset string) (body : statement)
    : function_definition :=
  {| fd_range := at_start;
     fd_signature :=
       {| name := n; mangled_name := n; parameters := [];
          return_type := built_in void_; is_extern := false;
          attributes := attrs |};
     fd_body := body |}.

(** The block store after [compile_function] on a fresh generator. *)
Definition lowered_blocks (func : function_definition)
    : option (list BasicBlock) :=
  basic_blocks
    <$> outcome (compile_function func (initial (IntegerTy 64))).

(** A block is well terminated when its last instruction is a terminator
    and no other instruction is. *)
Definition well_terminated (b : BasicBlock) : bool :=
  match reverse (bb_insts b) with
  | [] => false
  | i :: earlier =>
      isTerminator i.2 && forallb (λ j, negb (isTerminator j.2)) earlier
  end.

Definition x_i32 : variable :=
  {| var_id := 1; var_name := "x"; type_ := built_in i32 |}.

(** [fn h() -> f64], not extern. *)
Definition sig_h_f64 : function_signature :=
  {| name := "h"; mangled_name := "h"; parameters := [];
     return_type := built_in f64; is_extern := false; attributes := ∅ |}.

(** [{ return; if (true) { } else { } }] *)
Definition return_then_if_else : statement :=
  normal_block
    [ret None;
     if_stat (bool_literal true) (normal_block [])
       (Some (normal_block []))].

(** [{ return; if (true) { } }] *)
Definition return_then_if : statement :=
  normal_block
    [ret None; if_stat (bool_literal true) (normal_block []) None].

(** [if (true) { return; } else { x = true; }] *)
Definition if_return_else_assign : statement :=
  if_stat (bool_literal true) (ret None)
    (Some (assignment (variable_ref x_i32) (bool_literal true))).

(** [{ x = 7; return x; }] *)
Definition assign_then_return : statement :=
  normal_block
    [assignment (variable_ref x_i32)
       (number_literal at_start (num_uint64 7) (built_in i32));
     ret (Some (variable_ref x_i32))].

(** [h() + h()], both operands of evaluated type f64. *)
Definition add_two_f64_calls : statement :=
  expression_
    (binary at_start
       (call at_start (symbol_wrapper at_start sig_h_f64) [])
       symbol_add
       (call at_start (symbol_wrapper at_start sig_h_f64) [])).

Definition floating_form (value : Value) : bool :=
  match value with
  | Inst _ (BinaryOperator (FAdd | FSub | FMul | FDiv) _ _ _) => true
  | Inst _ (Cmp (FCMP_OEQ | FCMP_ONE | FCMP_OLT | FCMP_OLE
                | FCMP_OGT | FCMP_OGE) _ _ _) => true
  | _ => false
  end.

Definition unsigned_form (value : Value) : bool :=
  match value with
  | Inst _ (BinaryOperator UDiv _ _ _) => true
  | Inst _ (Cmp (ICMP_ULT | ICMP_UGT) _ _ _) => true
  | _ => false
  end.

(** The name under which the module knows the function of a signature. *)
Definition module_name (signature : function_signature) : string :=
  if is_extern signature then name signature else mangled_name signature.

Definition is_constructor (func : function_definition) : bool :=
  bool_decide ("constructor" ∈ attributes (fd_signature func)).

Definition is_load (op : opcode) : bool :=
  match op with Load _ => true | _ => false end.

(** An instruction that sits in some block of the store. *)
Definition inst_in (g : code_generation) (i : instruction) : Prop :=
  ∃ b, b ∈ basic_blocks g ∧ i ∈ bb_insts b.

(** A computation [m] keeps the relation [R] between the state it starts
    from and the state it ends in. *)
Definition preserves {S A} (R : relation S) (m : M S A) : Prop :=
  ∀ s a s', m s = Ok (a, s') → R s s'.

(** What lowering an expression leaves alone: the storage map, the insert
    block, the constructor list, [size_type], the number of blocks and the
    function each block belongs to; every load instruction present
    afterwards was present before; functions are only added. *)
Record expression_frame (v v' : code_gen_visitor) : Prop := {
  ef_variables : variables v' = variables v;
  ef_builder : builder v' = builder v;
  ef_constructors :
    constructor_functions (gen v') = constructor_functions (gen v);
  ef_size_type : size_type (gen v') = size_type (gen v);
  ef_blocks :
    length (basic_blocks (gen v')) = length (basic_blocks (gen v));
  ef_loads :
    ∀ i, inst_in (gen v') i → is_load i.2 = true → inst_in (gen v) i;
  ef_parents :
    bb_parent <$> basic_blocks (gen v') = bb_parent <$> basic_blocks (gen v);
  ef_module : llvm_module (gen v) `prefix_of` llvm_module (gen v')
}.

(** What lowering a statement leaves alone; blocks and functions are only
    added. *)
Record statement_frame (v v' : code_gen_visitor) : Prop := {
  sf_variables : variables v' = variables v;
  sf_constructors :
    constructor_functions (gen v') = constructor_functions (gen v);
  sf_size_type : size_type (gen v') = size_type (gen v);
  sf_blocks :
    (length (basic_blocks (gen v)) ≤ length (basic_blocks (gen v')))%nat;
  sf_module : llvm_module (gen v) `prefix_of` llvm_module (gen v')
}.

(** The insert block exists. *)
Definition builder_valid (v : code_gen_visitor) : Prop :=
  (builder v < length (basic_blocks (gen v)))%nat.

(** The instructions [generate] puts into the entry block for the
    constructors [cs], the first of them numbered [n]. *)
Definition constructor_calls (n : nat) (cs : list Value)
    : list instruction :=
  imap (λ k c, ((n + k)%nat, Call c [])) cs.

(** ** Induction over the AST *)

Section expression_induction.
Variable P : expression → Prop.
Hypothesis P_symbol_wrapper : ∀ rng signature,
  P (symbol_wrapper rng signature).
Hypothesis P_call : ∀ rng function arguments,
  P function → Forall P arguments → P (call rng function arguments).
Hypothesis P_bool_literal : ∀ value, P (bool_literal value).
Hypothesis P_variable_ref : ∀ v, P (variable_ref v).
Hypothesis P_number_literal : ∀ rng value eval_type,
  P (number_literal rng value eval_type).
Hypothesis P_binary : ∀ rng l operation r,
  P l → P r → P (binary rng l operation r).

Fixpoint expression_nested_ind (e : expression) : P e :=
  match e with
  | symbol_wrapper rng signature => P_symbol_wrapper rng signature
  | call rng function arguments =>
      P_call rng function arguments (expression_nested_ind function)
        ((fix all (l : list expression) : Forall P l :=
            match l with
            | [] => @List.Forall_nil _ P
            | a :: l' => @List.Forall_cons _ P a l' (expression_nested_ind a) (all l')
            end) arguments)
  | bool_literal value => P_bool_literal value
  | variable_ref v => P_variable_ref v
  | number_literal rng value eval_type =>
      P_number_literal rng value eval_type
  | binary rng l operation r =>
      P_binary rng l operation r (expression_nested_ind l)
        (expression_nested_ind r)
  end.

End expression_induction.

Section statement_induction.
Variable P : statement → Prop.
Hypothesis P_while_loop : ∀ condition body,
  P body → P (while_loop condition body).
Hypothesis P_assignment : ∀ to from, P (assignment to from).
Hypothesis P_if_stat : ∀ condition main_body else_body,
  P main_body → P (if_stat condition main_body else_body).
Hypothesis P_expression : ∀ e, P (expression_ e).
Hypothesis P_ret : ∀ value, P (ret value).
Hypothesis P_normal_block : ∀ body, Forall P body → P (normal_block body).

Fixpoint statement_nested_ind (s : statement) : P s :=
  match s with
  | while_loop condition body =>
      P_while_loop condition body (statement_nested_ind body)
  | assignment to from => P_assignment to from
  | if_stat condition main_body else_body =>
      P_if_stat condition main_body else_body
        (statement_nested_ind main_body)
  | expression_ e => P_expression e
  | ret value => P_ret value
  | normal_block body =>
      P_normal_block body
        ((fix all (l : list statement) : Forall P l :=
            match l with
            | [] => @List.Forall_nil _ P
            | a :: l' => @List.Forall_cons _ P a l' (statement_nested_ind a) (all l')
            end) body)
  end.

End statement_induction.

(** ** Frames of the registry and of the blocks *)

(** What declaring functions and caching their types leaves alone:
    everything but the registry, to which functions are only added, and
    the cache. *)
Record registry_frame (g g' : code_generation) : Prop := {
  rf_size_type : size_type g' = size_type g;
  rf_blocks : basic_blocks g' = basic_blocks g;
  rf_constructors : constructor_functions g' = constructor_functions g;
  rf_next_inst : next_inst g' = next_inst g;
  rf_module : llvm_module g `prefix_of` llvm_module g'
}.

(** The constructors among the function definitions of a module body, as
    the values [compile_function] records, in declaration order. *)
Definition recorded_constructors (mod_body : list declaration)
    : list Value :=
  (λ func, GlobalFunction (module_name (fd_signature func)))
    <$> filter (λ func, is_constructor func = true)
          (collected_functions (collect mod_body)).

(** [fn f() { return; }] tagged "constructor". *)
Definition returning_constructor : function_definition :=
  define "f" {["constructor"]} (ret None).

(** Three empty functions tagged "constructor". *)
Definition three_constructors : list declaration :=
  [decl_function (define "f1" {["constructor"]} (normal_block []));
   decl_function (define "f2" {["constructor"]} (normal_block []));
   decl_function (define "f3" {["constructor"]} (normal_block []))].

(** A visitor at the start of a function "f" whose entry block is still
    empty. *)
Definition fresh_visitor : code_gen_visitor :=
  {| builder := 0;
     gen :=
       set_basic_blocks
         [{| bb_name := "entry"; bb_parent := "f"; bb_insts := [] |}]
         (initial (IntegerTy 64));
     variables := ∅ |}.

(** [fn p(a: i32)], not extern. *)
Definition sig_p_i32 : function_signature :=
  {| name := "p"; mangled_name := "p"; parameters := [int_parameter 7 i32];
     return_type := built_in void_; is_extern := false; attributes := ∅ |}.

(** The module has a function of the name of the function a block
    belongs to (an unnamed one, for the empty name). *)
Definition declared_in (m : list Function_) (parent : string) : Prop :=
  parent ∈ fn_name <$> m.

(** A step of a computation that has been accounted for. *)
Definition recorded (P : Prop) : Prop := P.

(** Every block belongs to the function it belonged to before, and there
    are no new blocks. *)
Definition same_parents (v v' : code_gen_visitor) : Prop :=
  bb_parent <$> basic_blocks (gen v') = bb_parent <$> basic_blocks (gen v).

(** [extern fn puts(s: string) -> i32] and [extern fn halt(code: i32)];
    extern signatures are not mangled, their [mangled_name] is empty. *)
Definition sig_puts : function_signature :=
  {| name := "puts"; mangled_name := "";
     parameters :=
       [{| var := {| var_id := 3; var_name := "s";
                     type_ := built_in string_ |} |}];
     return_type := built_in i32; is_extern := true; attributes := ∅ |}.

Definition sig_halt : function_signature :=
  {| name := "halt"; mangled_name := "";
     parameters := [int_parameter 4 i32]; return_type := built_in void_;
     is_extern := true; attributes := ∅ |}.

Definition two_externs : list declaration :=
  [decl_extern_function {| efd_range := at_start; efd_signature := sig_puts |};
   decl_extern_function {| efd_range := at_start; efd_signature := sig_halt |}].

(** ** Well-terminated blocks *)

Definition quiet (i : instruction) : Prop := isTerminator i.2 = false.

(** A block without any terminator. *)
Definition open (b : BasicBlock) : Prop := Forall quiet (bb_insts b).

(** A block whose last instruction is its only terminator. *)
Definition closed (b : BasicBlock) : Prop :=
  ∃ body t,
    bb_insts b = (body ++ [t])%list
    ∧ Forall quiet body
    ∧ isTerminator t.2 = true.

(** At most one terminator, and nothing after it. *)
Definition tidy (b : BasicBlock) : Prop := open b ∨ closed b.

Definition tidy_blocks (g : code_generation) : Prop :=
  ∀ i b, basic_blocks g !! i = Some b → tidy b.

Definition open_at (i : nat) (g : code_generation) : Prop :=
  ∃ b, basic_blocks g !! i = Some b ∧ open b.

(** Every block other than [t] that existed in [g] is the same in [g']. *)
Definition kept_except (t : nat) (g g' : code_generation) : Prop :=
  ∀ i b, i ≠ t → basic_blocks g !! i = Some b → basic_blocks g' !! i = Some b.

(** The statement leaves the block it is lowered into terminated: a
    return, or a block that contains one. *)
Fixpoint terminates_block (node : statement) : bool :=
  match node with
  | ret _ => true
  | normal_block body =>
      (fix any (l : list statement) : bool :=
         match l with
         | [] => false
         | s :: l' => terminates_block s || any l'
         end) body
  | _ => false
  end.

(** No return is followed by another statement of the same block.  (The
    statements of an else branch are not looked at: they are never
    lowered.) *)
Fixpoint returns_last (node : statement) : bool :=
  match node with
  | while_loop _ body => returns_last body
  | if_stat _ main_body _ => returns_last main_body
  | normal_block body =>
      (fix all (l : list statement) : bool :=
         match l with
         | [] => true
         | s :: l' =>
             returns_last s
             && match l' with
                | [] => true
                | _ => negb (terminates_block s)
                end
             && all l'
         end) body
  | _ => true
  end.

(** A step that appends only to the builder's block, and nothing that
    terminates it. *)
Record quiet_step (v v' : code_gen_visitor) : Prop := {
  qs_builder : builder v' = builder v;
  qs_length :
    length (basic_blocks (gen v')) = length (basic_blocks (gen v));
  qs_kept : kept_except (builder v) (gen v) (gen v');
  qs_open : open_at (builder v) (gen v) → open_at (builder v) (gen v');
  qs_tidy :
    tidy_blocks (gen v) → open_at (builder v) (gen v) →
    tidy_blocks (gen v')
}.

(** What lowering a statement whose returns come last does to a tidy
    store: the store stays tidy; unless the statement ends in a return the
    builder is left in a block without terminator; of the blocks that
    existed, only the one the builder started in is changed; and the
    builder stays where it was or moves to a new block. *)
Record lowered_tidily (node : statement) (v v' : code_gen_visitor)
    : Prop := {
  lt_tidy : tidy_blocks (gen v');
  lt_open :
    terminates_block node = false → open_at (builder v') (gen v');
  lt_kept : kept_except (builder v) (gen v) (gen v');
  lt_builder :
    builder v' = builder v
    ∨ (length (basic_blocks (gen v)) ≤ builder v')%nat
}.

(** The condition under which a function is lowered into tidy blocks: its
    returns come last, and if it is tagged "constructor" (so that a void
    return is appended) its body does not end in one. *)
Definition returns_in_place (func : function_definition) : Prop :=
  returns_last (fd_body func) = true
  ∧ (is_constructor func = true → terminates_block (fd_body func) = false).

(** [fn f() { }]. *)
Definition empty_function : function_definition :=
  define "f" ∅ (normal_block []).

(** [fn f() { while (true) { if (true) { return; } } return; }] *)
Definition loop_with_return : list declaration :=
  [decl_function
     (define "f" ∅
        (normal_block
           [while_loop (bool_literal true)
              (normal_block
                 [if_stat (bool_literal true) (ret None) None]);
            ret None]))].

(** ** Blocks that end in a terminator *)

Definition closed_at (i : nat) (g : code_generation) : Prop :=
  ∃ b, basic_blocks g !! i = Some b ∧ closed b.

(** The statement is lowered without leaving the block: it holds no loop
    and no conditional. *)
Fixpoint stays_put (node : statement) : bool :=
  match node with
  | while_loop _ _ | if_stat _ _ _ => false
  | normal_block body =>
      (fix all (l : list statement) : bool :=
         match l with
         | [] => true
         | s :: l' => stays_put s && all l'
         end) body
  | _ => true
  end.

(** Every body of a loop or of a conditional either ends in a return or
    holds no loop and no conditional of its own.  (The gates that close
    the block of a body look at the block the body started in, not at the
    block the builder is in after it.) *)
Fixpoint settled (node : statement) : bool :=
  match node with
  | while_loop _ body =>
      settled body && (terminates_block body || stays_put body)
  | if_stat _ main_body _ =>
      settled main_body
      && (terminates_block main_body || stays_put main_body)
  | normal_block body =>
      (fix all (l : list statement) : bool :=
         match l with
         | [] => true
         | s :: l' => settled s && all l'
         end) body
  | _ => true
  end.

(** Lowering falls out of the function: the body does not end in a
    return, and no void return is appended for a constructor. *)
Definition falls_out (func : function_definition) : bool :=
  negb (terminates_block (fd_body func)) && negb (is_constructor func).

(** What lowering a settled statement whose returns come last does to
    the blocks, the builder starting in a block without terminator: every
    block it creates other than the one the builder is left in ends in a
    terminator; so does the block the builder started in once the builder
    has left it, and the block the builder is left in when the statement
    ends in a return; the builder stays where it was exactly when the
    statement holds no loop and no conditional, and otherwise is left in
    the block created last. *)
Record lowered_closed (node : statement) (v v' : code_gen_visitor)
    : Prop := {
  lc_new :
    ∀ i, (length (basic_blocks (gen v)) ≤ i)%nat →
         (i < length (basic_blocks (gen v')))%nat →
         i ≠ builder v' →
         closed_at i (gen v');
  lc_start : builder v' ≠ builder v → closed_at (builder v) (gen v');
  lc_last :
    terminates_block node = true → closed_at (builder v') (gen v');
  lc_stays :
    stays_put node = true →
    builder v' = builder v
    ∧ length (basic_blocks (gen v')) = length (basic_blocks (gen v));
  lc_moves :
    stays_put node = false →
    length (basic_blocks (gen v')) = S (builder v')
    ∧ (length (basic_blocks (gen v)) ≤ builder v')%nat
}.

(** The blocks of one lowered function: all but the last end in a
    terminator; the last one, where lowering ended, has none when
    lowering fell out of the function, and ends in one otherwise. *)
Definition run_closed (func : function_definition)
    (run : list BasicBlock) : Prop :=
  ∃ init last,
    run = (init ++ [last])%list
    ∧ Forall closed init
    ∧ if falls_out func then open last else closed last.

(** [fn f() { while (true) { x = true; } if (true) { return; } }] and
    the constructor [fn g() { }]. *)
Definition loop_then_branch : list declaration :=
  [decl_function
     (define "f" ∅
        (normal_block
           [while_loop (bool_literal true)
              (assignment (variable_ref x_i32) (bool_literal true));
            if_stat (bool_literal true) (ret None) None]));
   decl_function (define "g" {["constructor"]} (normal_block []))].

(** [fn f() { while (true) { if (true) { x = true; } } }] *)
Definition branch_in_loop : function_definition :=
  define "f" ∅
    (while_loop (bool_literal true)
       (if_stat (bool_literal true)
          (assignment (variable_ref x_i32) (bool_literal true)) None)).

(** ** Further vocabulary: collecting, declaring, literals *)

Definition as_function (node : declaration) : option function_definition :=
  match node with decl_function f => Some f | _ => None end.

Definition as_extern_function (node : declaration)
    : option extern_function_definition :=
  match node with decl_extern_function f => Some f | _ => None end.

Definition is_void (t : type) : bool :=
  match t with built_in void_ => true | _ => false end.

(** A parameter whose type has an IR type that may be passed: a
    recognised built-in type other than void. *)
Definition passable (param : parameter) : bool :=
  recognised (type_ (var param)) && negb (is_void (type_ (var param))).

(** The type of a constant. *)
Definition constant_type (value : Value) : option Type_ :=
  match value with
  | ConstantInt bits _ => Some (IntegerTy bits)
  | ConstantFP ty _ => Some ty
  | _ => None
  end.

(** The operators [visit(binary)] has a case for. *)
Definition supported (operation : lexeme_type) : bool :=
  match operation with other_lexeme _ => false | _ => true end.

(** [fn v(a: void)], which signature lowering refuses. *)
Definition sig_void_parameter : function_signature :=
  {| name := "v"; mangled_name := "v"; parameters := [int_parameter 5 void_];
     return_type := built_in i32; is_extern := false; attributes := ∅ |}.




(** The exception a computation ends with, if any. *)
Definition raised {A} (r : result A) : option exception :=
  match r with Ok _ => None | Throw e => Some e end.

(** Which exception a number literal that is not lowered ends with: the
    compiler exception "unknown number type" for a value that is neither
    an integer nor a floating-point number, whatever the type; else
    [std::bad_variant_access] for a class type; else the compiler
    exception "unknown integer type" for an integer and "unknown floating
    point type" for a floating-point number, at the start of the
    literal. *)
Definition number_literal_failure (rng : range) (value : number_value)
    (eval_type : type) : option exception :=
  match value, eval_type with
  | num_uint64 _,
    built_in (u8 | i8 | u16 | i16 | u32 | i32 | u64 | i64) => None
  | num_double _, built_in (f32 | f64) => None
  | num_other, _ =>
      Some (compiler_exception (start rng)
              "internal compiler error: unknown number type")
  | _, class_type _ => Some bad_variant_access
  | num_uint64 _, built_in _ =>
      Some (compiler_exception (start rng)
              "internal compiler error: unknown integer type")
  | num_double _, built_in _ =>
      Some (compiler_exception (start rng)
              "internal compiler error: unknown floating point type")
  end.

(** ** Invariants of the generator *)

(** A relation between generator states, seen from the visitor. *)
Definition lifted (R : relation code_generation)
    : relation code_gen_visitor :=
  λ v v', R (gen v) (gen v').

(** Entries of the function-type cache stay as they are. *)
Definition cache_kept (g g' : code_generation) : Prop :=
  function_type_map g ⊆ function_type_map g'.

(** Nothing is taken away: the functions of the module and the recorded
    constructors are only added to, at the end; a block keeps its place,
    its name and its function, and its instructions are only added to, at
    the end. *)
Record only_grown (g g' : code_generation) : Prop := {
  og_module : llvm_module g `prefix_of` llvm_module g';
  og_constructors :
    constructor_functions g `prefix_of` constructor_functions g';
  og_blocks :
    ∀ i b,
      basic_blocks g !! i = Some b →
      ∃ b',
        basic_blocks g' !! i = Some b'
        ∧ bb_name b' = bb_name b
        ∧ bb_parent b' = bb_parent b
        ∧ bb_insts b `prefix_of` bb_insts b'
}.

(** The names of the module's named functions, in module order; a
    function with the empty name is unnamed. *)
Definition named (m : list Function_) : list string :=
  filter (λ n, n ≠ "") (fn_name <$> m).

(** The named functions of the module have pairwise different names. *)
Definition names_distinct (g : code_generation) : Prop :=
  NoDup (named (llvm_module g)).

Definition names_stay_distinct (g g' : code_generation) : Prop :=
  names_distinct g → names_distinct g'.

(** [fn f(a: i32)] once more, under the module-level name of
    [sig_f_i32] but with another parameter type. *)
Definition sig_f_other : function_signature :=
  {| name := "f"; mangled_name := "f_i32";
     parameters := [int_parameter 6 f64]; return_type := built_in f64;
     is_extern := false; attributes := ∅ |}.

(** Two functions without a name, then [fn f() {}]. *)
Definition two_unnamed : list declaration :=
  [decl_function (define "" ∅ (normal_block []));
   decl_function (define "" ∅ (normal_block []));
   decl_function (define "f" ∅ (normal_block []))].

(** ** What a lowering touches *)

(** The block at [i], if there is one, got the instructions [new] at its
    end, and is otherwise as it was. *)
Definition appended_at (i : nat) (new : list instruction)
    (g g' : code_generation) : Prop :=
  ∀ b, basic_blocks g !! i = Some b →
       basic_blocks g' !! i
       = Some {| bb_name := bb_name b; bb_parent := bb_parent b;
                 bb_insts := bb_insts b ++ new |}.

(** Straight-line code: the builder stays where it is, no block is
    created, the variable slots are as before, and all that happens to the
    blocks is that instructions other than terminators are appended to the
    builder's block. *)
Record straight_line (v v' : code_gen_visitor) : Prop := {
  sl_builder : builder v' = builder v;
  sl_variables : variables v' = variables v;
  sl_length :
    length (basic_blocks (gen v')) = length (basic_blocks (gen v));
  sl_kept : kept_except (builder v) (gen v) (gen v');
  sl_appended :
    ∃ new, Forall quiet new ∧ appended_at (builder v) new (gen v) (gen v')
}.

(** [f(a + a, 1)] for a variable [a : i32]. *)
Definition call_with_sum : expression :=
  call at_start (symbol_wrapper at_start sig_f_i32)
    [binary at_start (variable_ref x_i32) symbol_add
       (variable_ref x_i32);
     number_literal at_start (num_uint64 1) (built_in i32)].

(** Of the blocks of [g], only the one at [t] may differ in [g'], and only
    by instructions appended to it; no block is lost. *)
Record touched (t : nat) (g g' : code_generation) : Prop := {
  t_length : (length (basic_blocks g) ≤ length (basic_blocks g'))%nat;
  t_kept : kept_except t g g';
  t_appended : ∃ new, appended_at t new g g'
}.

(** What lowering a statement may do: append to the block the builder is
    in, create blocks and fill them, and leave the builder where it was or
    in a block it created.  The variable slots are as before. *)
Record branches_out (v v' : code_gen_visitor) : Prop := {
  bo_touched : touched (builder v) (gen v) (gen v');
  bo_builder :
    builder v' = builder v
    ∨ (length (basic_blocks (gen v)) ≤ builder v')%nat;
  bo_variables : variables v' = variables v
}.

(** [while (true) { if (true) { return; } }] *)
Definition loop_with_branch : statement :=
  while_loop (bool_literal true)
    (normal_block [if_stat (bool_literal true) (ret None) None]).

(** ** Blocks and the functions they belong to *)

(** The function of every block, in store order. *)
Definition parents (g : code_generation) : list string :=
  bb_parent <$> basic_blocks g.

(** Blocks were added for function [p] only, and the builder is left in a
    block of [p]. *)
Record stays_in (p : string) (v v' : code_gen_visitor) : Prop := {
  si_blocks :
    ∃ new,
      parents (gen v') = (parents (gen v) ++ new)%list ∧ Forall (eq p) new;
  si_builder : parents (gen v') !! builder v' = Some p
}.

(** The run of blocks owned by the function [p]: an "entry" block first,
    and only blocks of [p]. *)
Definition blocks_of (p : string) (run : list BasicBlock) : Prop :=
  (∃ entry rest, run = entry :: rest ∧ bb_name entry = "entry")
  ∧ Forall (λ b, bb_parent b = p) run.

(** The blocks of a module body: one run per function definition, in
    declaration order. *)
Definition laid_out (funcs : list function_definition)
    (runs : list (list BasicBlock)) : Prop :=
  Forall2 (λ func run, blocks_of (module_name (fd_signature func)) run)
    funcs runs.

(** The constructors of a module body, in declaration order. *)
Definition constructors_of (mod_body : list declaration) : list Value :=
  (λ func, GlobalFunction (module_name (fd_signature func)))
    <$> filter (λ func, is_constructor func = true)
          (omap as_function mod_body).

(** [generate]'s own function for a module [m] of lowered functions, and
    its block for the constructors [cs], with [n] the number of the first
    instruction created for it. *)
Definition entry_function (m : list Function_) : Function_ :=
  {| fn_name := unique_name m "entry";
     fn_type := FunctionTy VoidTy [] false;
     fn_linkage := InternalLinkage |}.

Definition entry_block (m : list Function_) (n : nat) (cs : list Value)
    : BasicBlock :=
  {| bb_name := "entry"; bb_parent := unique_name m "entry";
     bb_insts :=
       constructor_calls n cs ++ [((n + length cs)%nat, RetVoid)] |}.

(** The extern definitions of the body carry the extern flag. *)
Definition externs_flagged (mod_body : list declaration) : Prop :=
  Forall (λ func, is_extern (efd_signature func) = true)
    (omap as_extern_function mod_body).

Definition external (f : Function_) : Prop :=
  fn_linkage f = ExternalLinkage.

(** [fn puts(a: i32) -> i32 { } extern fn puts(s: string) -> i32;], the
    definition standing first and its mangled name being the name of the
    extern. *)
Definition extern_and_definition : list declaration :=
  [decl_function
     {| fd_range := at_start;
        fd_signature :=
          {| name := "puts"; mangled_name := "puts";
             parameters := [int_parameter 1 i32];
             return_type := built_in i32;
             is_extern := false; attributes := ∅ |};
        fd_body := normal_block [] |};
   decl_extern_function
     {| efd_range := at_start; efd_signature := sig_puts |}].

(** ** The shape of a lowered loop and of a lowered conditional *)

(** The block [b] after a branch to [target] was requested at its end by
    a gate that looks for a terminator first. *)
Definition branch_unless_terminated (b : BasicBlock) (op : opcode)
    (b' : BasicBlock) : Prop :=
  match getTerminator b with
  | Some _ => b' = b
  | None => ∃ i, b' = push_inst (i, op) b
  end.


(** The block [b] with the instructions [code] after its own. *)
Definition with_code (b : BasicBlock) (code : list instruction)
    : BasicBlock :=
  {| bb_name := bb_name b; bb_parent := bb_parent b;
     bb_insts := bb_insts b ++ code |}.




(** ** Returns and assignments *)




(** [return a;] and [a = a;] for the variable [a : i32]. *)
Definition return_variable : statement := ret (Some (variable_ref x_i32)).


(** ** Failures *)

(** The loop over [l] from state [s] stops with [e] at its first element
    that fails, the elements before it having been visited. *)
Definition first_failure {S A} (f : A → M S unit) (l : list A) (s : S)
    (e : exception) : Prop :=
  ∃ done x rest s0,
    l = (done ++ x :: rest)%list
    ∧ forM_ f done s = Ok (tt, s0)
    ∧ f x s0 = Throw e.

(** ** Binary operations *)

(** The two operands of an arithmetic or comparison instruction. *)
Definition operands (op : opcode) : option (Value * Value) :=
  match op with
  | BinaryOperator _ lhs rhs _ | Cmp _ lhs rhs _ => Some (lhs, rhs)
  | _ => None
  end.









(** Every exception [m] can raise satisfies [P]. *)
Definition raises_only {S A} (P : exception → Prop) (m : M S A) : Prop :=
  ∀ s e, m s = Throw e → P e.

(** The messages of the compiler exceptions of the code generator, after
    "internal compiler error: ". *)
Definition compiler_errors : list string :=
  ["unknown type"; "invalid parameter type"; "expected function for call";
   "unknown integer type"; "unknown floating point type";
   "unknown number type"; "invalid binary operation"].

(** The exceptions of the code generator. *)
Definition catalogued (e : exception) : Prop :=
  e = runtime_error "TODO: class types are not supported"
  ∨ e = bad_variant_access
  ∨ ∃ pos what,
      e = compiler_exception pos ("internal compiler error: " +:+ what)
      ∧ what ∈ compiler_errors.

(** [fn f(a: c) { }] for a class type [c], and the module that holds
    it. *)
Definition sig_class_parameter : function_signature :=
  {| name := "f"; mangled_name := "f";
     parameters :=
       [{| var := {| var_id := 7; var_name := "a";
                     type_ := class_type "c" |} |}];
     return_type := built_in void_; is_extern := false; attributes := ∅ |}.

Definition class_parameter_module : list declaration :=
  [decl_function
     {| fd_range := at_start; fd_signature := sig_class_parameter;
        fd_body := normal_block [] |}].

(** ** Reasoning about computations *)

Lemma mbind_Ok {S A B} (m : M S A) (k : A → M S B) s b s'' :
  mbind m k s = Ok (b, s'') →
  ∃ a s', m s = Ok (a, s') ∧ k a s' = Ok (b, s'').
Proof.
  unfold mbind. destruct (m s) as [[a s']|e]; [eauto | discriminate].
Qed.

Lemma mbind_ext_Ok {S A B} (m : M S A) (k k' : A → M S B) s :
  (∀ a s', m s = Ok (a, s') → k a s' = k' a s') →
  mbind m k s = mbind m k' s.
Proof.
  intros H. unfold mbind. destruct (m s) as [[a s']|e]; auto.
Qed.

Section preservation.
Context {S : Type} (R : relation S) `{!PreOrder R}.

Lemma preserves_mret {A} (a : A) : preserves R (mret a).
Proof. intros s a' s' [= <- <-]. reflexivity. Qed.

Lemma preserves_throw {A} e : preserves R (@throw S A e).
Proof. intros s a s' [=]. Qed.

Lemma preserves_lift_result {A} (r : result A) : preserves R (lift_result r).
Proof. intros s a s'. destruct r; intros [=]; subst. reflexivity. Qed.

Lemma preserves_mbind {A B} (m : M S A) (k : A → M S B) :
  preserves R m → (∀ a, preserves R (k a)) → preserves R (mbind m k).
Proof.
  intros Hm Hk s b s'' H.
  apply mbind_Ok in H as (a & s' & H1 & H2).
  transitivity s'; [exact (Hm _ _ _ H1) | exact (Hk _ _ _ _ H2)].
Qed.

Lemma preserves_mapM {A B} (f : A → M S B) (l : list A) :
  Forall (λ a, preserves R (f a)) l → preserves R (mapM f l).
Proof.
  induction 1 as [|a l Ha _ IH]; simpl.
  - apply preserves_mret.
  - apply preserves_mbind; [exact Ha | intros b].
    apply preserves_mbind; [exact IH | intros bs]. apply preserves_mret.
Qed.

Lemma preserves_forM_ {A} (f : A → M S unit) (l : list A) :
  Forall (λ a, preserves R (f a)) l → preserves R (forM_ f l).
Proof.
  induction 1 as [|a l Ha _ IH]; simpl.
  - apply preserves_mret.
  - apply preserves_mbind; [exact Ha | intros _; exact IH].
Qed.

End preservation.

(** ** Frames of the lowering steps *)

#[local] Instance registry_frame_preorder : PreOrder registry_frame.
Proof.
  split.
  - intros g; split; reflexivity.
  - intros g1 g2 g3 [] []; split; try congruence. etrans; eauto.
Qed.

#[local] Instance expression_frame_preorder : PreOrder expression_frame.
Proof.
  split.
  - intros v; split; auto.
  - intros v1 v2 v3 [] []; split; try congruence; auto. etrans; eauto.
Qed.

#[local] Instance statement_frame_preorder : PreOrder statement_frame.
Proof.
  split.
  - intros v; split; auto.
  - intros v1 v2 v3 [] []; split; try congruence; try lia. etrans; eauto.
Qed.

Lemma expression_frame_statement_frame (v v' : code_gen_visitor) :
  expression_frame v v' → statement_frame v v'.
Proof. intros []; split; auto; lia. Qed.

Lemma get_llvm_function_type_frame pos signature :
  preserves registry_frame (get_llvm_function_type pos signature).
Proof.
  intros g ft g'. unfold get_llvm_function_type.
  destruct (function_type_map g !! mangled_name signature).
  - intros [= <- <-]; reflexivity.
  - destruct (get_llvm_type _ _) as [rt|]; [|discriminate].
    destruct (isValidReturnType rt); [|discriminate].
    destruct (lower_parameters _ _ _); [|discriminate].
    intros [= <- <-]; split; reflexivity.
Qed.

Lemma Function_Create_frame ty l n :
  preserves registry_frame (Function_Create ty l n).
Proof.
  intros g f g' [= <- <-]; split; try reflexivity.
  simpl. apply prefix_app_r. reflexivity.
Qed.

Lemma get_or_declare_function_frame pos signature :
  preserves registry_frame (get_or_declare_function pos signature).
Proof.
  intros g f g'. unfold get_or_declare_function.
  destruct (getFunction _ _).
  - intros [= <- <-]; reflexivity.
  - apply (preserves_mbind registry_frame);
      [apply get_llvm_function_type_frame
      | intros; apply Function_Create_frame].
Qed.

Lemma on_gen_Ok {A} (m : M code_generation A) v a v' :
  on_gen m v = Ok (a, v') →
  ∃ g', m (gen v) = Ok (a, g') ∧ v' = set_gen g' v.
Proof.
  unfold on_gen. destruct (m (gen v)) as [[a' g']|]; [|discriminate].
  intros [= <- <-]; eauto.
Qed.

Lemma on_gen_registry_frame {A} (m : M code_generation A) :
  preserves registry_frame m → preserves expression_frame (on_gen m).
Proof.
  intros Hm v a v' H. apply on_gen_Ok in H as (g' & H & ->).
  destruct (Hm _ _ _ H) as [? Hb ? ? ?]; split; simpl; auto.
  - congruence.
  - unfold inst_in; rewrite Hb; auto.
  - congruence.
Qed.

Lemma elem_of_alter_inv {A} (f : A → A) (k : nat) (l : list A) (x : A) :
  x ∈ alter f k l → x ∈ l ∨ ∃ y, y ∈ l ∧ x = f y.
Proof.
  intros (j & Hj)%list_elem_of_lookup.
  destruct (decide (k = j)) as [->|Hne].
  - rewrite list_lookup_alter_eq in Hj.
    destruct (l !! j) as [y|] eqn:Hy; [|discriminate].
    injection Hj as <-. right; exists y; split; [|reflexivity].
    eapply list_elem_of_lookup_2; eauto.
  - rewrite list_lookup_alter_ne in Hj by done.
    left; eapply list_elem_of_lookup_2; eauto.
Qed.

Lemma alter_push_inst_parents i bb (bs : list BasicBlock) :
  bb_parent <$> alter (push_inst i) bb bs = bb_parent <$> bs.
Proof.
  rewrite (list_fmap_alter bb_parent (push_inst i) id)
    by (apply Forall_forall; reflexivity).
  apply list_alter_id. reflexivity.
Qed.

(** An instruction found after an insertion is the inserted one or was
    there before. *)
Lemma inst_in_builder_insert bb op g value g' i :
  builder_insert bb op g = Ok (value, g') →
  inst_in g' i → i = (next_inst g, op) ∨ inst_in g i.
Proof.
  intros [= <- <-] (b & Hb & Hi); simpl in Hb.
  apply elem_of_alter_inv in Hb as [Hb | (b0 & Hb0 & ->)].
  - right; exists b; auto.
  - simpl in Hi. apply elem_of_app in Hi as [Hi | Hi%list_elem_of_singleton].
    + right; exists b0; auto.
    + left; exact Hi.
Qed.

Lemma Insert_Ok op v value v' :
  Insert op v = Ok (value, v') →
  value = Inst (next_inst (gen v)) op
  ∧ builder_insert (builder v) op (gen v) = Ok (value, gen v')
  ∧ v' = set_gen (gen v') v.
Proof. intros [= <- <-]; auto. Qed.

Lemma Insert_expression_frame op :
  is_load op = false → preserves expression_frame (Insert op).
Proof.
  intros Hop v value v' H.
  apply Insert_Ok in H as (_ & H & Hv').
  pose proof H as [= _ Hg].
  split; try (rewrite Hv'; reflexivity); try (rewrite <- Hg; reflexivity).
  - rewrite <- Hg; simpl. apply length_alter.
  - intros i Hi Hload.
    destruct (inst_in_builder_insert _ _ _ _ _ _ H Hi) as [-> | ?]; auto.
    simpl in Hload; congruence.
  - rewrite <- Hg; simpl. apply alter_push_inst_parents.
Qed.

Lemma Insert_statement_frame op : preserves statement_frame (Insert op).
Proof.
  intros v value v' [= <- <-]; split; simpl; auto.
  rewrite length_alter; lia.
Qed.

Lemma Insert_parents op v value v' :
  Insert op v = Ok (value, v') →
  bb_parent <$> basic_blocks (gen v') = bb_parent <$> basic_blocks (gen v).
Proof. intros [= <- <-]; simpl. apply alter_push_inst_parents. Qed.

Lemma visit_variable_ref_frame var :
  preserves expression_frame (visit_variable_ref var).
Proof.
  intros v value v'. unfold visit_variable_ref.
  destruct (variables v !! var_id var).
  - intros [= <- <-]; reflexivity.
  - apply (preserves_mbind expression_frame);
      [apply preserves_lift_result; apply _
      | intros ty; apply Insert_expression_frame; reflexivity].
Qed.

(** The operator switch of [visit(binary)]: no case for the operator, or
    one arithmetic or comparison request on the two operands, neither
    floating-point nor unsigned, which is folded when both operands are
    constants and inserted otherwise. *)
Lemma visit_binary_operation_cases rng operation lhs_value rhs_value :
  (supported operation = false
   ∧ visit_binary_operation rng operation lhs_value rhs_value
     = throw (compiler_exception (start rng)
                "internal compiler error: invalid binary operation"))
  ∨ (supported operation = true
     ∧ ∃ op,
         operands op = Some (lhs_value, rhs_value)
         ∧ isTerminator op = false
         ∧ is_load op = false
         ∧ (∀ i, floating_form (Inst i op) = false
                 ∧ unsigned_form (Inst i op) = false)
         ∧ visit_binary_operation rng operation lhs_value rhs_value
           = if isa_Constant lhs_value && isa_Constant rhs_value
             then mret (ConstantFolder op)
             else Insert op).
Proof.
  destruct operation; simpl;
    first
      [ left; split; reflexivity
      | right; split; [reflexivity|]; eexists;
        repeat split; reflexivity ].
Qed.

(** A relation that the insertion of an instruction keeps is kept by the
    operator switch. *)
Lemma preserves_visit_binary_operation (R : relation code_gen_visitor)
    `{!PreOrder R} rng operation lhs_value rhs_value :
  (∀ op, isTerminator op = false → is_load op = false →
         preserves R (Insert op)) →
  preserves R (visit_binary_operation rng operation lhs_value rhs_value).
Proof.
  intros Hinsert.
  destruct (visit_binary_operation_cases rng operation lhs_value rhs_value)
    as [(_ & ->) | (_ & op & _ & Hterm & Hload & _ & ->)].
  - apply preserves_throw.
  - destruct (_ && _); [apply preserves_mret; apply _ | auto].
Qed.


Lemma visit_binary_operation_frame rng operation lhs_value rhs_value :
  preserves expression_frame
    (visit_binary_operation rng operation lhs_value rhs_value).
Proof.
  apply preserves_visit_binary_operation; [apply _|].
  intros op _ Hload. apply Insert_expression_frame. exact Hload.
Qed.

(** Lowering an expression stays within [expression_frame]. *)
Lemma visit_expression_frame (node : expression) :
  preserves expression_frame (visit_expression node).
Proof.
  induction node as
    [rng signature | rng function arguments IHf IHargs | value | var
    | rng value eval_type | rng l operation r IHl IHr]
    using expression_nested_ind; simpl.
  - apply on_gen_registry_frame, get_or_declare_function_frame.
  - apply (preserves_mbind expression_frame); [exact IHf | intros value].
    destruct (isa_Function value); [|apply preserves_throw].
    apply (preserves_mbind expression_frame);
      [apply preserves_mapM; [apply _ | exact IHargs] | intros vals].
    apply Insert_expression_frame; reflexivity.
  - apply preserves_mret; apply _.
  - apply visit_variable_ref_frame.
  - apply preserves_lift_result; apply _.
  - apply (preserves_mbind expression_frame); [exact IHl | intros lhs].
    apply (preserves_mbind expression_frame); [exact IHr | intros rhs].
    apply visit_binary_operation_frame.
Qed.

Lemma statement_frame_mbind {A B} (m : M code_gen_visitor A)
    (k : A → M code_gen_visitor B) :
  preserves statement_frame m →
  (∀ a, preserves statement_frame (k a)) →
  preserves statement_frame (mbind m k).
Proof. apply preserves_mbind; apply _. Qed.

Lemma statement_frame_mret {A} (a : A) :
  preserves statement_frame (mret a).
Proof. apply preserves_mret; apply _. Qed.

Lemma GetInsertBlock_frame : preserves statement_frame GetInsertBlock.
Proof. intros v a v' [= <- <-]; reflexivity. Qed.

Lemma getParent_frame bb : preserves statement_frame (getParent bb).
Proof. intros v a v' [= <- <-]; reflexivity. Qed.

Lemma block_terminator_frame bb :
  preserves statement_frame (block_terminator bb).
Proof. intros v a v' [= <- <-]; reflexivity. Qed.

Lemma SetInsertPoint_frame bb : preserves statement_frame (SetInsertPoint bb).
Proof. intros v a v' [= <- <-]; split; auto. Qed.

Lemma BasicBlock_Create_frame n parent :
  preserves statement_frame (on_gen (BasicBlock_Create n parent)).
Proof.
  intros v a v' [= <- <-]; split; simpl; auto.
  rewrite length_app; lia.
Qed.

Lemma visit_expression_statement_frame node :
  preserves statement_frame (visit_expression node).
Proof.
  intros v a v' H.
  apply expression_frame_statement_frame, (visit_expression_frame _ _ _ _ H).
Qed.

Lemma when_no_terminator_frame bb k :
  preserves statement_frame k →
  preserves statement_frame (when_no_terminator bb k).
Proof.
  intros Hk. apply statement_frame_mbind;
    [apply block_terminator_frame | intros [i|]];
    [apply statement_frame_mret | exact Hk].
Qed.

Ltac statement_frame_steps :=
  repeat first
    [ assumption
    | apply statement_frame_mret
    | apply GetInsertBlock_frame
    | apply getParent_frame
    | apply SetInsertPoint_frame
    | apply BasicBlock_Create_frame
    | apply visit_expression_statement_frame
    | apply Insert_statement_frame
    | apply when_no_terminator_frame
    | apply statement_frame_mbind; [| intros ?]
    | match goal with
      | |- preserves _ (if ?c then _ else _) => destruct c
      | |- preserves _ (match ?o with Some _ => _ | None => _ end) =>
          destruct o
      end ].

(** Lowering a statement stays within [statement_frame]. *)
Lemma visit_statement_frame (node : statement) :
  preserves statement_frame (visit_statement node).
Proof.
  induction node as
    [condition body IH | to from | condition main_body else_body IH
    | e | value | body IH] using statement_nested_ind; simpl;
    try solve [statement_frame_steps].
  apply preserves_forM_; [apply _ | exact IH].
Qed.

(** ** The insert block always exists *)

Lemma BasicBlock_Create_Ok n parent v e v' :
  on_gen (BasicBlock_Create n parent) v = Ok (e, v') →
  e = length (basic_blocks (gen v))
  ∧ length (basic_blocks (gen v')) = S (length (basic_blocks (gen v)))
  ∧ builder v' = builder v.
Proof.
  intros [= <- <-]; simpl. rewrite length_app; simpl. repeat split; lia.
Qed.

Lemma SetInsertPoint_Ok bb v u v' :
  SetInsertPoint bb v = Ok (u, v') →
  builder v' = bb
  ∧ length (basic_blocks (gen v')) = length (basic_blocks (gen v)).
Proof. intros [= <- <-]; auto. Qed.

Lemma Insert_cursor op v value v' :
  Insert op v = Ok (value, v') →
  builder v' = builder v
  ∧ length (basic_blocks (gen v')) = length (basic_blocks (gen v)).
Proof. intros [= <- <-]; simpl. rewrite length_alter; auto. Qed.

Lemma visit_expression_cursor node v value v' :
  visit_expression node v = Ok (value, v') →
  builder v' = builder v
  ∧ length (basic_blocks (gen v')) = length (basic_blocks (gen v)).
Proof.
  intros H. destruct (visit_expression_frame _ _ _ _ H); auto.
Qed.

Ltac split_binds H :=
  repeat
    (cbv beta in H;
     first
       [ apply mbind_Ok in H;
         let a := fresh "a" in
         let s := fresh "s" in
         let Hstep := fresh "Hstep" in
         destruct H as (a & s & Hstep & H)
       | match type of H with
         | (if ?c then _ else _) _ = Ok _ => destruct c
         end ]).

(** Turn every recorded step into what it says about the insert block and
    the number of blocks. *)
Ltac cursor_facts :=
  repeat
    match goal with
    | H : on_gen (BasicBlock_Create _ _) _ = Ok _ |- _ =>
        apply BasicBlock_Create_Ok in H as (? & ? & ?)
    | H : SetInsertPoint _ _ = Ok _ |- _ =>
        apply SetInsertPoint_Ok in H as (? & ?)
    | H : visit_expression _ _ = Ok _ |- _ =>
        apply visit_expression_cursor in H as (? & ?)
    | H : Insert _ _ = Ok _ |- _ => apply Insert_cursor in H as (? & ?)
    | H : CreateLoad _ _ = Ok _ |- _ => apply Insert_cursor in H as (? & ?)
    | H : CreateStore _ _ _ = Ok _ |- _ => apply Insert_cursor in H as (? & ?)
    | H : CreateRet _ _ = Ok _ |- _ => apply Insert_cursor in H as (? & ?)
    | H : CreateRetVoid _ = Ok _ |- _ => apply Insert_cursor in H as (? & ?)
    | H : mret _ _ = Ok _ |- _ => injection H as ? ?
    | H : (if ?c then _ else _) _ = Ok _ |- _ => destruct c
    | H : ?m ?s = Ok (?a, ?s') |- _ =>
        let Hf := fresh "Hf" in
        assert (Hf : preserves statement_frame m)
          by (first [apply visit_statement_frame | statement_frame_steps]);
        apply Hf, sf_blocks in H
    end.

(** Lowering a statement leaves the builder in an existing block. *)
Lemma visit_statement_builder_valid (node : statement) :
  ∀ v u v',
    builder_valid v → visit_statement node v = Ok (u, v') → builder_valid v'.
Proof.
  unfold builder_valid.
  induction node as
    [condition body IH | to from | condition main_body else_body IH
    | e | value | body IH] using statement_nested_ind;
    intros v u v' Hv H; simpl in H.
  - split_binds H. cursor_facts. subst. lia.
  - split_binds H; cursor_facts; subst; lia.
  - split_binds H; cursor_facts; subst; lia.
  - split_binds H; cursor_facts; subst; lia.
  - destruct value; split_binds H; cursor_facts; subst; lia.
  - revert v Hv H. induction IH as [|s body Hs _ IHbody]; intros v Hv H.
    + injection H as <- <-. exact Hv.
    + simpl in H. split_binds H. destruct a.
      eapply IHbody; [|exact H]. eapply Hs; eauto.
Qed.

(** ** Blocks stay within declared functions *)

#[local] Instance same_parents_preorder : PreOrder same_parents.
Proof.
  split; [intros v; reflexivity|].
  intros v1 v2 v3 H1 H2. unfold same_parents in *. congruence.
Qed.

Lemma same_parents_mbind {A B} (m : M code_gen_visitor A)
    (k : A → M code_gen_visitor B) :
  preserves same_parents m →
  (∀ a, preserves same_parents (k a)) →
  preserves same_parents (mbind m k).
Proof. apply preserves_mbind; apply _. Qed.

Lemma same_parents_mret {A} (a : A) : preserves same_parents (mret a).
Proof. apply preserves_mret; apply _. Qed.

Lemma same_parents_unchanged {A} (m : M code_gen_visitor A) :
  (∀ v a v', m v = Ok (a, v') → gen v' = gen v) →
  preserves same_parents m.
Proof. intros Hm v a v' H. unfold same_parents. rewrite (Hm _ _ _ H). done. Qed.

Lemma same_parents_SetInsertPoint bb :
  preserves same_parents (SetInsertPoint bb).
Proof. apply same_parents_unchanged. intros v a v' [= <- <-]; reflexivity. Qed.

Lemma same_parents_block_terminator bb :
  preserves same_parents (block_terminator bb).
Proof. apply same_parents_unchanged. intros v a v' [= <- <-]; reflexivity. Qed.

Lemma same_parents_Insert op : preserves same_parents (Insert op).
Proof. intros v a v' H. exact (Insert_parents _ _ _ _ H). Qed.

Lemma same_parents_visit_expression node :
  preserves same_parents (visit_expression node).
Proof.
  intros v a v' H. exact (ef_parents _ _ (visit_expression_frame _ _ _ _ H)).
Qed.

Lemma same_parents_when_no_terminator bb k :
  preserves same_parents k →
  preserves same_parents (when_no_terminator bb k).
Proof.
  intros Hk. apply same_parents_mbind;
    [apply same_parents_block_terminator | intros [i|]];
    [apply same_parents_mret | exact Hk].
Qed.

Ltac same_parents_steps :=
  repeat first
    [ apply same_parents_mret
    | apply same_parents_SetInsertPoint
    | apply same_parents_visit_expression
    | apply same_parents_Insert
    | apply same_parents_when_no_terminator
    | apply same_parents_mbind; [| intros ?]
    | match goal with
      | |- preserves _ (if ?c then _ else _) => destruct c
      end ].

Lemma BasicBlock_Create_parents n parent v e v' :
  on_gen (BasicBlock_Create n parent) v = Ok (e, v') →
  e = length (basic_blocks (gen v))
  ∧ length (basic_blocks (gen v')) = S (length (basic_blocks (gen v)))
  ∧ bb_parent <$> basic_blocks (gen v')
    = ((bb_parent <$> basic_blocks (gen v)) ++ [parent])%list.
Proof.
  intros [= <- <-]; simpl. rewrite length_app, fmap_app; simpl.
  repeat split; lia.
Qed.

Lemma getParent_Ok bb v parent v' :
  getParent bb v = Ok (parent, v') →
  v' = v
  ∧ ((bb < length (basic_blocks (gen v)))%nat →
     parent ∈ bb_parent <$> basic_blocks (gen v)).
Proof.
  intros [= <- <-]. split; [reflexivity|]. intros Hbb.
  destruct (lookup_lt_is_Some_2 _ _ Hbb) as [b Hb]. rewrite Hb; simpl.
  apply list_elem_of_fmap. exists b. split; [reflexivity|].
  eapply list_elem_of_lookup_2; eauto.
Qed.

(** Account for every step of a lowering: where the builder is, how many
    blocks there are, and which functions they belong to.  The visits of
    nested statements are kept, marked [recorded]. *)
Ltac record_steps :=
  repeat
    match goal with
    | H : GetInsertBlock _ = Ok _ |- _ => injection H as <- <-
    | H : getParent _ _ = Ok _ |- _ => apply getParent_Ok in H as (-> & ?)
    | H : on_gen (BasicBlock_Create _ _) _ = Ok _ |- _ =>
        apply BasicBlock_Create_parents in H as (? & ? & ?)
    | H : SetInsertPoint ?bb ?s = Ok (?a, ?s') |- _ =>
        pose proof (same_parents_SetInsertPoint _ _ _ _ H);
        apply SetInsertPoint_Ok in H as (? & ?)
    | H : visit_expression ?e ?s = Ok (?a, ?s') |- _ =>
        pose proof (same_parents_visit_expression _ _ _ _ H);
        apply visit_expression_cursor in H as (? & ?)
    | H : visit_statement ?b ?s = Ok (?a, ?s') |- _ =>
        pose proof (sf_blocks _ _ (visit_statement_frame _ _ _ _ H));
        change (recorded (visit_statement b s = Ok (a, s'))) in H
    | H : ?m ?s = Ok (?a, ?s') |- _ =>
        let Hp := fresh "Hp" in
        let Hf := fresh "Hf" in
        assert (Hp : preserves same_parents m) by same_parents_steps;
        assert (Hf : preserves statement_frame m) by statement_frame_steps;
        pose proof (Hp _ _ _ H);
        apply Hf, sf_blocks in H;
        clear Hp Hf
    end;
  unfold same_parents in *.

(** Trace the parents of the blocks back through the recorded steps: a
    new block has the parent of an existing one, a nested statement is
    covered by the induction hypothesis [IH]. *)
Ltac trace_parents P IH :=
  repeat first
    [ assumption
    | match goal with
      | |- (_ < _)%nat => lia
      | |- P ?p =>
          match goal with
          | Hin : _ → p ∈ _ |- _ =>
              eapply Forall_forall; [|apply Hin; lia]
          end
      | |- Forall _ (_ ++ [_]) =>
          apply Forall_app; split; [|apply Forall_singleton]
      | Hr : recorded (visit_statement _ ?s = Ok (_, ?s'))
        |- Forall _ (bb_parent <$> basic_blocks (gen ?s')) =>
          eapply IH; [| |exact Hr]
      | Heq : bb_parent <$> basic_blocks (gen ?s') = _
        |- Forall _ (bb_parent <$> basic_blocks (gen ?s')) => rewrite Heq
      end ].

(** Lowering a statement adds blocks only to functions that already have
    one: a property of the parents of all blocks is kept. *)
Lemma visit_statement_parents (P : string → Prop) (node : statement) :
  ∀ v u v',
    builder_valid v →
    Forall P (bb_parent <$> basic_blocks (gen v)) →
    visit_statement node v = Ok (u, v') →
    Forall P (bb_parent <$> basic_blocks (gen v')).
Proof.
  unfold builder_valid.
  induction node as
    [condition body IH | to from | condition main_body else_body IH
    | e | value | body IH] using statement_nested_ind;
    intros v u v' Hv HP H; simpl in H.
  - split_binds H; record_steps; subst; trace_parents P IH.
  - split_binds H; record_steps; subst; congruence.
  - split_binds H; record_steps; subst; trace_parents P IH.
  - split_binds H; record_steps; subst; congruence.
  - destruct value; split_binds H; record_steps; subst; congruence.
  - revert v Hv HP H. induction IH as [|s body Hs _ IHbody];
      intros v Hv HP H.
    + injection H as <- <-. exact HP.
    + simpl in H. split_binds H. destruct a.
      eapply IHbody; [| |exact H].
      * eapply visit_statement_builder_valid; eauto.
      * eapply Hs; eauto.
Qed.

(** ** Type lowering: what is and is not lowered *)

(** A class type is refused with a [std::runtime_error], which has no
    position: the failure is not a [compiler_exception]. *)
Lemma class_type_not_compiler_exception :
  get_llvm_type (IntegerTy 64) (class_type "Point")
    = Throw (runtime_error "TODO: class types are not supported")
  ∧ ∀ pos what,
      get_llvm_type (IntegerTy 64) (class_type "Point")
        ≠ Throw (compiler_exception pos what).
Proof. split; [reflexivity | intros pos what; discriminate]. Qed.

(** C7 (as amended): type lowering of a class type fails with the runtime
    error "TODO: class types are not supported", which carries no
    position; of a built-in tag without a case it fails with a compiler
    exception at the fixed position (0, 0); and a type is produced exactly
    for the thirteen recognised built-in tags. *)
Theorem type_lowering_failures (size_type : Type_) :
  (∀ n, get_llvm_type size_type (class_type n)
          = Throw (runtime_error "TODO: class types are not supported"))
  ∧ (∀ tag, get_llvm_type size_type (built_in (unlisted tag))
              = Throw (compiler_exception {| line := 0; column := 0 |}
                         "internal compiler error: unknown type"))
  ∧ (∀ t, succeeded (get_llvm_type size_type t) = recognised t).
Proof.
  repeat split.
  intros [[]|]; reflexivity.
Qed.

(** [u8] and [i8] are different tags with the same IR type. *)
Lemma u8_i8_same_type :
  u8 ≠ i8
  ∧ get_llvm_type (IntegerTy 64) (built_in u8) = Ok (IntegerTy 8)
  ∧ get_llvm_type (IntegerTy 64) (built_in i8) = Ok (IntegerTy 8).
Proof. repeat split; discriminate. Qed.

(** C8 (as amended): two built-in tags are lowered to the same IR type
    exactly when they are equal or are the signed and the unsigned integer
    tag of one width; in particular a tag always yields the identical
    type. *)
Theorem type_lowering_distinct_up_to_sign (size_type : Type_)
    (a b : built_in_type) (t : Type_) :
  get_llvm_type size_type (built_in a) = Ok t →
  get_llvm_type size_type (built_in b) = Ok t ↔ b = a ∨ b = sign_twin a.
Proof.
  intros Ha; split.
  - intros Hb; rewrite <- Ha in Hb.
    destruct a; try discriminate Ha; clear Ha;
      destruct b; simpl in Hb; try discriminate Hb; auto.
  - intros [-> | ->]; [exact Ha |].
    rewrite <- Ha; destruct a; reflexivity.
Qed.

Lemma type_lowering_distinct_up_to_sign_witness :
  get_llvm_type (IntegerTy 64) (built_in i32) = Ok (IntegerTy 32) ↔
  i32 = u32 ∨ i32 = sign_twin u32.
Proof.
  exact (type_lowering_distinct_up_to_sign (IntegerTy 64) u32 i32
           (IntegerTy 32) eq_refl).
Defined.

(** ** Function signature lowering: the cache *)

(** Two signatures that differ in name, mangled name and parameter type
    are lowered to one and the same function type. *)
Lemma different_signatures_same_function_type :
  mangled_name sig_f_i32 ≠ mangled_name sig_g_u32
  ∧ produced
      ((let* tf := get_llvm_function_type here sig_f_i32 in
        let* tg := get_llvm_function_type here sig_g_u32 in
        mret (tf, tg)) (initial (IntegerTy 64)))
    = Some (FunctionTy VoidTy [IntegerTy 32] false,
            FunctionTy VoidTy [IntegerTy 32] false).
Proof. split; [discriminate | reflexivity]. Qed.

(** C4 (as amended): for signatures that are not extern, the function type
    is cached under the mangled name: after a call, every call for a
    signature with the same mangled name returns the identical type and
    leaves the cache as it is; and a type computed on a miss is built from
    the lowered return and parameter types alone, so that signatures whose
    types lower alike share one function type. *)
Theorem function_type_cached_by_mangled_name (pos : position)
    (s : function_signature) (g g' : code_generation) (ft : Type_) :
  is_extern s = false →
  get_llvm_function_type pos s g = Ok (ft, g') →
  function_type_map g' !! mangled_name s = Some ft
  ∧ (∀ pos' s',
       is_extern s' = false →
       mangled_name s' = mangled_name s →
       get_llvm_function_type pos' s' g' = Ok (ft, g'))
  ∧ (function_type_map g !! mangled_name s = None →
     ∃ rt pts,
       get_llvm_type (size_type g) (return_type s) = Ok rt
       ∧ lower_parameters (size_type g) pos (parameters s) = Ok pts
       ∧ ft = FunctionTy rt pts false).
Proof.
  intros _ H.
  assert (Hhit : function_type_map g' !! mangled_name s = Some ft).
  { unfold get_llvm_function_type in H.
    destruct (function_type_map g !! mangled_name s) as [it|] eqn:Hit.
    - injection H as <- <-. exact Hit.
    - destruct (get_llvm_type _ _) as [rt|]; [|discriminate].
      destruct (isValidReturnType rt); [|discriminate].
      destruct (lower_parameters _ _ _) as [pts|]; [|discriminate].
      injection H as <- <-. simpl. apply lookup_insert_eq. }
  split; [exact Hhit | split].
  - intros pos' s' _ Hname. unfold get_llvm_function_type.
    rewrite Hname, Hhit. reflexivity.
  - intros Hmiss. unfold get_llvm_function_type in H. rewrite Hmiss in H.
    destruct (get_llvm_type _ _) as [rt|]; [|discriminate].
    destruct (isValidReturnType rt); [|discriminate].
    destruct (lower_parameters _ _ _) as [pts|]; [|discriminate].
    injection H as <- <-. eauto.
Qed.

Lemma function_type_cached_by_mangled_name_witness :
  function_type_map
    (set_function_type_map
       {["f_i32" := FunctionTy VoidTy [IntegerTy 32] false]}
       (initial (IntegerTy 64))) !! mangled_name sig_f_i32
    = Some (FunctionTy VoidTy [IntegerTy 32] false).
Proof.
  exact (proj1 (function_type_cached_by_mangled_name here sig_f_i32
                  (initial (IntegerTy 64)) _ _ eq_refl eq_refl)).
Defined.

(** Extern signatures are registered in the module under their declared
    name but cached under their mangled name: with both mangled names
    empty, [halt] is declared with the function type of [puts]. *)
Remark extern_signatures_share_one_cache_entry :
  llvm_module <$> outcome (generate two_externs (initial (IntegerTy 64)))
  = Some
      [{| fn_name := "puts";
          fn_type :=
            FunctionTy (IntegerTy 32)
              [StructTy [IntegerTy 64; PointerTy (IntegerTy 8) 0] false]
              false;
          fn_linkage := ExternalLinkage |};
       {| fn_name := "halt";
          fn_type :=
            FunctionTy (IntegerTy 32)
              [StructTy [IntegerTy 64; PointerTy (IntegerTy 8) 0] false]
              false;
          fn_linkage := ExternalLinkage |};
       {| fn_name := "entry"; fn_type := FunctionTy VoidTy [] false;
          fn_linkage := InternalLinkage |}].
Proof. vm_compute; reflexivity. Qed.

(** ** Lowering of whole functions: scenarios *)

(** In [{ return; if (true) { } else { } }] the conditional branch of the
    if is inserted into the entry block although that block already ends
    in a return; without the else branch the insertion is gated and the
    block is left as it was. *)
Remark if_else_branches_out_of_terminated_block :
  lowered_blocks (define "f" ∅ return_then_if_else) ≫= head
    = Some {| bb_name := "entry"; bb_parent := "f";
              bb_insts :=
                [(0%nat, RetVoid);
                 (1%nat, CondBr (ConstantInt 1 1) 1 2)] |}
  ∧ (well_terminated
       <$> (lowered_blocks (define "f" ∅ return_then_if_else) ≫= head))
    = Some false
  ∧ lowered_blocks (define "f" ∅ return_then_if) ≫= head
    = Some {| bb_name := "entry"; bb_parent := "f";
              bb_insts := [(0%nat, RetVoid)] |}.
Proof. repeat split; vm_compute; reflexivity. Qed.

(** C2: for [if (true) { return; } else { x = true; }] the block
    "elsebody" receives the return of the main body; the assignment of the
    else branch is lowered nowhere. *)
Theorem else_block_holds_main_body :
  lowered_blocks (define "f" ∅ if_return_else_assign)
  = Some
      [{| bb_name := "entry"; bb_parent := "f";
          bb_insts := [(2%nat, CondBr (ConstantInt 1 1) 1 2)] |};
       {| bb_name := "mainbody"; bb_parent := "f";
          bb_insts := [(0%nat, RetVoid)] |};
       {| bb_name := "elsebody"; bb_parent := "f";
          bb_insts := [(1%nat, RetVoid)] |};
       {| bb_name := "end"; bb_parent := "f"; bb_insts := [] |}].
Proof. vm_compute; reflexivity. Qed.

(** The statements of an else branch play no part in the lowering. *)
Lemma else_body_never_visited (condition : expression)
    (main_body else_body else_body' : statement) :
  visit_statement (if_stat condition main_body (Some else_body))
  = visit_statement (if_stat condition main_body (Some else_body')).
Proof. reflexivity. Qed.

(** C3: for [{ x = 7; return x; }] each of the two references to [x]
    allocates a slot of its own: 7 is stored into slot 0 and the value
    returned is loaded from slot 2. *)
Theorem variable_slot_allocated_per_reference :
  lowered_blocks (define "f" ∅ assign_then_return)
  = Some
      [{| bb_name := "entry"; bb_parent := "f";
          bb_insts :=
            [(0%nat, Alloca (IntegerTy 32));
             (1%nat,
              Store (ConstantInt 32 7) (Inst 0 (Alloca (IntegerTy 32))));
             (2%nat, Alloca (IntegerTy 32));
             (3%nat, Load (Inst 2 (Alloca (IntegerTy 32))));
             (4%nat, Ret (Inst 3 (Load (Inst 2 (Alloca (IntegerTy 32))))))]
       |}].
Proof. vm_compute; reflexivity. Qed.

(** A reference to a variable never writes the storage map, and on a miss
    the slot is a new instruction. *)
Lemma visit_variable_ref_keeps_map (var : variable)
    (v v' : code_gen_visitor) (value : Value) :
  visit_variable_ref var v = Ok (value, v') →
  variables v' = variables v
  ∧ (variables v !! var_id var = None →
     ∃ ty, value = Inst (next_inst (gen v)) (Alloca ty)
           ∧ next_inst (gen v') = S (next_inst (gen v))).
Proof.
  unfold visit_variable_ref.
  destruct (variables v !! var_id var) as [it|] eqn:Hit.
  - intros [= <- <-]. split; [reflexivity | discriminate].
  - unfold mbind, lift_result.
    destruct (get_llvm_type _ _) as [ty|]; [|discriminate].
    intros [= <- <-]. split; [reflexivity | eauto].
Qed.

(** C5: for [h() + h()] with [h] returning f64 the instruction emitted is
    the integer [add], not [fadd]. *)
Theorem float_operands_get_integer_add :
  lowered_blocks (define "f" ∅ add_two_f64_calls)
  = Some
      [{| bb_name := "entry"; bb_parent := "f";
          bb_insts :=
            [(0%nat, Call (GlobalFunction "h") []);
             (1%nat, Call (GlobalFunction "h") []);
             (2%nat,
              BinaryOperator Add
                (Inst 0 (Call (GlobalFunction "h") []))
                (Inst 1 (Call (GlobalFunction "h") [])) "addtmp")] |}].
Proof. vm_compute; reflexivity. Qed.

(** Whatever the operands, the operator switch produces neither a
    floating-point nor an unsigned instruction. *)
Lemma binary_operation_always_signed_integer (rng : range)
    (operation : lexeme_type) (lhs_value rhs_value value : Value)
    (v v' : code_gen_visitor) :
  visit_binary_operation rng operation lhs_value rhs_value v
    = Ok (value, v') →
  floating_form value = false ∧ unsigned_form value = false.
Proof.
  destruct (visit_binary_operation_cases rng operation lhs_value rhs_value)
    as [(_ & ->) | (_ & op & _ & _ & _ & Hform & ->)]; [discriminate|].
  destruct (_ && _).
  - intros [= <- <-]. unfold ConstantFolder.
    repeat
      match goal with
      | |- context [match ?x with _ => _ end] => destruct x
      end;
      split; reflexivity.
  - intros [= <- <-]. apply Hform.
Qed.

(** ** Functions and constructors *)

Lemma getFunction_empty m : getFunction m "" = None.
Proof. reflexivity. Qed.

Lemma getFunction_Some_named m n f : getFunction m n = Some f → n ≠ "".
Proof. intros H ->. discriminate H. Qed.

Lemma getFunction_Some_name m n f : getFunction m n = Some f → fn_name f = n.
Proof.
  unfold getFunction. destruct (bool_decide (n = "")); [discriminate|].
  intros (_ & H)%List.find_some.
  apply bool_decide_eq_true in H. exact H.
Qed.

Lemma getFunction_Some_elem m n f : getFunction m n = Some f → f ∈ m.
Proof.
  unfold getFunction. destruct (bool_decide (n = "")); [discriminate|].
  induction m as [|f0 m IH]; simpl; [discriminate|].
  destruct (bool_decide (fn_name f0 = n)).
  - intros [= <-]. apply list_elem_of_here.
  - intros H. apply list_elem_of_further. auto.
Qed.

(** A name other than the empty one is found exactly when a function of
    the module has it. *)
Lemma getFunction_None m n :
  n ≠ "" → getFunction m n = None ↔ n ∉ fn_name <$> m.
Proof.
  intros Hn. unfold getFunction.
  rewrite bool_decide_eq_false_2 by exact Hn.
  induction m as [|f m IH]; simpl.
  - split; [intros _ []%elem_of_nil | reflexivity].
  - rewrite not_elem_of_cons. destruct (bool_decide_reflect (fn_name f = n)).
    + split; [discriminate | intros [Hne _]; congruence].
    + rewrite IH. split; [intros ?; split; auto | intros [_ ?]; auto].
Qed.

Lemma unique_name_free m n : getFunction m n = None → unique_name m n = n.
Proof. unfold unique_name. intros ->. reflexivity. Qed.

Lemma get_llvm_function_type_module pos signature g ft g' :
  get_llvm_function_type pos signature g = Ok (ft, g') →
  llvm_module g' = llvm_module g.
Proof.
  unfold get_llvm_function_type.
  destruct (function_type_map g !! mangled_name signature).
  - intros [= <- <-]; reflexivity.
  - destruct (get_llvm_type _ _) as [rt|]; [|discriminate].
    destruct (isValidReturnType rt); [|discriminate].
    destruct (lower_parameters _ _ _); [|discriminate].
    intros [= <- <-]; reflexivity.
Qed.

(** The function produced for a signature is the one the module knows
    under the signature's module-level name. *)
Lemma get_or_declare_function_value pos signature g f g' :
  get_or_declare_function pos signature g = Ok (f, g') →
  f = GlobalFunction (module_name signature).
Proof.
  unfold get_or_declare_function. fold (module_name signature).
  destruct (getFunction _ _) as [func|] eqn:Hfind.
  - intros [= <- <-]. f_equal. eapply getFunction_Some_name; eauto.
  - intros H. apply mbind_Ok in H as (ft & g1 & H1 & [= <- <-]).
    rewrite (get_llvm_function_type_module _ _ _ _ _ H1).
    rewrite unique_name_free by exact Hfind. reflexivity.
Qed.

(** After the body is lowered: which function it was lowered into, and
    what the visitor then looks like. *)
Lemma lower_body_Ok func g llvm_func code_gen :
  lower_body func g = Ok (llvm_func, code_gen) →
  llvm_func = GlobalFunction (module_name (fd_signature func))
  ∧ constructor_functions (gen code_gen) = constructor_functions g
  ∧ variables code_gen = ∅
  ∧ builder_valid code_gen.
Proof.
  unfold lower_body.
  destruct (get_or_declare_function _ _ g) as [[f g1]|] eqn:H1;
    [|discriminate].
  simpl.
  match goal with
  | |- context [visit_statement ?b ?v0] =>
      destruct (visit_statement b v0) as [[[] v1]|] eqn:H2; [|discriminate]
  end.
  intros [= <- <-].
  pose proof (get_or_declare_function_value _ _ _ _ _ H1) as ->.
  pose proof (rf_constructors _ _ (get_or_declare_function_frame _ _ _ _ _ H1))
    as Hc.
  pose proof (sf_variables _ _ (visit_statement_frame _ _ _ _ H2)) as Hv.
  pose proof (sf_constructors _ _ (visit_statement_frame _ _ _ _ H2)) as Hc'.
  simpl in Hv, Hc'. repeat split; try congruence.
  eapply visit_statement_builder_valid; [|exact H2].
  unfold builder_valid; simpl. rewrite length_app; simpl; lia.
Qed.

(** C9: once the body is lowered, a function tagged "constructor" gets a
    void return appended to the block the builder is in, whatever that
    block already holds, and is appended to the constructor list; a
    function without the tag gets neither, and lowering a body never
    touches the constructor list. *)
Theorem constructor_return_appended_unconditionally
    (func : function_definition) (g : code_generation)
    (llvm_func : Value) (code_gen : code_gen_visitor) :
  lower_body func g = Ok (llvm_func, code_gen) →
  constructor_functions (gen code_gen) = constructor_functions g
  ∧ ∃ block,
      basic_blocks (gen code_gen) !! builder code_gen = Some block
      ∧ if is_constructor func then
          ∃ g',
            compile_function func g = Ok (tt, g')
            ∧ basic_blocks g'
              = <[builder code_gen :=
                    push_inst (next_inst (gen code_gen), RetVoid) block]>
                  (basic_blocks (gen code_gen))
            ∧ constructor_functions g'
              = (constructor_functions g ++ [llvm_func])%list
        else compile_function func g = Ok (tt, gen code_gen).
Proof.
  intros H. destruct (lower_body_Ok _ _ _ _ H) as (_ & Hc & _ & Hvalid).
  split; [exact Hc|].
  destruct (lookup_lt_is_Some_2 _ _ Hvalid) as [block Hblock].
  exists block; split; [exact Hblock|].
  unfold compile_function, is_constructor. rewrite H.
  destruct (bool_decide _); [|reflexivity].
  eexists; split; [reflexivity|]. simpl. split.
  - apply list_eq; intros j. destruct (decide (builder code_gen = j)) as [<-|].
    + rewrite list_lookup_alter_eq, list_lookup_insert_eq by exact Hvalid.
      rewrite Hblock; reflexivity.
    + rewrite list_lookup_alter_ne, list_lookup_insert_ne by done.
      reflexivity.
  - rewrite Hc; reflexivity.
Qed.

Lemma constructor_return_appended_unconditionally_witness :
  ∃ code_gen,
    lower_body returning_constructor (initial (IntegerTy 64))
      = Ok (GlobalFunction "f", code_gen)
    ∧ basic_blocks (gen code_gen) !! builder code_gen
      = Some {| bb_name := "entry"; bb_parent := "f";
                bb_insts := [(0%nat, RetVoid)] |}
    ∧ lowered_blocks returning_constructor
      = Some [{| bb_name := "entry"; bb_parent := "f";
                 bb_insts := [(0%nat, RetVoid); (1%nat, RetVoid)] |}].
Proof.
  eexists. split; [reflexivity|].
  destruct (constructor_return_appended_unconditionally
              returning_constructor (initial (IntegerTy 64)) _ _ eq_refl)
    as (_ & block & Hblock & g' & Hrun & Hblocks & _).
  split; [reflexivity|].
  unfold lowered_blocks. rewrite Hrun. simpl. rewrite Hblocks.
  injection Hblock as <-. reflexivity.
Defined.

Lemma getFunction_prefix m m' n :
  m `prefix_of` m' → declared_in m n → declared_in m' n.
Proof.
  intros [k ->] Hn. unfold declared_in. rewrite fmap_app.
  apply elem_of_app. left. exact Hn.
Qed.

Lemma getFunction_app_None m k n :
  getFunction m n = None → getFunction (m ++ k) n = getFunction k n.
Proof.
  unfold getFunction. destruct (bool_decide (n = "")); [reflexivity|].
  induction m as [|f0 m IH]; simpl; [reflexivity|].
  destruct (bool_decide (fn_name f0 = n)); [discriminate | exact IH].
Qed.

Lemma getFunction_app_Some m k n f :
  getFunction m n = Some f → getFunction (m ++ k) n = Some f.
Proof.
  unfold getFunction. destruct (bool_decide (n = "")); [discriminate|].
  induction m as [|f0 m IH]; simpl; [discriminate|].
  destruct (bool_decide (fn_name f0 = n)); auto.
Qed.

Lemma get_or_declare_function_declares pos signature g f g' :
  get_or_declare_function pos signature g = Ok (f, g') →
  declared_in (llvm_module g') (module_name signature).
Proof.
  unfold get_or_declare_function, declared_in. fold (module_name signature).
  destruct (getFunction _ _) as [func|] eqn:Hfind.
  - intros [= <- <-]. apply list_elem_of_fmap. exists func.
    split; [symmetry; eapply getFunction_Some_name; eauto|].
    eapply getFunction_Some_elem; eauto.
  - intros H. apply mbind_Ok in H as (ft & g1 & H1 & [= <- <-]). simpl.
    rewrite (get_llvm_function_type_module _ _ _ _ _ H1).
    rewrite unique_name_free by exact Hfind.
    rewrite fmap_app. apply elem_of_app. right. simpl.
    apply list_elem_of_here.
Qed.

(** Lowering a function leaves every block in a declared function. *)
Lemma compile_function_declared func g u g' :
  compile_function func g = Ok (u, g') →
  Forall (declared_in (llvm_module g)) (bb_parent <$> basic_blocks g) →
  llvm_module g `prefix_of` llvm_module g'
  ∧ Forall (declared_in (llvm_module g')) (bb_parent <$> basic_blocks g').
Proof.
  intros H Hdecl.
  assert (Hbody : ∀ llvm_func code_gen,
            lower_body func g = Ok (llvm_func, code_gen) →
            llvm_module g `prefix_of` llvm_module (gen code_gen)
            ∧ Forall (declared_in (llvm_module (gen code_gen)))
                (bb_parent <$> basic_blocks (gen code_gen))).
  { intros llvm_func code_gen Hb. unfold lower_body in Hb.
    destruct (get_or_declare_function _ _ g) as [[f g1]|] eqn:H1;
      [|discriminate].
    simpl in Hb.
    match type of Hb with
    | context [visit_statement ?b ?v0] =>
        destruct (visit_statement b v0) as [[[] v1]|] eqn:H2; [|discriminate]
    end.
    injection Hb as <- <-.
    pose proof (get_or_declare_function_value _ _ _ _ _ H1) as ->.
    pose proof (get_or_declare_function_declares _ _ _ _ _ H1) as Hname.
    destruct (get_or_declare_function_frame _ _ _ _ _ H1)
      as [_ Hblocks _ _ Hgrow1].
    pose proof (sf_module _ _ (visit_statement_frame _ _ _ _ H2)) as Hgrow2.
    simpl in Hgrow2. split; [etrans; eauto|].
    eapply visit_statement_parents; [| |exact H2].
    - unfold builder_valid; simpl. rewrite length_app; simpl; lia.
    - simpl. rewrite fmap_app, Hblocks. apply Forall_app; split.
      + eapply Forall_impl; [exact Hdecl|]. intros p Hp.
        eapply getFunction_prefix; [|exact Hp]. etrans; eauto.
      + apply Forall_singleton. simpl.
        eapply getFunction_prefix; eauto. }
  unfold compile_function in H.
  destruct (lower_body func g) as [[llvm_func code_gen]|] eqn:Hb;
    [|discriminate].
  destruct (Hbody _ _ eq_refl) as (Hgrow & Hall).
  destruct (bool_decide _).
  - injection H as _ <-. simpl. rewrite alter_push_inst_parents. auto.
  - injection H as _ <-. auto.
Qed.

Lemma compile_functions_declared funcs :
  ∀ g u g',
    forM_ compile_function funcs g = Ok (u, g') →
    Forall (declared_in (llvm_module g)) (bb_parent <$> basic_blocks g) →
    Forall (declared_in (llvm_module g')) (bb_parent <$> basic_blocks g').
Proof.
  induction funcs as [|func funcs IH]; intros g u g' H Hdecl; simpl in H.
  - injection H as _ <-. exact Hdecl.
  - apply mbind_Ok in H as ([] & g1 & H1 & H2).
    eapply IH; [exact H2|].
    exact (proj2 (compile_function_declared _ _ _ _ H1 Hdecl)).
Qed.

Lemma compile_function_constructors func g u g' :
  compile_function func g = Ok (u, g') →
  constructor_functions g'
  = (constructor_functions g
     ++ if is_constructor func
        then [GlobalFunction (module_name (fd_signature func))]
        else [])%list.
Proof.
  unfold compile_function, is_constructor.
  destruct (lower_body func g) as [[llvm_func code_gen]|] eqn:H;
    [|discriminate].
  destruct (lower_body_Ok _ _ _ _ H) as (-> & Hc & _ & _).
  destruct (bool_decide _).
  - intros [= <- <-]. simpl. rewrite Hc. reflexivity.
  - intros [= <- <-]. rewrite Hc, app_nil_r. reflexivity.
Qed.

Lemma compile_functions_constructors funcs :
  ∀ g u g',
    forM_ compile_function funcs g = Ok (u, g') →
    constructor_functions g'
    = (constructor_functions g
       ++ ((λ func, GlobalFunction (module_name (fd_signature func)))
             <$> filter (λ func, is_constructor func = true) funcs))%list.
Proof.
  induction funcs as [|func funcs IH]; intros g u g' H; simpl in H.
  - injection H as <- <-. rewrite app_nil_r. reflexivity.
  - apply mbind_Ok in H as ([] & g1 & H1 & H2).
    rewrite (IH _ _ _ H2), (compile_function_constructors _ _ _ _ H1).
    rewrite filter_cons. destruct (is_constructor func).
    + rewrite decide_True by reflexivity. rewrite <- app_assoc. reflexivity.
    + rewrite decide_False by discriminate. rewrite app_nil_r. reflexivity.
Qed.

Lemma compile_extern_functions_frame funcs :
  preserves registry_frame (forM_ compile_extern_function funcs).
Proof.
  apply preserves_forM_; [apply _|]. apply Forall_forall; intros func _.
  apply (preserves_mbind registry_frame);
    [apply get_or_declare_function_frame | intros; apply preserves_mret].
  apply _.
Qed.

Lemma constructor_calls_cons n c cs :
  constructor_calls n (c :: cs)
  = (n, Call c []) :: constructor_calls (S n) cs.
Proof.
  unfold constructor_calls. rewrite imap_cons. f_equal.
  - f_equal. lia.
  - apply imap_ext. intros k c' _. simpl. f_equal. lia.
Qed.

(** The loop over the constructors fills the last block of the store with
    one call per constructor, in order. *)
Lemma call_constructors_last cs :
  ∀ bs b g u g',
    basic_blocks g = (bs ++ [b])%list →
    forM_ (λ constructor_func,
             builder_insert (length bs) (Call constructor_func []) >>
             mret tt) cs g = Ok (u, g') →
    basic_blocks g'
    = (bs ++ [{| bb_name := bb_name b; bb_parent := bb_parent b;
                 bb_insts := bb_insts b
                             ++ constructor_calls (next_inst g) cs |}])%list
    ∧ next_inst g' = (next_inst g + length cs)%nat
    ∧ llvm_module g' = llvm_module g.
Proof.
  induction cs as [|c cs IH]; intros bs b g u g' Hbs H; simpl in H.
  - injection H as <- <-. rewrite Hbs. unfold constructor_calls; simpl.
    rewrite app_nil_r. destruct b; repeat split; simpl; auto; lia.
  - apply mbind_Ok in H as ([] & g1 & H1 & H2).
    apply mbind_Ok in H1 as (value & g0 & H0 & [= <-]).
    injection H0 as _ <-.
    apply (IH bs (push_inst (next_inst g, Call c []) b))
      in H2 as (Hblocks & Hnext & Hmodule).
    + rewrite Hblocks, Hnext, Hmodule. simpl.
      rewrite constructor_calls_cons, <- app_assoc. simpl.
      repeat split; auto; lia.
    + simpl. rewrite Hbs.
      replace (length bs) with (length bs + 0)%nat at 1 by lia.
      rewrite alter_app_r. reflexivity.
Qed.

(** What [generate] adds at the end: the entry function, last in the
    module, and its single "entry" block, last in the store, holding one
    call per recorded constructor and a void return.  All other blocks
    belong to functions declared before. *)
Lemma generate_entry_function mod_body g u g' :
  constructor_functions g = [] →
  basic_blocks g = [] →
  generate mod_body g = Ok (u, g') →
  ∃ m bs n,
    let cs := recorded_constructors mod_body in
    llvm_module g'
    = (m ++ [{| fn_name := unique_name m "entry";
                fn_type := FunctionTy VoidTy [] false;
                fn_linkage := InternalLinkage |}])%list
    ∧ basic_blocks g'
      = (bs ++ [{| bb_name := "entry";
                   bb_parent := unique_name m "entry";
                   bb_insts :=
                     constructor_calls n cs
                     ++ [((n + length cs)%nat, RetVoid)] |}])%list
    ∧ Forall (declared_in m) (bb_parent <$> bs).
Proof.
  intros Hnone Hempty H. unfold generate in H.
  apply mbind_Ok in H as ([] & g1 & H1 & H).
  apply mbind_Ok in H as ([] & g2 & H2 & H).
  apply mbind_Ok in H as (entry_function & g3 & [= <- <-] & H).
  apply mbind_Ok in H as (entry_basic_block & g4 & [= <- <-] & H).
  apply mbind_Ok in H as ([] & g5 & H5 & H).
  apply mbind_Ok in H as (value & g6 & [= _ <-] & [= _ <-]).
  apply compile_extern_functions_frame in H1 as [_ Hb1 Hc1 _ _].
  pose proof (compile_functions_declared _ _ _ _ H2) as Hdecl.
  rewrite Hb1, Hempty in Hdecl. specialize (Hdecl (Forall_nil_2 _)).
  apply compile_functions_constructors in H2.
  rewrite Hc1, Hnone in H2. simpl in H2.
  unfold call_constructors in H5. simpl in H5. rewrite H2 in H5.
  eapply call_constructors_last in H5 as (Hblocks & Hnext & Hmodule);
    [|reflexivity].
  exists (llvm_module g2), (basic_blocks g2), (next_inst g2).
  simpl. split; [exact Hmodule|]. split; [|exact Hdecl].
  rewrite Hblocks, Hnext. simpl.
  replace (length (basic_blocks g2)) with (length (basic_blocks g2) + 0)%nat
    by lia.
  rewrite alter_app_r. simpl. unfold recorded_constructors. reflexivity.
Qed.

(** A function the module does not know has no blocks. *)
Lemma no_blocks_of_undeclared m n (bs : list BasicBlock) :
  n ≠ "" →
  getFunction m n = None →
  Forall (declared_in m) (bb_parent <$> bs) →
  filter (λ b, bb_parent b = n) bs = [].
Proof.
  intros Hn Hfree. apply getFunction_None in Hfree; [|exact Hn].
  induction bs as [|b bs IH]; [reflexivity|].
  rewrite fmap_cons. intros [Hb Hdecl]%Forall_cons.
  rewrite filter_cons_False; [exact (IH Hdecl)|].
  intros Heq. rewrite Heq in Hb. contradiction.
Qed.

(** C6: for three functions [f1], [f2], [f3] declared in that order and
    all tagged "constructor", [generate] adds one function with internal
    linkage, no parameters and void return, whose "entry" block holds
    exactly a call of [f1], of [f2] and of [f3], in that order and without
    arguments, followed by a void return; when the name is free in the
    module the function is named "entry" and that block is its only
    one. *)
Theorem entry_calls_constructors_in_order
    (f1 f2 f3 : function_definition) (g g' : code_generation) :
  is_constructor f1 = true →
  is_constructor f2 = true →
  is_constructor f3 = true →
  constructor_functions g = [] →
  basic_blocks g = [] →
  generate [decl_function f1; decl_function f2; decl_function f3] g
    = Ok (tt, g') →
  ∃ m bs n entry_name entry_block,
    entry_block
    = {| bb_name := "entry"; bb_parent := entry_name;
         bb_insts :=
           [(n, Call (GlobalFunction (module_name (fd_signature f1))) []);
            (S n, Call (GlobalFunction (module_name (fd_signature f2))) []);
            (S (S n),
             Call (GlobalFunction (module_name (fd_signature f3))) []);
            (S (S (S n)), RetVoid)] |}
    ∧ llvm_module g'
      = (m ++ [{| fn_name := entry_name;
                  fn_type := FunctionTy VoidTy [] false;
                  fn_linkage := InternalLinkage |}])%list
    ∧ basic_blocks g' = (bs ++ [entry_block])%list
    ∧ (getFunction m "entry" = None →
       entry_name = "entry" ∧ function_blocks g' "entry" = [entry_block]).
Proof.
  intros Hf1 Hf2 Hf3 Hnone Hempty H.
  destruct (generate_entry_function _ _ _ _ Hnone Hempty H)
    as (m & bs & n & Hmodule & Hblocks & Hdecl).
  eexists m, bs, n, (unique_name m "entry"), _.
  split; [reflexivity|]. split; [exact Hmodule|].
  assert (Hentry : basic_blocks g' = (bs ++ [
            {| bb_name := "entry"; bb_parent := unique_name m "entry";
               bb_insts :=
                 [(n, Call (GlobalFunction (module_name (fd_signature f1)))
                        []);
                  (S n, Call (GlobalFunction (module_name (fd_signature f2)))
                          []);
                  (S (S n),
                   Call (GlobalFunction (module_name (fd_signature f3))) []);
                  (S (S (S n)), RetVoid)] |}])%list).
  { rewrite Hblocks. unfold recorded_constructors, collect; simpl.
    rewrite !filter_cons, Hf1, Hf2, Hf3; simpl.
    repeat (f_equal; try lia). }
  split; [exact Hentry|].
  intros Hfree. rewrite (unique_name_free _ _ Hfree) in *.
  split; [reflexivity|].
  unfold function_blocks. rewrite Hentry, filter_app.
  rewrite filter_cons_True by reflexivity. rewrite filter_nil.
  rewrite (no_blocks_of_undeclared _ "entry" _ ltac:(discriminate) Hfree Hdecl).
  reflexivity.
Qed.

Lemma entry_calls_constructors_in_order_witness :
  match generate three_constructors (initial (IntegerTy 64)) with
  | Ok (_, g') =>
      ∃ m bs n entry_name entry_block,
        entry_block
        = {| bb_name := "entry"; bb_parent := entry_name;
             bb_insts :=
               [(n, Call (GlobalFunction "f1") []);
                (S n, Call (GlobalFunction "f2") []);
                (S (S n), Call (GlobalFunction "f3") []);
                (S (S (S n)), RetVoid)] |}
        ∧ llvm_module g'
          = (m ++ [{| fn_name := entry_name;
                      fn_type := FunctionTy VoidTy [] false;
                      fn_linkage := InternalLinkage |}])%list
        ∧ basic_blocks g' = (bs ++ [entry_block])%list
        ∧ (getFunction m "entry" = None →
           entry_name = "entry"
           ∧ function_blocks g' "entry" = [entry_block])
  | Throw _ => False
  end.
Proof.
  destruct (generate three_constructors (initial (IntegerTy 64)))
    as [[[] g']|e] eqn:H.
  - apply (entry_calls_constructors_in_order
             (define "f1" {["constructor"]} (normal_block []))
             (define "f2" {["constructor"]} (normal_block []))
             (define "f3" {["constructor"]} (normal_block []))
             (initial (IntegerTy 64)) g');
      [vm_compute; reflexivity .. | exact H].
  - vm_compute in H. discriminate H.
Defined.

(** ** Calls, returns and assignments *)

Lemma visit_variable_ref_slot var v slot v' :
  variables v !! var_id var = None →
  visit_variable_ref var v = Ok (slot, v') →
  isa_AllocaInst slot = true.
Proof.
  intros Hmiss H.
  destruct (visit_variable_ref_keeps_map _ _ _ _ H) as (_ & Hslot).
  destruct (Hslot Hmiss) as (ty & -> & _). reflexivity.
Qed.

(** Arguments that are references to variables without a recorded slot
    are all lowered to slots. *)
Lemma variable_arguments_are_slots vars :
  ∀ v args v',
    Forall (λ var, variables v !! var_id var = None) vars →
    mapM visit_expression (variable_ref <$> vars) v = Ok (args, v') →
    Forall (λ arg, isa_AllocaInst arg = true) args
    ∧ length args = length vars.
Proof.
  induction vars as [|var vars IH]; intros v args v' Hmiss H; simpl in H.
  - injection H as <- <-. split; [constructor | reflexivity].
  - apply mbind_Ok in H as (slot & v1 & H1 & H).
    apply mbind_Ok in H as (slots & v2 & H2 & [= <- <-]).
    apply Forall_cons in Hmiss as (Hvar & Hvars).
    pose proof (ef_variables _ _ (visit_variable_ref_frame _ _ _ _ H1)) as Hv.
    rewrite <- Hv in Hvars. apply IH in H2 as (Hslots & Hlen); [|exact Hvars].
    split; [constructor; [eapply visit_variable_ref_slot; eauto | exact Hslots]
           | simpl; congruence].
Qed.

(** ** Terminators *)

Lemma open_tidy b : open b → tidy b.
Proof. intros H; left; exact H. Qed.

Lemma closed_tidy b : closed b → tidy b.
Proof. intros H; right; exact H. Qed.

Lemma open_push_quiet i b : open b → quiet i → open (push_inst i b).
Proof.
  unfold open; simpl. intros Hb Hi. apply Forall_app; split; [exact Hb|].
  apply Forall_singleton; exact Hi.
Qed.

Lemma open_push_terminator i b :
  open b → isTerminator i.2 = true → closed (push_inst i b).
Proof. intros Hb Hi. exists (bb_insts b), i. auto. Qed.

Lemma open_push_tidy i b : open b → tidy (push_inst i b).
Proof.
  intros Hb. destruct (isTerminator i.2) eqn:Hi.
  - right. apply open_push_terminator; auto.
  - left. apply open_push_quiet; auto.
Qed.

Lemma closed_getTerminator b : closed b → is_Some (getTerminator b).
Proof.
  intros (body & t & Hb & _ & Ht). unfold getTerminator.
  rewrite Hb, last_snoc, Ht. eauto.
Qed.

(** A tidy block on which [getTerminator] finds nothing has no
    terminator at all. *)
Lemma tidy_getTerminator_None b : tidy b → getTerminator b = None → open b.
Proof.
  intros [Hopen | Hclosed] Hnone; [exact Hopen|].
  apply closed_getTerminator in Hclosed as [t Ht]. congruence.
Qed.

Lemma kept_except_refl t g : kept_except t g g.
Proof. intros i b _ H; exact H. Qed.

Lemma kept_except_trans t g1 g2 g3 :
  kept_except t g1 g2 → kept_except t g2 g3 → kept_except t g1 g3.
Proof. intros H12 H23 i b Hi Hb. apply H23, H12; auto. Qed.

Lemma kept_open t g g' i :
  kept_except t g g' → i ≠ t → open_at i g → open_at i g'.
Proof. intros Hk Hi (b & Hb & Hopen). exists b; split; auto. Qed.

(** Appending to block [bb] of a store: the other blocks are kept, and if
    block [bb] had no terminator the store stays tidy. *)
Lemma alter_push_kept i bb g g' :
  basic_blocks g' = alter (push_inst i) bb (basic_blocks g) →
  kept_except bb g g'.
Proof.
  intros Hg j b Hj Hb. rewrite Hg, list_lookup_alter_ne by auto. exact Hb.
Qed.

Lemma alter_push_tidy i bb g g' :
  basic_blocks g' = alter (push_inst i) bb (basic_blocks g) →
  tidy_blocks g →
  (∀ b, basic_blocks g !! bb = Some b → open b) →
  tidy_blocks g'.
Proof.
  intros Hg Htidy Hopen j b. rewrite Hg.
  destruct (decide (bb = j)) as [<-|Hne].
  - rewrite list_lookup_alter_eq.
    destruct (basic_blocks g !! bb) as [b0|] eqn:Hb0; [|discriminate].
    intros [= <-]. apply open_push_tidy. auto.
  - rewrite list_lookup_alter_ne by auto. apply Htidy.
Qed.

Lemma alter_push_open i bb g g' :
  basic_blocks g' = alter (push_inst i) bb (basic_blocks g) →
  quiet i → open_at bb g → open_at bb g'.
Proof.
  intros Hg Hi (b & Hb & Hopen). exists (push_inst i b). split.
  - rewrite Hg, list_lookup_alter_eq, Hb. reflexivity.
  - apply open_push_quiet; auto.
Qed.

Lemma open_at_unique bb g b :
  open_at bb g → basic_blocks g !! bb = Some b → open b.
Proof. intros (b' & Hb' & Hopen) Hb. congruence. Qed.

#[local] Instance quiet_step_preorder : PreOrder quiet_step.
Proof.
  split.
  - intros v; split; auto using kept_except_refl.
  - intros v1 v2 v3 [Hb1 Hl1 Hk1 Ho1 Ht1] [Hb2 Hl2 Hk2 Ho2 Ht2].
    rewrite Hb1 in *. split; try congruence; auto.
    eapply kept_except_trans; eauto.
Qed.

Lemma on_gen_quiet_step {A} (m : M code_generation A) :
  preserves registry_frame m → preserves quiet_step (on_gen m).
Proof.
  intros Hm v a v' H. apply on_gen_Ok in H as (g' & H & ->).
  pose proof (rf_blocks _ _ (Hm _ _ _ H)) as Hb.
  split; simpl; unfold kept_except, open_at, tidy_blocks; rewrite ?Hb; auto.
Qed.

Lemma Insert_blocks op v value v' :
  Insert op v = Ok (value, v') →
  builder v' = builder v
  ∧ basic_blocks (gen v')
    = alter (push_inst (next_inst (gen v), op)) (builder v)
        (basic_blocks (gen v)).
Proof. intros [= <- <-]; auto. Qed.

Lemma Insert_quiet_step op :
  isTerminator op = false → preserves quiet_step (Insert op).
Proof.
  intros Hop v value v' H. apply Insert_blocks in H as (Hb & Hg).
  split; auto.
  - rewrite Hg. apply length_alter.
  - eapply alter_push_kept; eauto.
  - eapply alter_push_open; eauto.
  - intros Htidy Hopen. eapply alter_push_tidy; eauto.
    intros b. apply open_at_unique; auto.
Qed.

(** Lowering an expression appends only to the builder's block, and no
    terminator. *)
Lemma visit_expression_quiet_step (node : expression) :
  preserves quiet_step (visit_expression node).
Proof.
  induction node as
    [rng signature | rng function arguments IHf IHargs | value | var
    | rng value eval_type | rng l operation r IHl IHr]
    using expression_nested_ind; simpl.
  - apply on_gen_quiet_step, get_or_declare_function_frame.
  - apply (preserves_mbind quiet_step); [exact IHf | intros value].
    destruct (isa_Function value); [|apply preserves_throw].
    apply (preserves_mbind quiet_step);
      [apply preserves_mapM; [apply _ | exact IHargs] | intros vals].
    apply Insert_quiet_step; reflexivity.
  - apply preserves_mret; apply _.
  - intros v value v'. unfold visit_variable_ref.
    destruct (variables v !! var_id var).
    + intros [= <- <-]; reflexivity.
    + apply (preserves_mbind quiet_step);
        [apply preserves_lift_result; apply _
        | intros ty; apply Insert_quiet_step; reflexivity].
  - apply preserves_lift_result; apply _.
  - apply (preserves_mbind quiet_step); [exact IHl | intros lhs].
    apply (preserves_mbind quiet_step); [exact IHr | intros rhs].
    apply preserves_visit_binary_operation; [apply _|].
    intros op Hterm _. apply Insert_quiet_step. exact Hterm.
Qed.

Lemma Create_step n parent v e v' :
  on_gen (BasicBlock_Create n parent) v = Ok (e, v') →
  e = length (basic_blocks (gen v))
  ∧ builder v' = builder v
  ∧ length (basic_blocks (gen v')) = S (length (basic_blocks (gen v)))
  ∧ kept_except (length (basic_blocks (gen v))) (gen v) (gen v')
  ∧ open_at (length (basic_blocks (gen v))) (gen v')
  ∧ (tidy_blocks (gen v) → tidy_blocks (gen v')).
Proof.
  intros [= <- <-]; simpl. rewrite length_app; simpl.
  repeat split; try lia.
  - intros i b _ Hb. simpl. apply lookup_app_l_Some. exact Hb.
  - eexists. split; [simpl; apply list_lookup_middle; reflexivity|].
    constructor.
  - intros Htidy i b. simpl. intros [Hb | (_ & Hb)]%lookup_app_Some.
    + eapply Htidy; eauto.
    + destruct (i - length (basic_blocks (gen v)))%nat; [|discriminate].
      injection Hb as <-. left. constructor.
Qed.

Lemma SetInsertPoint_eq bb v u v' :
  SetInsertPoint bb v = Ok (u, v') →
  v' = {| builder := bb; gen := gen v; variables := variables v |}.
Proof. intros [= <- <-]; reflexivity. Qed.

Lemma Insert_step op v value v' :
  Insert op v = Ok (value, v') →
  builder v' = builder v
  ∧ length (basic_blocks (gen v')) = length (basic_blocks (gen v))
  ∧ kept_except (builder v) (gen v) (gen v')
  ∧ (tidy_blocks (gen v) → open_at (builder v) (gen v) →
     tidy_blocks (gen v'))
  ∧ (isTerminator op = false →
     open_at (builder v) (gen v) → open_at (builder v) (gen v')).
Proof.
  intros H. apply Insert_blocks in H as (Hb & Hg).
  split; [exact Hb|]. split; [rewrite Hg; apply length_alter|].
  split; [eapply alter_push_kept; eauto|]. split.
  - intros Htidy Hopen. eapply alter_push_tidy; eauto.
    intros b. apply open_at_unique; auto.
  - intros Hop. eapply alter_push_open; eauto.
Qed.

(** A gated insertion into block [bb] keeps a tidy store tidy, whether it
    takes place or not. *)
Lemma gated_insertion bb k v u v' :
  when_no_terminator bb k v = Ok (u, v') →
  (∀ u' v'', k v = Ok (u', v'') →
     ∃ i, basic_blocks (gen v'')
          = alter (push_inst i) bb (basic_blocks (gen v))) →
  length (basic_blocks (gen v')) = length (basic_blocks (gen v))
  ∧ kept_except bb (gen v) (gen v')
  ∧ (tidy_blocks (gen v) → tidy_blocks (gen v')).
Proof.
  intros H Hk. unfold when_no_terminator in H.
  apply mbind_Ok in H as (t & v1 & [= <- <-] & H).
  destruct (basic_blocks (gen v) !! bb ≫= getTerminator) as [t|] eqn:Ht.
  - injection H as _ <-. auto using kept_except_refl.
  - destruct (Hk _ _ H) as (i & Hg).
    split; [rewrite Hg; apply length_alter|].
    split; [eapply alter_push_kept; eauto|].
    intros Htidy. eapply alter_push_tidy; eauto.
    intros b Hb. rewrite Hb in Ht. simpl in Ht.
    apply tidy_getTerminator_None; eauto.
Qed.

Lemma gate_there bb op v u v' :
  when_no_terminator bb (SetInsertPoint bb >> Insert op >> mret tt) v
    = Ok (u, v') →
  length (basic_blocks (gen v')) = length (basic_blocks (gen v))
  ∧ kept_except bb (gen v) (gen v')
  ∧ (tidy_blocks (gen v) → tidy_blocks (gen v')).
Proof.
  intros H. eapply gated_insertion; [exact H|].
  intros u' v'' Hk.
  apply mbind_Ok in Hk as (? & v1 & [= <- <-] & Hk).
  apply mbind_Ok in Hk as (? & v2 & Hk & [= _ <-]).
  apply Insert_blocks in Hk as (_ & Hg). eauto.
Qed.

Lemma gate_here bb op v u v' :
  when_no_terminator bb (Insert op >> mret tt) v = Ok (u, v') →
  length (basic_blocks (gen v')) = length (basic_blocks (gen v))
  ∧ (builder v = bb → kept_except bb (gen v) (gen v'))
  ∧ (builder v = bb → tidy_blocks (gen v) → tidy_blocks (gen v')).
Proof.
  intros H.
  assert (Hlen : length (basic_blocks (gen v'))
                 = length (basic_blocks (gen v))).
  { unfold when_no_terminator in H.
    apply mbind_Ok in H as (t & v1 & [= <- <-] & H).
    destruct (_ ≫= getTerminator); [injection H as _ <-; reflexivity|].
    apply mbind_Ok in H as (? & v2 & Hk & [= _ <-]).
    apply Insert_cursor in Hk as (_ & Hl). exact Hl. }
  split; [exact Hlen|].
  split; intros <-; eapply gated_insertion; try exact H;
    intros u' v'' Hk;
    apply mbind_Ok in Hk as (? & v2 & Hk & [= _ <-]);
    apply Insert_blocks in Hk as (_ & Hg); eauto.
Qed.

(** Replace every step of a lowering by what it does to the blocks. *)
Ltac block_facts IH Hlast :=
  repeat
    match goal with
    | H : GetInsertBlock _ = Ok _ |- _ => injection H as <- <-
    | H : getParent _ _ = Ok _ |- _ => apply getParent_Ok in H as (-> & _)
    | H : mret _ _ = Ok _ |- _ => injection H as <- <-
    | H : (if ?c then _ else _) _ = Ok _ |- _ => destruct c
    | H : on_gen (BasicBlock_Create _ _) _ = Ok _ |- _ =>
        apply Create_step in H as (-> & ? & ? & ? & ? & ?)
    | H : SetInsertPoint _ _ = Ok _ |- _ =>
        apply SetInsertPoint_eq in H as ->
    | H : visit_expression _ _ = Ok _ |- _ =>
        apply visit_expression_quiet_step in H as [? ? ? ? ?]
    | H : visit_statement _ ?s = Ok (_, ?s') |- _ =>
        pose proof (sf_blocks _ _ (visit_statement_frame _ _ _ _ H));
        pose proof (IH _ _ _ H Hlast);
        clear H
    | H : when_no_terminator _ (SetInsertPoint _ >> _ >> mret tt) _ = Ok _
      |- _ => apply gate_there in H as (? & ? & ?)
    | H : when_no_terminator _ (_ >> mret tt) _ = Ok _ |- _ =>
        apply gate_here in H as (? & ? & ?)
    | H : _ _ = Ok (_, _) |- _ =>
        apply Insert_step in H as (? & ? & ? & ? & ?)
    end;
  repeat
    match goal with
    | H : isTerminator ?op = false → _ |- _ =>
        first [specialize (H eq_refl) | clear H]
    end;
  cbn [gen builder] in *.

Ltac use_builders :=
  repeat
    match goal with
    | H : builder ?s = _ |- _ => rewrite H in *
    end.

(** Follow a block, or the tidiness of the store, back through the
    steps. *)
Ltac chase :=
  use_builders;
  repeat first
    [ assumption
    | reflexivity
    | lia
    | match goal with
      | H : open_at ?i ?g → open_at ?i ?g' |- open_at ?i ?g' => apply H
      | H : kept_except ?t ?g ?g' |- open_at ?i ?g' =>
          apply (kept_open t g g' i H); [lia|]
      | H : _ → kept_except ?t ?g ?g' |- open_at ?i ?g' =>
          apply (kept_open t g g' i); [apply H; lia|lia|]
      | H : kept_except _ ?g ?g' |- basic_blocks ?g' !! _ = Some _ =>
          apply H; [lia|]
      | H : _ → kept_except _ ?g ?g' |- basic_blocks ?g' !! _ = Some _ =>
          apply H; [lia|lia|]
      | H : tidy_blocks ?g → tidy_blocks ?g' |- tidy_blocks ?g' => apply H
      | H : tidy_blocks ?g → _ → tidy_blocks ?g' |- tidy_blocks ?g' =>
          apply H
      | H : _ → tidy_blocks ?g → tidy_blocks ?g' |- tidy_blocks ?g' =>
          apply H
      end ].

(** Use the induction hypothesis of each nested statement, first to
    last. *)
Ltac settle_nested :=
  repeat
    match goal with
    | H : tidy_blocks ?g → open_at ?i ?g → lowered_tidily _ _ _ |- _ =>
        let Ht := fresh "Ht" in
        let Ho := fresh "Ho" in
        assert (Ht : tidy_blocks g) by chase;
        assert (Ho : open_at i g) by chase;
        specialize (H Ht Ho); destruct H as [? _ ? _];
        cbn [gen builder] in *
    end.

Ltac lowered_tidily_goal :=
  split; cbn [gen builder];
    [ chase
    | intros _; chase
    | intros ? ? ? Hold; pose proof (lookup_lt_Some _ _ _ Hold); chase
    | first [left; solve [chase] | right; solve [chase]] ].

(** A sequence of statements, given the property for each of them. *)
Lemma visit_statements_tidy (body : list statement) :
  Forall
    (λ s, ∀ v u v',
       visit_statement s v = Ok (u, v') →
       returns_last s = true →
       tidy_blocks (gen v) →
       open_at (builder v) (gen v) →
       lowered_tidily s v v') body →
  ∀ v u v',
    forM_ visit_statement body v = Ok (u, v') →
    returns_last (normal_block body) = true →
    tidy_blocks (gen v) →
    open_at (builder v) (gen v) →
    lowered_tidily (normal_block body) v v'.
Proof.
  induction 1 as [|s body Hs _ IHbody]; intros v u v' H Hlast Htidy Hopen.
  - injection H as <- <-. split; auto using kept_except_refl.
  - simpl in H. apply mbind_Ok in H as ([] & v1 & H1 & H2).
    simpl in Hlast.
    apply andb_true_iff in Hlast as ((Hs_last & Hnext)%andb_true_iff & Hrest).
    pose proof (sf_blocks _ _ (visit_statement_frame _ _ _ _ H1)) as Hlen.
    destruct (Hs _ _ _ H1 Hs_last Htidy Hopen) as [Ht1 Ho1 Hk1 Hb1].
    destruct body as [|s2 rest].
    + injection H2 as <- <-. split; auto.
      simpl. rewrite orb_false_r. exact Ho1.
    + apply negb_true_iff in Hnext. specialize (Ho1 Hnext).
      destruct (IHbody _ _ _ H2 Hrest Ht1 Ho1) as [Ht2 Ho2 Hk2 Hb2].
      split.
      * exact Ht2.
      * simpl. rewrite Hnext. exact Ho2.
      * intros i b Hi Hb. apply Hk2; [|apply Hk1; auto].
        apply lookup_lt_Some in Hb. destruct Hb1 as [-> | Hge]; [exact Hi|lia].
      * destruct Hb1 as [Hb1 | Hb1], Hb2 as [Hb2 | Hb2];
          [left; congruence | right; lia ..].
Qed.

(** Lowering a statement whose returns come last, with the builder in a
    block without terminator, keeps the store tidy. *)
Lemma visit_statement_tidy (node : statement) :
  ∀ v u v',
    visit_statement node v = Ok (u, v') →
    returns_last node = true →
    tidy_blocks (gen v) →
    open_at (builder v) (gen v) →
    lowered_tidily node v v'.
Proof.
  induction node as
    [condition body IH | to from | condition main_body else_body IH
    | e | value | body IH] using statement_nested_ind;
    intros v u v' H Hlast Htidy Hopen;
    pose proof Hopen as (b0 & Hb0%lookup_lt_Some & _); simpl in H.
  - simpl in Hlast. split_binds H. block_facts IH Hlast. settle_nested.
    lowered_tidily_goal.
  - split_binds H; block_facts IH Hlast; lowered_tidily_goal.
  - simpl in Hlast. split_binds H; block_facts IH Hlast; settle_nested;
      lowered_tidily_goal.
  - split_binds H; block_facts IH Hlast; lowered_tidily_goal.
  - destruct value; split_binds H; block_facts IH Hlast;
      (split; cbn [gen builder];
         [chase | discriminate | intros ? ? ? Hold; chase | left; chase]).
  - apply (visit_statements_tidy body IH v u v' H Hlast Htidy Hopen).
Qed.

(** A gated step does nothing to a block that ends in a terminator. *)
Lemma gated_step_skipped bb k v t :
  basic_blocks (gen v) !! bb ≫= getTerminator = Some t →
  when_no_terminator bb k v = Ok (tt, v).
Proof.
  intros Ht. unfold when_no_terminator, mbind, block_terminator.
  rewrite Ht. reflexivity.
Qed.

(** Lowering one function whose returns are in place keeps the store
    tidy. *)
Lemma compile_function_tidy func g u g' :
  returns_in_place func →
  tidy_blocks g →
  compile_function func g = Ok (u, g') →
  tidy_blocks g'.
Proof.
  intros [Hlast Hctor] Htidy H. unfold compile_function in H.
  destruct (lower_body func g) as [[llvm_func code_gen]|] eqn:Hbody;
    [|discriminate].
  assert (Hlowered : tidy_blocks (gen code_gen)
            ∧ (terminates_block (fd_body func) = false →
               open_at (builder code_gen) (gen code_gen))).
  { unfold lower_body in Hbody.
    destruct (get_or_declare_function _ _ g) as [[f g1]|] eqn:H1;
      [|discriminate].
    simpl in Hbody.
    match type of Hbody with
    | context [visit_statement ?b ?v0] =>
        destruct (visit_statement b v0) as [[[] v1]|] eqn:H2; [|discriminate]
    end.
    injection Hbody as _ <-.
    pose proof (rf_blocks _ _ (get_or_declare_function_frame _ _ _ _ _ H1))
      as Hblocks.
    assert (Hcreate :
              on_gen (BasicBlock_Create "entry" (function_name f))
                {| builder := 0; gen := g1; variables := ∅ |}
              = Ok (length (basic_blocks g1),
                    set_gen
                      (set_basic_blocks
                         (basic_blocks g1
                          ++ [{| bb_name := "entry";
                                 bb_parent := function_name f;
                                 bb_insts := [] |}]) g1)
                      {| builder := 0; gen := g1; variables := ∅ |}))
      by reflexivity.
    apply Create_step in Hcreate as (_ & _ & _ & _ & Hopen & Hkeep).
    simpl in Hopen, Hkeep.
    assert (Htidy1 : tidy_blocks g1)
      by (unfold tidy_blocks; rewrite Hblocks; exact Htidy).
    destruct (visit_statement_tidy _ _ _ _ H2 Hlast (Hkeep Htidy1) Hopen)
      as [Ht Ho _ _].
    auto. }
  destruct Hlowered as (Htidy' & Hopen').
  unfold is_constructor in Hctor.
  destruct (bool_decide _).
  - destruct (CreateRetVoid code_gen) as [[value code_gen']|] eqn:Hret;
      [|discriminate].
    injection H as _ <-. simpl.
    apply Insert_step in Hret as (_ & _ & _ & Hstep & _).
    apply Hstep; auto.
  - injection H as _ <-. exact Htidy'.
Qed.

Lemma compile_functions_tidy funcs :
  ∀ g u g',
    Forall returns_in_place funcs →
    tidy_blocks g →
    forM_ compile_function funcs g = Ok (u, g') →
    tidy_blocks g'.
Proof.
  induction funcs as [|func funcs IH]; intros g u g' Hall Htidy H;
    simpl in H.
  - injection H as _ <-. exact Htidy.
  - apply mbind_Ok in H as ([] & g1 & H1 & H2).
    apply Forall_cons in Hall as (Hfunc & Hall).
    eapply IH; [exact Hall | | exact H2].
    eapply compile_function_tidy; eauto.
Qed.

Lemma constructor_calls_quiet n cs : Forall quiet (constructor_calls n cs).
Proof.
  unfold constructor_calls. apply Forall_forall. intros i Hi.
  apply elem_of_lookup_imap in Hi as (k & c & -> & _). reflexivity.
Qed.

(** Blocks that are not well terminated: the entry block of a function
    with an empty body ends in no terminator; the entry block of a
    constructor that returns, and the one of a function that returns
    twice, hold two. *)
Lemma blocks_not_well_terminated :
  lowered_blocks empty_function
  = Some [{| bb_name := "entry"; bb_parent := "f"; bb_insts := [] |}]
  ∧ lowered_blocks returning_constructor
    = Some [{| bb_name := "entry"; bb_parent := "f";
               bb_insts := [(0%nat, RetVoid); (1%nat, RetVoid)] |}]
  ∧ lowered_blocks (define "f" ∅ (normal_block [ret None; ret None]))
    = Some [{| bb_name := "entry"; bb_parent := "f";
               bb_insts := [(0%nat, RetVoid); (1%nat, RetVoid)] |}]
  ∧ well_terminated
      {| bb_name := "entry"; bb_parent := "f"; bb_insts := [] |} = false
  ∧ well_terminated
      {| bb_name := "entry"; bb_parent := "f";
         bb_insts := [(0%nat, RetVoid); (1%nat, RetVoid)] |} = false.
Proof. repeat split; vm_compute; reflexivity. Qed.

(** When in every function of the module no return is followed by
    another statement of its block, and the body of a function tagged
    "constructor" does not end in a return, [generate] keeps the store
    tidy: no block receives a second terminator or an instruction after
    its terminator. *)
Lemma generate_tidy (mod_body : list declaration)
    (g g' : code_generation) (u : unit) :
  Forall returns_in_place (collected_functions (collect mod_body)) →
  tidy_blocks g →
  generate mod_body g = Ok (u, g') →
  tidy_blocks g'.
Proof.
  intros Hall Htidy H. unfold generate in H.
  apply mbind_Ok in H as ([] & g1 & H1 & H).
  apply mbind_Ok in H as ([] & g2 & H2 & H).
  apply mbind_Ok in H as (entry_function & g3 & [= <- <-] & H).
  apply mbind_Ok in H as (entry_basic_block & g4 & [= <- <-] & H).
  apply mbind_Ok in H as ([] & g5 & H5 & H).
  apply mbind_Ok in H as (value & g6 & [= _ <-] & [= _ <-]).
  apply compile_extern_functions_frame, rf_blocks in H1.
  assert (Htidy2 : tidy_blocks g2).
  { eapply compile_functions_tidy; [exact Hall | | exact H2].
    unfold tidy_blocks. rewrite H1. exact Htidy. }
  unfold call_constructors in H5. simpl in H5.
  eapply call_constructors_last in H5 as (Hblocks & _ & _); [|reflexivity].
  intros i b. simpl. rewrite Hblocks. simpl.
  replace (length (basic_blocks g2)) with (length (basic_blocks g2) + 0)%nat
    by lia.
  rewrite alter_app_r. simpl.
  intros [Hb | (_ & Hb)]%lookup_app_Some.
  - eapply Htidy2; eauto.
  - destruct (i - length (basic_blocks g2))%nat; [|discriminate].
    injection Hb as <-. right. eexists _, _. split; [reflexivity|].
    split; [apply constructor_calls_quiet | reflexivity].
Qed.

Local Open Scope list_scope.

(** ** The function collector *)

Lemma collect_from (c : function_collector) (body : list declaration) :
  foldl collector_visit c body
  = {| collected_functions :=
         collected_functions c ++ omap as_function body;
       collected_extern_functions :=
         collected_extern_functions c ++ omap as_extern_function body |}.
Proof.
  revert c. induction body as [|node body IH]; intros c; simpl.
  - rewrite !app_nil_r. destruct c; reflexivity.
  - rewrite IH. destruct node; simpl; rewrite <- ?app_assoc; reflexivity.
Qed.

(** X1: the collector splits the declarations of a module body into the
    function definitions and the extern definitions, each in declaration
    order, whatever the interleaving; collecting two bodies one after the
    other is collecting their concatenation. *)
Theorem collect_partitions_in_order (body body' : list declaration) :
  collected_functions (collect body) = omap as_function body
  ∧ collected_extern_functions (collect body)
    = omap as_extern_function body
  ∧ collected_functions (collect (body ++ body'))
    = collected_functions (collect body)
      ++ collected_functions (collect body')
  ∧ collected_extern_functions (collect (body ++ body'))
    = collected_extern_functions (collect body)
      ++ collected_extern_functions (collect body').
Proof.
  unfold collect. rewrite !collect_from. simpl.
  rewrite !omap_app. auto.
Qed.

(** ** Function signature lowering: when it succeeds, how it fails *)

Lemma get_llvm_type_recognised size_type t :
  succeeded (get_llvm_type size_type t) = recognised t.
Proof. destruct t as [[]|]; reflexivity. Qed.

(** A lowered type may be a return type; it may be an argument type unless
    it comes from void. *)
Lemma lowered_type_valid size_type t ty :
  get_llvm_type size_type t = Ok ty →
  isValidReturnType ty = true ∧ isValidArgumentType ty = negb (is_void t).
Proof.
  destruct t as [[]|]; simpl; intros [= <-]; split; reflexivity.
Qed.

Lemma lower_parameters_Ok size_type pos params :
  ∀ tys,
    lower_parameters size_type pos params = Ok tys →
    Forall2 (λ param ty, get_llvm_type size_type (type_ (var param)) = Ok ty)
      params tys.
Proof.
  induction params as [|param params IH]; intros tys; simpl.
  - intros [= <-]. constructor.
  - destruct (get_llvm_type _ _) as [ty|] eqn:Hty; [|discriminate].
    destruct (isValidArgumentType ty); [|discriminate].
    destruct (lower_parameters _ _ params) as [tys'|]; [|discriminate].
    intros [= <-]. constructor; auto.
Qed.

Lemma lower_parameters_succeeded size_type pos params :
  succeeded (lower_parameters size_type pos params)
  = forallb passable params.
Proof.
  induction params as [|param params IH]; simpl; [reflexivity|].
  unfold passable at 1.
  rewrite <- get_llvm_type_recognised with (size_type := size_type).
  destruct (get_llvm_type _ _) as [ty|] eqn:Hty; simpl; [|reflexivity].
  rewrite (proj2 (lowered_type_valid _ _ _ Hty)).
  destruct (is_void _); simpl; [reflexivity|].
  rewrite <- IH. destruct (lower_parameters _ _ params); reflexivity.
Qed.

(** X2: on a cache miss, signature lowering succeeds exactly when the
    return type and every parameter type is a recognised built-in type
    and no parameter is void; the function type then has the lowered
    return type, the lowered parameter types in declaration order, and is
    not variadic, and all that changes is that the cache holds it under
    the mangled name. *)
Theorem signature_lowering_succeeds_iff (pos : position)
    (s : function_signature) (g : code_generation) :
  function_type_map g !! mangled_name s = None →
  succeeded (get_llvm_function_type pos s g)
  = recognised (return_type s) && forallb passable (parameters s)
  ∧ ∀ ft g',
      get_llvm_function_type pos s g = Ok (ft, g') →
      ∃ rt tys,
        get_llvm_type (size_type g) (return_type s) = Ok rt
        ∧ Forall2
            (λ param ty,
               get_llvm_type (size_type g) (type_ (var param)) = Ok ty)
            (parameters s) tys
        ∧ ft = FunctionTy rt tys false
        ∧ g' = set_function_type_map
                 (<[mangled_name s := ft]> (function_type_map g)) g.
Proof.
  intros Hmiss. unfold get_llvm_function_type. rewrite Hmiss.
  rewrite <- get_llvm_type_recognised with (size_type := size_type g).
  rewrite <- lower_parameters_succeeded
    with (size_type := size_type g) (pos := pos).
  destruct (get_llvm_type _ _) as [rt|] eqn:Hrt; simpl;
    [|split; [reflexivity | discriminate]].
  rewrite (proj1 (lowered_type_valid _ _ _ Hrt)).
  destruct (lower_parameters _ _ _) as [tys|] eqn:Htys; simpl;
    [|split; [reflexivity | discriminate]].
  split; [reflexivity|]. intros ft g' [= <- <-].
  exists rt, tys. eauto using lower_parameters_Ok.
Qed.

Lemma signature_lowering_succeeds_iff_witness :
  succeeded
    (get_llvm_function_type here sig_void_parameter (initial (IntegerTy 64)))
  = false.
Proof.
  exact (proj1 (signature_lowering_succeeds_iff here sig_void_parameter
                  (initial (IntegerTy 64)) eq_refl)).
Defined.

Lemma lower_parameters_Throw size_type pos params e :
  lower_parameters size_type pos params = Throw e →
  e = runtime_error "TODO: class types are not supported"
  ∨ e = compiler_exception {| line := 0; column := 0 |}
          "internal compiler error: unknown type"
  ∨ e = compiler_exception pos
          "internal compiler error: invalid parameter type"
    ∧ Exists (λ param, type_ (var param) = built_in void_) params.
Proof.
  induction params as [|param params IH]; simpl; [discriminate|].
  destruct (get_llvm_type _ _) as [ty|e'] eqn:Hty.
  - pose proof (proj2 (lowered_type_valid _ _ _ Hty)) as Hvalid.
    destruct (isValidArgumentType ty).
    + destruct (lower_parameters _ _ params) as [tys|e'];
        [discriminate|].
      intros [= <-]. destruct (IH eq_refl) as [?|[?|[? ?]]]; auto.
    + intros [= <-]. right; right. split; [reflexivity|].
      apply Exists_cons_hd.
      destruct (type_ (var param)) as [[]|]; try discriminate Hvalid;
        try discriminate Hty. reflexivity.
  - intros [= <-].
    destruct (type_ (var param)) as [[]|]; simpl in Hty;
      try discriminate Hty; injection Hty as <-; auto.
Qed.

(** X3: signature lowering raises one of three exceptions only: the
    runtime error for a class type, the compiler exception at position
    (0, 0) for an unknown built-in tag, or the compiler exception "invalid
    parameter type" at the caller's position, the last one exactly for a
    void parameter.  The exception "invalid return type" is never
    raised. *)
Theorem signature_lowering_exceptions (pos : position)
    (s : function_signature) (g : code_generation) (e : exception) :
  get_llvm_function_type pos s g = Throw e →
  e = runtime_error "TODO: class types are not supported"
  ∨ e = compiler_exception {| line := 0; column := 0 |}
          "internal compiler error: unknown type"
  ∨ e = compiler_exception pos
          "internal compiler error: invalid parameter type"
    ∧ Exists (λ param, type_ (var param) = built_in void_) (parameters s).
Proof.
  unfold get_llvm_function_type.
  destruct (function_type_map g !! mangled_name s); [discriminate|].
  destruct (get_llvm_type _ _) as [rt|e'] eqn:Hrt.
  - rewrite (proj1 (lowered_type_valid _ _ _ Hrt)).
    destruct (lower_parameters _ _ _) as [tys|e'] eqn:Htys; [discriminate|].
    intros [= <-]. eapply lower_parameters_Throw; eauto.
  - intros [= <-].
    destruct (return_type s) as [[]|]; simpl in Hrt;
      try discriminate Hrt; injection Hrt as <-; auto.
Qed.

Lemma signature_lowering_exceptions_witness :
  compiler_exception here "internal compiler error: invalid parameter type"
  = runtime_error "TODO: class types are not supported"
  ∨ compiler_exception here
      "internal compiler error: invalid parameter type"
    = compiler_exception {| line := 0; column := 0 |}
        "internal compiler error: unknown type"
  ∨ compiler_exception here
      "internal compiler error: invalid parameter type"
    = compiler_exception here
        "internal compiler error: invalid parameter type"
    ∧ Exists (λ param, type_ (var param) = built_in void_)
        (parameters sig_void_parameter).
Proof.
  exact (signature_lowering_exceptions here sig_void_parameter
           (initial (IntegerTy 64)) _ eq_refl).
Defined.

(** ** Literals *)

(** X4: a number literal that is lowered becomes a constant of the IR type
    its evaluated type is lowered to; an integer literal is reduced modulo
    two to the width, so the constant always fits; nothing is emitted and
    the state is left as it is.  The same holds for a boolean literal and
    the type of bool. *)
Theorem literal_has_lowered_type (rng : range) (value : number_value)
    (eval_type : type) (v v' : code_gen_visitor) (c : Value) :
  visit_expression (number_literal rng value eval_type) v = Ok (c, v') →
  v' = v
  ∧ (∃ ty, constant_type c = Some ty
           ∧ get_llvm_type (size_type (gen v)) eval_type = Ok ty)
  ∧ (∀ n, value = num_uint64 n →
     ∃ bits x,
       c = ConstantInt bits x
       ∧ x = n `mod` 2 ^ Z.of_N bits
       ∧ 0 ≤ x < 2 ^ Z.of_N bits)
  ∧ (∀ b,
     ∃ cb ty,
       visit_expression (bool_literal b) v = Ok (cb, v)
       ∧ constant_type cb = Some ty
       ∧ get_llvm_type (size_type (gen v)) (built_in bool_) = Ok ty).
Proof.
  simpl. unfold lift_result.
  destruct (visit_number_literal rng value eval_type) as [c'|] eqn:Hc;
    [|discriminate].
  intros [= <- <-]. split; [reflexivity|].
  split; [|split].
  - destruct value as [n|d|]; simpl in Hc; [| |discriminate].
    + destruct eval_type as [[]|]; simpl in Hc; try discriminate Hc;
        injection Hc as <-; eexists; split; reflexivity.
    + destruct eval_type as [[]|]; try discriminate Hc;
        injection Hc as <-; eexists; split; reflexivity.
  - intros n ->. simpl in Hc.
    destruct (integer_type_size rng eval_type) as [size|]; [|discriminate].
    injection Hc as <-. eexists _, _. split; [reflexivity|].
    split; [reflexivity|]. apply Z.mod_pos_bound. lia.
  - intros b. eexists _, _. repeat split; reflexivity.
Qed.

Lemma literal_has_lowered_type_witness :
  ∃ bits x,
    ConstantInt 8 44 = ConstantInt bits x
    ∧ x = 300 `mod` 2 ^ Z.of_N bits
    ∧ 0 ≤ x < 2 ^ Z.of_N bits.
Proof.
  exact (proj1 (proj2 (proj2
           (literal_has_lowered_type at_start (num_uint64 300) (built_in u8)
              fresh_visitor fresh_visitor (ConstantInt 8 44) eq_refl)))
           300 eq_refl).
Defined.

(** X5: a number literal is lowered exactly when it is an integer with one
    of the eight integer types or a floating-point number with f32 or f64.
    Otherwise lowering fails, and with which exception is fixed by the
    literal: a value that is neither an integer nor a floating-point
    number gives the compiler exception "unknown number type", whatever
    the type, a class type included; an integer or floating-point number
    of a class type gives [std::bad_variant_access]; an integer of another
    built-in type gives the compiler exception "unknown integer type" and
    a floating-point number of another built-in type "unknown floating
    point type".  The compiler exceptions are at the literal's own
    position. *)
Theorem number_literal_lowered_iff (rng : range) (value : number_value)
    (eval_type : type) :
  succeeded (visit_number_literal rng value eval_type)
  = match value, eval_type with
    | num_uint64 _,
      built_in (u8 | i8 | u16 | i16 | u32 | i32 | u64 | i64) => true
    | num_double _, built_in (f32 | f64) => true
    | _, _ => false
    end
  ∧ raised (visit_number_literal rng value eval_type)
    = number_literal_failure rng value eval_type.
Proof.
  split; destruct value, eval_type as [[]|]; reflexivity.
Qed.

(** ** Calls and binary operations: failures *)




(** ** Lifting a relation on generator states through the lowering *)

Section generator_relation.
Variable R : relation code_generation.
Context `{!PreOrder R}.
Hypothesis R_declare :
  ∀ pos signature, preserves R (get_or_declare_function pos signature).
Hypothesis R_create : ∀ n parent, preserves R (BasicBlock_Create n parent).
Hypothesis R_insert : ∀ bb op, preserves R (builder_insert bb op).

#[local] Instance lifted_preorder : PreOrder (lifted R).
Proof.
  split.
  - intros v. unfold lifted. reflexivity.
  - intros v1 v2 v3. unfold lifted. intros H1 H2. etrans; eauto.
Qed.

Lemma lifted_on_gen {A} (m : M code_generation A) :
  preserves R m → preserves (lifted R) (on_gen m).
Proof.
  intros Hm v a v' H. apply on_gen_Ok in H as (g' & H & ->).
  exact (Hm _ _ _ H).
Qed.

Lemma lifted_unchanged {A} (m : M code_gen_visitor A) :
  (∀ v a v', m v = Ok (a, v') → gen v' = gen v) →
  preserves (lifted R) m.
Proof.
  intros Hm v a v' H. unfold lifted. rewrite (Hm _ _ _ H). reflexivity.
Qed.

Lemma lifted_Insert op : preserves (lifted R) (Insert op).
Proof. intros v. apply lifted_on_gen, R_insert. Qed.

Lemma lifted_mbind {A B} (m : M code_gen_visitor A)
    (k : A → M code_gen_visitor B) :
  preserves (lifted R) m →
  (∀ a, preserves (lifted R) (k a)) →
  preserves (lifted R) (mbind m k).
Proof. apply preserves_mbind; apply _. Qed.

Lemma lifted_visit_expression (node : expression) :
  preserves (lifted R) (visit_expression node).
Proof.
  induction node as
    [rng signature | rng function arguments IHf IHargs | value | var
    | rng value eval_type | rng l operation r IHl IHr]
    using expression_nested_ind; simpl.
  - apply lifted_on_gen, R_declare.
  - apply lifted_mbind; [exact IHf | intros value].
    destruct (isa_Function value); [|apply preserves_throw].
    apply lifted_mbind;
      [apply preserves_mapM; [apply _ | exact IHargs] | intros vals].
    apply lifted_Insert.
  - apply preserves_mret; apply _.
  - intros v value v'. unfold visit_variable_ref.
    destruct (variables v !! var_id var).
    + intros [= <- <-]; reflexivity.
    + apply lifted_mbind;
        [apply preserves_lift_result; apply _
        | intros ty; apply lifted_Insert].
  - apply preserves_lift_result; apply _.
  - apply lifted_mbind; [exact IHl | intros lhs].
    apply lifted_mbind; [exact IHr | intros rhs].
    apply preserves_visit_binary_operation; [apply _|].
    intros op _ _. apply lifted_Insert.
Qed.

Ltac lifted_steps :=
  repeat first
    [ assumption
    | apply preserves_mret; apply _
    | apply lifted_visit_expression
    | apply lifted_Insert
    | apply lifted_on_gen, R_create
    | apply lifted_unchanged; intros ? ? ? [= <- <-]; reflexivity
    | apply lifted_mbind; [| intros ?]
    | match goal with
      | |- preserves _ (when_no_terminator _ _) => unfold when_no_terminator
      | |- preserves _ (if ?c then _ else _) => destruct c
      | |- preserves _ (match ?o with Some _ => _ | None => _ end) =>
          destruct o
      end ].

Lemma lifted_visit_statement (node : statement) :
  preserves (lifted R) (visit_statement node).
Proof.
  induction node as
    [condition body IH | to from | condition main_body else_body IH
    | e | value | body IH] using statement_nested_ind; simpl;
    try solve [lifted_steps].
  apply preserves_forM_; [apply _ | exact IH].
Qed.

Lemma lifted_lower_body func g llvm_func code_gen :
  lower_body func g = Ok (llvm_func, code_gen) → R g (gen code_gen).
Proof.
  unfold lower_body.
  destruct (get_or_declare_function _ _ g) as [[f g1]|] eqn:H1;
    [|discriminate].
  destruct (BasicBlock_Create "entry" (function_name f) g1)
    as [[bb g2]|] eqn:H2; [|discriminate].
  match goal with
  | |- context [visit_statement ?b ?v0] =>
      destruct (visit_statement b v0) as [[[] v1]|] eqn:H3; [|discriminate]
  end.
  intros [= _ <-].
  etrans; [exact (R_declare _ _ _ _ _ H1)|].
  etrans; [exact (R_create _ _ _ _ _ H2)|].
  exact (lifted_visit_statement _ _ _ _ H3).
Qed.

Lemma lifted_compile_extern_function func :
  preserves R (compile_extern_function func).
Proof.
  apply (preserves_mbind R); [apply R_declare | intros; apply preserves_mret].
  apply _.
Qed.

Hypothesis R_record :
  ∀ g f, R g (set_constructor_functions (constructor_functions g ++ [f]) g).

Lemma lifted_compile_function func : preserves R (compile_function func).
Proof.
  intros g u g' H. unfold compile_function in H.
  destruct (lower_body func g) as [[llvm_func code_gen]|] eqn:Hbody;
    [|discriminate].
  pose proof (lifted_lower_body _ _ _ _ Hbody) as Hb.
  destruct (bool_decide _).
  - destruct (CreateRetVoid code_gen) as [[value code_gen']|] eqn:Hret;
      [|discriminate].
    injection H as _ <-.
    etrans; [exact Hb|]. etrans; [exact (lifted_Insert _ _ _ _ Hret)|].
    apply R_record.
  - injection H as _ <-. exact Hb.
Qed.

Hypothesis R_entry :
  preserves R
    (Function_Create (FunctionTy VoidTy [] false) InternalLinkage "entry").

Lemma lifted_generate mod_body : preserves R (generate mod_body).
Proof.
  unfold generate.
  apply (preserves_mbind R).
  { apply preserves_forM_; [apply _|]. apply Forall_forall; intros f _.
    apply lifted_compile_extern_function. }
  intros _. apply (preserves_mbind R).
  { apply preserves_forM_; [apply _|]. apply Forall_forall; intros f _.
    apply lifted_compile_function. }
  intros _. apply (preserves_mbind R); [exact R_entry | intros f].
  apply (preserves_mbind R); [apply R_create | intros bb].
  apply (preserves_mbind R).
  { intros g u g' H. unfold call_constructors in H. revert H.
    apply preserves_forM_; [apply _|]. apply Forall_forall; intros c _.
    apply (preserves_mbind R);
      [apply R_insert | intros; apply preserves_mret; apply _]. }
  intros _. apply (preserves_mbind R);
    [apply R_insert | intros; apply preserves_mret; apply _].
Qed.

End generator_relation.

(** ** The function-type cache is written once *)

#[local] Instance cache_kept_preorder : PreOrder cache_kept.
Proof.
  split.
  - intros g. unfold cache_kept. reflexivity.
  - intros g1 g2 g3. unfold cache_kept. intros H1 H2. etrans; eauto.
Qed.

Lemma cache_kept_same g g' :
  function_type_map g' = function_type_map g → cache_kept g g'.
Proof. unfold cache_kept. intros ->. reflexivity. Qed.

Lemma cache_kept_get_llvm_function_type pos signature :
  preserves cache_kept (get_llvm_function_type pos signature).
Proof.
  intros g ft g'. unfold get_llvm_function_type.
  destruct (function_type_map g !! mangled_name signature) eqn:Hmiss.
  - intros [= <- <-]; reflexivity.
  - destruct (get_llvm_type _ _) as [rt|]; [|discriminate].
    destruct (isValidReturnType rt); [|discriminate].
    destruct (lower_parameters _ _ _); [|discriminate].
    intros [= <- <-]. unfold cache_kept; simpl.
    apply insert_subseteq. exact Hmiss.
Qed.

Lemma cache_kept_get_or_declare_function pos signature :
  preserves cache_kept (get_or_declare_function pos signature).
Proof.
  intros g f g'. unfold get_or_declare_function.
  destruct (getFunction _ _).
  - intros [= <- <-]; reflexivity.
  - apply (preserves_mbind cache_kept);
      [apply cache_kept_get_llvm_function_type|].
    intros ft g1 f' g2 [= <- <-]. apply cache_kept_same. reflexivity.
Qed.

Lemma cache_kept_create n parent :
  preserves cache_kept (BasicBlock_Create n parent).
Proof. intros g bb g' [= <- <-]. apply cache_kept_same. reflexivity. Qed.

Lemma cache_kept_insert bb op :
  preserves cache_kept (builder_insert bb op).
Proof. intros g value g' [= <- <-]. apply cache_kept_same. reflexivity. Qed.

(** X8: the function-type cache is written once per key: an entry that is
    in the cache stays in it, with the same function type, through the
    lowering of any function and through the whole of [generate]. *)
Theorem function_type_cache_written_once (g g' : code_generation)
    (u : unit) :
  (∃ mod_body, generate mod_body g = Ok (u, g'))
  ∨ (∃ func, compile_function func g = Ok (u, g')) →
  ∀ key ft,
    function_type_map g !! key = Some ft →
    function_type_map g' !! key = Some ft.
Proof.
  intros H key ft Hkey.
  assert (Hkept : cache_kept g g').
  { destruct H as [[mod_body H] | [func H]]; revert H.
    - apply (lifted_generate cache_kept).
      + apply cache_kept_get_or_declare_function.
      + apply cache_kept_create.
      + apply cache_kept_insert.
      + intros g0 f. apply cache_kept_same. reflexivity.
      + intros g0 f g1 [= <- <-]. apply cache_kept_same. reflexivity.
    - apply (lifted_compile_function cache_kept).
      + apply cache_kept_get_or_declare_function.
      + apply cache_kept_create.
      + apply cache_kept_insert.
      + intros g0 f. apply cache_kept_same. reflexivity. }
  eapply lookup_weaken; eauto.
Qed.

Lemma function_type_cache_written_once_witness :
  match
    compile_function (define "f" ∅ add_two_f64_calls)
      (set_function_type_map {["k" := VoidTy]} (initial (IntegerTy 64)))
  with
  | Ok (_, g') => function_type_map g' !! "k" = Some VoidTy
  | Throw _ => False
  end.
Proof.
  destruct (compile_function _ _) as [[[] g']|e] eqn:H.
  - apply (function_type_cache_written_once _ g' tt
             (or_intror (ex_intro _ _ H))).
    reflexivity.
  - vm_compute in H. discriminate H.
Defined.

(** ** Nothing is taken away *)

#[local] Instance only_grown_preorder : PreOrder only_grown.
Proof.
  split.
  - intros g. split; try reflexivity. intros i b Hb. eauto.
  - intros g1 g2 g3 [Hm1 Hc1 Hb1] [Hm2 Hc2 Hb2].
    split; try (etrans; eauto).
    intros i b Hb.
    destruct (Hb1 _ _ Hb) as (b' & Hb' & Hn & Hp & Hi).
    destruct (Hb2 _ _ Hb') as (b'' & Hb'' & Hn' & Hp' & Hi').
    exists b''. repeat split; try congruence. etrans; eauto.
Qed.

Lemma only_grown_registry g g' : registry_frame g g' → only_grown g g'.
Proof.
  intros [_ Hb Hc _ Hm]. split; auto.
  - rewrite Hc. reflexivity.
  - rewrite Hb. intros i b Hi. eauto.
Qed.

Lemma only_grown_create n parent :
  preserves only_grown (BasicBlock_Create n parent).
Proof.
  intros g bb g' [= <- <-]. split; simpl; try reflexivity.
  intros i b Hb. exists b. repeat split; auto.
  apply lookup_app_l_Some. exact Hb.
Qed.

Lemma only_grown_insert bb op : preserves only_grown (builder_insert bb op).
Proof.
  intros g value g' [= <- <-]. split; simpl; try reflexivity.
  intros i b Hb. destruct (decide (bb = i)) as [<-|Hne].
  - exists (push_inst (next_inst g, op) b).
    rewrite list_lookup_alter_eq, Hb. repeat split.
    simpl. apply prefix_app_r. reflexivity.
  - exists b. rewrite list_lookup_alter_ne by auto. auto.
Qed.

(** X9: lowering only adds: through [generate], and through the lowering
    of any single function, the functions of the module and the recorded
    constructors are extended at the end, every block keeps its place, its
    name and its function, and the instructions of a block are extended at
    the end; no function, block or instruction is removed, replaced or
    reordered. *)
Theorem lowering_only_adds (g g' : code_generation) (u : unit) :
  (∃ mod_body, generate mod_body g = Ok (u, g'))
  ∨ (∃ func, compile_function func g = Ok (u, g')) →
  only_grown g g'.
Proof.
  intros [[mod_body H] | [func H]]; revert H.
  - apply (lifted_generate only_grown).
    + intros pos s g0 f g1 H.
      apply only_grown_registry, (get_or_declare_function_frame _ _ _ _ _ H).
    + apply only_grown_create.
    + apply only_grown_insert.
    + intros g0 f. split; simpl; try reflexivity; eauto.
      apply prefix_app_r. reflexivity.
    + intros g0 f g1 H.
      apply only_grown_registry, (Function_Create_frame _ _ _ _ _ _ H).
  - apply (lifted_compile_function only_grown).
    + intros pos s g0 f g1 H.
      apply only_grown_registry, (get_or_declare_function_frame _ _ _ _ _ H).
    + apply only_grown_create.
    + apply only_grown_insert.
    + intros g0 f. split; simpl; try reflexivity; eauto.
      apply prefix_app_r. reflexivity.
Qed.

Lemma lowering_only_adds_witness :
  match generate loop_with_return (initial (IntegerTy 64)) with
  | Ok (_, g') => only_grown (initial (IntegerTy 64)) g'
  | Throw _ => False
  end.
Proof.
  destruct (generate loop_with_return (initial (IntegerTy 64)))
    as [[[] g']|e] eqn:H.
  - apply (lowering_only_adds _ g' tt (or_introl (ex_intro _ _ H))).
  - vm_compute in H. discriminate H.
Defined.

(** ** The module as a registry of functions *)

Lemma string_app_length (s1 s2 : string) :
  String.length (s1 +:+ s2) = (String.length s1 + String.length s2)%nat.
Proof. induction s1; simpl; auto. Qed.

Lemma suffixed_named base (k : N) : base +:+ "." +:+ pretty k ≠ "".
Proof.
  intros H. apply (f_equal String.length) in H.
  rewrite !string_app_length in H. simpl in H. lia.
Qed.

(** The suffix search stops at a free name, or every candidate it tried
    was taken. *)
Lemma first_free_suffix_spec m base tries :
  ∀ k,
    getFunction m (first_free_suffix m base k tries) = None
    ∨ ∀ j, (j < tries)%nat →
           base +:+ "." +:+ pretty (k + N.of_nat j)%N ∈ fn_name <$> m.
Proof.
  induction tries as [|tries IH]; intros k; simpl.
  - right. intros j Hj. lia.
  - destruct (getFunction m (base +:+ "." +:+ pretty k)) as [f|] eqn:Hk;
      [|left; exact Hk].
    destruct (IH (k + 1)%N) as [Hfree | Htaken]; [left; exact Hfree|].
    right. intros [|j] Hj.
    + rewrite N.add_0_r. apply dec_stable. intros Hnot.
      apply getFunction_None in Hnot; [congruence | apply suffixed_named].
    + replace (k + N.of_nat (S j))%N with (k + 1 + N.of_nat j)%N by lia.
      apply Htaken. lia.
Qed.

Lemma first_free_suffix_named m base tries k :
  first_free_suffix m base k tries ≠ "".
Proof.
  revert k. induction tries as [|tries IH]; intros k; simpl.
  - apply suffixed_named.
  - destruct (getFunction _ _); [apply IH | apply suffixed_named].
Qed.

(** A requested name other than the empty one gives a named function. *)
Lemma unique_name_named m base : base ≠ "" → unique_name m base ≠ "".
Proof.
  intros Hbase. unfold unique_name.
  destruct (getFunction m base); [apply first_free_suffix_named | exact Hbase].
Qed.

(** The empty name is never replaced: the function stays unnamed. *)
Lemma unique_name_empty m : unique_name m "" = "".
Proof. reflexivity. Qed.

(** The name a new function gets is not in the symbol table: there are
    more candidates than functions. *)
Lemma unique_name_fresh m base : getFunction m (unique_name m base) = None.
Proof.
  unfold unique_name. destruct (getFunction m base) as [f|] eqn:Hbase;
    [|exact Hbase].
  pose proof (getFunction_Some_named _ _ _ Hbase) as Hnamed.
  destruct (first_free_suffix_spec m base (length m) 1%N)
    as [Hfree | Htaken]; [exact Hfree | exfalso].
  set (candidate := λ j : nat, base +:+ "." +:+ pretty (1 + N.of_nat j)%N)
    in *.
  assert (Hinj : Inj (=) (=) candidate).
  { intros i j Hij. unfold candidate in Hij.
    apply (inj (String.app base)), (inj (String.app ".")) in Hij.
    apply (inj pretty) in Hij. lia. }
  assert (Hdistinct : NoDup (base :: (candidate <$> seq 0 (length m)))).
  { apply NoDup_cons. split.
    - intros (j & Hj & _)%list_elem_of_fmap. unfold candidate in Hj.
      apply (f_equal String.length) in Hj.
      rewrite !string_app_length in Hj. simpl in Hj. lia.
    - apply NoDup_fmap_2; [exact Hinj | apply NoDup_seq]. }
  assert (Hall : ∀ x, x ∈ base :: (candidate <$> seq 0 (length m)) →
                      x ∈ fn_name <$> m).
  { intros x [-> | (j & -> & Hj%elem_of_seq)%list_elem_of_fmap]%elem_of_cons.
    - apply dec_stable. intros Hnot.
      apply getFunction_None in Hnot; [congruence | exact Hnamed].
    - apply Htaken. lia. }
  pose proof (submseteq_length _ _ (NoDup_submseteq _ _ Hdistinct Hall))
    as Hlen.
  simpl in Hlen. rewrite !length_fmap, length_seq in Hlen. lia.
Qed.

Lemma named_app m k : named (m ++ k) = (named m ++ named k)%list.
Proof. unfold named. rewrite fmap_app, filter_app. reflexivity. Qed.

Lemma elem_of_named m n : n ∈ named m ↔ n ≠ "" ∧ n ∈ fn_name <$> m.
Proof. unfold named. rewrite list_elem_of_filter. reflexivity. Qed.

Lemma names_distinct_create ty l n :
  preserves names_stay_distinct (Function_Create ty l n).
Proof.
  intros g f g' [= <- <-]. unfold names_stay_distinct, names_distinct.
  simpl. rewrite named_app. intros Hnodup. apply NoDup_app.
  split; [exact Hnodup|]. split.
  - intros x [Hx Hin]%elem_of_named [_ Hnew]%elem_of_named.
    simpl in Hnew. apply list_elem_of_singleton in Hnew as ->.
    revert Hin. apply getFunction_None; [exact Hx | apply unique_name_fresh].
  - unfold named. simpl. rewrite filter_cons, filter_nil.
    destruct (decide _); [apply NoDup_singleton | apply NoDup_nil_2].
Qed.

#[local] Instance names_stay_distinct_preorder : PreOrder names_stay_distinct.
Proof.
  split.
  - intros g H. exact H.
  - intros g1 g2 g3 H12 H23 H. exact (H23 (H12 H)).
Qed.

Lemma names_distinct_same g g' :
  llvm_module g' = llvm_module g → names_stay_distinct g g'.
Proof. unfold names_stay_distinct, names_distinct. intros ->. auto. Qed.

Lemma names_distinct_get_or_declare_function pos signature :
  preserves names_stay_distinct (get_or_declare_function pos signature).
Proof.
  intros g f g' H. unfold get_or_declare_function in H.
  destruct (getFunction (llvm_module g) _) as [func|].
  - injection H as <- <-. reflexivity.
  - revert H. apply (preserves_mbind names_stay_distinct).
    + intros g0 ft g1 H. apply names_distinct_same.
      exact (get_llvm_function_type_module _ _ _ _ _ H).
    + intros ft. apply names_distinct_create.
Qed.

Lemma names_distinct_block n parent :
  preserves names_stay_distinct (BasicBlock_Create n parent).
Proof. intros g bb g' [= <- <-]. apply names_distinct_same. reflexivity. Qed.

Lemma names_distinct_insert bb op :
  preserves names_stay_distinct (builder_insert bb op).
Proof. intros g value g' [= <- <-]. apply names_distinct_same. reflexivity. Qed.

(** Among distinct names, a named function is the one found under its
    name. *)
Lemma getFunction_of_member m f :
  NoDup (named m) → f ∈ m → fn_name f ≠ "" →
  getFunction m (fn_name f) = Some f.
Proof.
  intros Hnodup Hin Hnamed. unfold getFunction.
  rewrite bool_decide_eq_false_2 by exact Hnamed.
  induction m as [|f0 m IH]; simpl.
  - apply elem_of_nil in Hin as [].
  - apply elem_of_cons in Hin as [-> | Hin].
    + rewrite bool_decide_eq_true_2; reflexivity.
    + change (f0 :: m) with ([f0] ++ m)%list in Hnodup.
      rewrite named_app in Hnodup.
      apply NoDup_app in Hnodup as (_ & Hnew & Hrest).
      rewrite bool_decide_eq_false_2; [auto|].
      intros Heq. apply (Hnew (fn_name f)).
      * apply elem_of_named. split; [exact Hnamed|]. simpl. rewrite Heq.
        apply list_elem_of_here.
      * apply elem_of_named. split; [exact Hnamed|].
        apply list_elem_of_fmap. eauto.
Qed.

Lemma names_stay_distinct_generate mod_body g u g' :
  generate mod_body g = Ok (u, g') → names_stay_distinct g g'.
Proof.
  apply (lifted_generate names_stay_distinct).
  - apply names_distinct_get_or_declare_function.
  - apply names_distinct_block.
  - apply names_distinct_insert.
  - intros g0 f. apply names_distinct_same. reflexivity.
  - apply names_distinct_create.
Qed.

Lemma names_stay_distinct_compile_function func g u g' :
  compile_function func g = Ok (u, g') → names_stay_distinct g g'.
Proof.
  apply (lifted_compile_function names_stay_distinct).
  - apply names_distinct_get_or_declare_function.
  - apply names_distinct_block.
  - apply names_distinct_insert.
  - intros g0 f. apply names_distinct_same. reflexivity.
Qed.

(** Two definitions without a name give two unnamed functions; neither is
    found by name. *)
Remark unnamed_functions_pile_up :
  (λ g', (fn_name <$> llvm_module g', getFunction (llvm_module g') ""))
    <$> outcome (generate two_unnamed (initial (IntegerTy 64)))
  = Some (["" ; ""; "f"; "entry"], None).
Proof. vm_compute; reflexivity. Qed.

(** X10: the named functions of the module keep distinct names: when no
    two functions of the module share a name other than the empty one
    before [generate], or before the lowering of a function, none do after
    it, and every function of the resulting module that has a name is the
    one found under its name.  Nothing is found under the empty name: an
    unnamed function is not in the symbol table, and the module may hold
    any number of them. *)
Theorem module_names_stay_distinct (g g' : code_generation) (u : unit) :
  (∃ mod_body, generate mod_body g = Ok (u, g'))
  ∨ (∃ func, compile_function func g = Ok (u, g')) →
  names_distinct g →
  names_distinct g'
  ∧ (∀ f, f ∈ llvm_module g' → fn_name f ≠ "" →
          getFunction (llvm_module g') (fn_name f) = Some f)
  ∧ (∀ f, f ∈ llvm_module g' → fn_name f = "" →
          getFunction (llvm_module g') (fn_name f) = None).
Proof.
  intros H Hdistinct.
  assert (Hkept : names_stay_distinct g g').
  { destruct H as [[mod_body H] | [func H]].
    - exact (names_stay_distinct_generate _ _ _ _ H).
    - exact (names_stay_distinct_compile_function _ _ _ _ H). }
  split; [exact (Hkept Hdistinct)|]. split.
  - intros f. apply getFunction_of_member. exact (Hkept Hdistinct).
  - intros f _ ->. reflexivity.
Qed.

Lemma module_names_stay_distinct_witness :
  match generate two_unnamed (initial (IntegerTy 64)) with
  | Ok (_, g') =>
      names_distinct g'
      ∧ (∀ f, f ∈ llvm_module g' → fn_name f ≠ "" →
              getFunction (llvm_module g') (fn_name f) = Some f)
      ∧ (∀ f, f ∈ llvm_module g' → fn_name f = "" →
              getFunction (llvm_module g') (fn_name f) = None)
  | Throw _ => False
  end.
Proof.
  destruct (generate two_unnamed (initial (IntegerTy 64)))
    as [[[] g']|e] eqn:H.
  - apply (module_names_stay_distinct _ g' tt
             (or_introl (ex_intro _ _ H))).
    apply NoDup_nil_2.
  - vm_compute in H. discriminate H.
Defined.

(** X11: a function is declared once per module-level name other than
    the empty one.  A successful [get_or_declare_function] returns the
    function of that name; when the symbol table already has the name
    nothing changes; otherwise one function is added at the end of the
    module, under exactly that name, with the function type cached for the
    signature and external linkage for an extern signature, internal
    otherwise.  When the name is not empty, any later request under the
    same module-level name, whatever its parameters, return type or extern
    flag, returns the same function and changes nothing.  The empty name is
    never in the symbol table, so every successful request under it adds a
    further unnamed function. *)
Theorem function_declared_once (pos : position)
    (signature : function_signature) (g g' : code_generation) (f : Value) :
  get_or_declare_function pos signature g = Ok (f, g') →
  f = GlobalFunction (module_name signature)
  ∧ (is_Some (getFunction (llvm_module g) (module_name signature)) →
     g' = g)
  ∧ (getFunction (llvm_module g) (module_name signature) = None →
     ∃ ft,
       function_type_map g' !! mangled_name signature = Some ft
       ∧ llvm_module g' =
           llvm_module g ++
             [{| fn_name := module_name signature; fn_type := ft;
                 fn_linkage := if is_extern signature then ExternalLinkage
                               else InternalLinkage |}])
  ∧ (module_name signature ≠ "" →
     ∀ pos' other,
       module_name other = module_name signature →
       get_or_declare_function pos' other g' = Ok (f, g'))
  ∧ (module_name signature = "" →
     getFunction (llvm_module g) (module_name signature) = None
     ∧ ∀ pos' other f' g'',
         module_name other = "" →
         get_or_declare_function pos' other g' = Ok (f', g'') →
         ∃ ft',
           llvm_module g'' =
             llvm_module g' ++
               [{| fn_name := ""; fn_type := ft';
                   fn_linkage := if is_extern other then ExternalLinkage
                                 else InternalLinkage |}]).
Proof.
  intros H.
  pose proof (get_or_declare_function_value _ _ _ _ _ H) as Hf.
  assert (Hadded : ∀ pos0 sig g0 f0 g1,
    getFunction (llvm_module g0) (module_name sig) = None →
    get_or_declare_function pos0 sig g0 = Ok (f0, g1) →
    ∃ ft,
      function_type_map g1 !! mangled_name sig = Some ft
      ∧ llvm_module g1 =
          llvm_module g0 ++
            [{| fn_name := module_name sig; fn_type := ft;
                fn_linkage := if is_extern sig then ExternalLinkage
                              else InternalLinkage |}]).
  { clear. intros pos sig g f g' Hnone H.
    unfold get_or_declare_function in H.
    fold (module_name sig) in H. rewrite Hnone in H.
    apply mbind_Ok in H as (ft & g1 & Hft & Hcreate).
    injection Hcreate as _ <-. exists ft.
    pose proof (get_llvm_function_type_module _ _ _ _ _ Hft) as Hmodule.
    split.
    - unfold get_llvm_function_type in Hft. simpl.
      destruct (function_type_map g !! mangled_name sig) eqn:Hcached.
      + injection Hft as <- <-. exact Hcached.
      + destruct (get_llvm_type _ _); [|discriminate].
        destruct (isValidReturnType _); [|discriminate].
        destruct (lower_parameters _ _ _); [|discriminate].
        injection Hft as <- <-. simpl. apply lookup_insert_eq.
    - simpl. rewrite Hmodule, unique_name_free by exact Hnone. reflexivity. }
  split; [exact Hf|]. split; [|split; [|split]].
  - intros [func0 Hfunc0]. unfold get_or_declare_function in H.
    fold (module_name signature) in H. rewrite Hfunc0 in H.
    injection H as _ <-. reflexivity.
  - intros Hnone. exact (Hadded _ _ _ _ _ Hnone H).
  - intros Hnamed pos' other Hname.
    assert (∃ func, getFunction (llvm_module g') (module_name signature)
                    = Some func) as [func Hfunc].
    { destruct (getFunction (llvm_module g) (module_name signature))
        as [func|] eqn:Hfind.
      - unfold get_or_declare_function in H.
        fold (module_name signature) in H. rewrite Hfind in H.
        injection H as _ <-. eauto.
      - destruct (Hadded _ _ _ _ _ Hfind H) as (ft & _ & ->).
        rewrite (getFunction_app_None _ _ _ Hfind). unfold getFunction.
        rewrite bool_decide_eq_false_2 by exact Hnamed. simpl.
        rewrite bool_decide_eq_true_2 by reflexivity. eauto. }
    unfold get_or_declare_function.
    fold (module_name other). rewrite Hname, Hfunc.
    rewrite (getFunction_Some_name _ _ _ Hfunc), Hf. reflexivity.
  - intros Hempty. rewrite Hempty. split; [reflexivity|].
    intros pos' other f' g'' Hother H'.
    destruct (Hadded pos' other g' f' g'') as (ft' & _ & Hmodule);
      [rewrite Hother; reflexivity | exact H'|].
    rewrite Hother in Hmodule. eauto.
Qed.

Lemma function_declared_once_witness :
  match
    get_or_declare_function here sig_f_i32 (initial (IntegerTy 64))
  with
  | Ok (f, g') =>
      get_or_declare_function here sig_f_other g' = Ok (f, g')
  | Throw _ => False
  end.
Proof.
  destruct (get_or_declare_function here sig_f_i32 _)
    as [[f g']|e] eqn:H.
  - apply (function_declared_once _ _ _ _ _ H);
      [discriminate | reflexivity].
  - vm_compute in H. discriminate H.
Defined.

(** ** Expressions are straight-line code *)

Lemma appended_at_nil i g g' :
  basic_blocks g' = basic_blocks g → appended_at i [] g g'.
Proof.
  intros Hb b Hi. rewrite Hb, Hi, app_nil_r. destruct b; reflexivity.
Qed.

Lemma appended_at_app i new new' g1 g2 g3 :
  appended_at i new g1 g2 → appended_at i new' g2 g3 →
  appended_at i (new ++ new') g1 g3.
Proof.
  intros H12 H23 b Hb. rewrite (H23 _ (H12 _ Hb)). simpl.
  rewrite app_assoc. reflexivity.
Qed.

#[local] Instance straight_line_preorder : PreOrder straight_line.
Proof.
  split.
  - intros v. split; auto using kept_except_refl.
    exists []. split; [constructor | apply appended_at_nil; reflexivity].
  - intros v1 v2 v3 [Hb1 Hv1 Hl1 Hk1 (new1 & Hq1 & Ha1)]
      [Hb2 Hv2 Hl2 Hk2 (new2 & Hq2 & Ha2)].
    rewrite Hb1 in *.
    split; try congruence.
    + eapply kept_except_trans; eauto.
    + exists (new1 ++ new2). split; [apply Forall_app; auto|].
      eapply appended_at_app; eauto.
Qed.

Lemma straight_line_on_gen {A} (m : M code_generation A) :
  preserves registry_frame m → preserves straight_line (on_gen m).
Proof.
  intros Hm v a v' H. apply on_gen_Ok in H as (g' & H & ->).
  pose proof (rf_blocks _ _ (Hm _ _ _ H)) as Hb.
  split; simpl; auto.
  - rewrite Hb. reflexivity.
  - intros i b _. rewrite Hb. auto.
  - exists []. split; [constructor | apply appended_at_nil; exact Hb].
Qed.

Lemma straight_line_Insert op :
  isTerminator op = false → preserves straight_line (Insert op).
Proof.
  intros Hop v value v' H.
  pose proof (Insert_blocks _ _ _ _ H) as (Hb & Hg).
  split; auto.
  - injection H as _ <-. reflexivity.
  - rewrite Hg. apply length_alter.
  - eapply alter_push_kept; eauto.
  - exists [(next_inst (gen v), op)]. split.
    + repeat constructor. exact Hop.
    + intros b Hi. rewrite Hg, list_lookup_alter_eq, Hi. reflexivity.
Qed.

Lemma straight_line_visit_expression (node : expression) :
  preserves straight_line (visit_expression node).
Proof.
  induction node as
    [rng signature | rng function arguments IHf IHargs | value | var
    | rng value eval_type | rng l operation r IHl IHr]
    using expression_nested_ind; simpl.
  - apply straight_line_on_gen, get_or_declare_function_frame.
  - apply (preserves_mbind straight_line); [exact IHf | intros value].
    destruct (isa_Function value); [|apply preserves_throw].
    apply (preserves_mbind straight_line);
      [apply preserves_mapM; [apply _ | exact IHargs] | intros vals].
    apply straight_line_Insert; reflexivity.
  - apply preserves_mret; apply _.
  - intros v value v'. unfold visit_variable_ref.
    destruct (variables v !! var_id var).
    + intros [= <- <-]; reflexivity.
    + apply (preserves_mbind straight_line);
        [apply preserves_lift_result; apply _
        | intros ty; apply straight_line_Insert; reflexivity].
  - apply preserves_lift_result; apply _.
  - apply (preserves_mbind straight_line); [exact IHl | intros lhs].
    apply (preserves_mbind straight_line); [exact IHr | intros rhs].
    apply (preserves_visit_binary_operation straight_line).
    intros op Hterm _. apply straight_line_Insert. exact Hterm.
Qed.

(** X12: an expression is lowered to straight-line code.  Lowering any
    expression leaves the builder in the block it was in, creates no
    block, leaves every other block and the variable slots as they were,
    and appends to the builder's block only instructions that are not
    terminators: no branch and no return comes from an expression. *)
Theorem expression_lowered_straight_line (node : expression)
    (v v' : code_gen_visitor) (value : Value) :
  visit_expression node v = Ok (value, v') → straight_line v v'.
Proof. apply straight_line_visit_expression. Qed.

Lemma expression_lowered_straight_line_witness :
  match visit_expression call_with_sum fresh_visitor with
  | Ok (_, v') => straight_line fresh_visitor v'
  | Throw _ => False
  end.
Proof.
  destruct (visit_expression call_with_sum fresh_visitor)
    as [[value v']|e] eqn:H.
  - exact (expression_lowered_straight_line _ _ _ _ H).
  - vm_compute in H. discriminate H.
Defined.

(** ** Statements touch their own block and the blocks they create *)

Lemma touched_refl t g : touched t g g.
Proof.
  split; [lia | apply kept_except_refl |].
  exists []. apply appended_at_nil. reflexivity.
Qed.

(** A step that touches the block the lowering started in, or a block
    that did not exist then, is covered. *)
Lemma touched_then t0 t g0 g g' :
  touched t0 g0 g → touched t g g' →
  t = t0 ∨ (length (basic_blocks g0) ≤ t)%nat →
  touched t0 g0 g'.
Proof.
  intros [Hl1 Hk1 (new1 & Ha1)] [Hl2 Hk2 (new2 & Ha2)] Ht.
  split; [lia | |].
  - intros i b Hi Hb. apply Hk2; [|apply Hk1; auto].
    apply lookup_lt_Some in Hb. lia.
  - destruct (decide (t = t0)) as [->|Hne].
    + exists (new1 ++ new2). eapply appended_at_app; eauto.
    + exists new1. intros b Hb. apply Hk2; [|apply Ha1; exact Hb].
      apply lookup_lt_Some in Hb. lia.
Qed.

Lemma touched_same_blocks t g g1 g2 :
  basic_blocks g2 = basic_blocks g1 → touched t g g1 → touched t g g2.
Proof.
  intros Hb [Hl Hk (new & Ha)].
  split; [rewrite Hb; exact Hl | |].
  - intros i b Hi Hold. rewrite Hb. auto.
  - exists new. intros b Hold. rewrite Hb. auto.
Qed.

Lemma touched_alter i bb g g' :
  basic_blocks g' = alter (push_inst i) bb (basic_blocks g) →
  touched bb g g'.
Proof.
  intros Hg. split.
  - rewrite Hg, length_alter. lia.
  - eapply alter_push_kept; eauto.
  - exists [i]. intros b Hb. rewrite Hg, list_lookup_alter_eq, Hb.
    reflexivity.
Qed.

Lemma touched_Insert op v value v' :
  Insert op v = Ok (value, v') →
  builder v' = builder v
  ∧ length (basic_blocks (gen v')) = length (basic_blocks (gen v))
  ∧ touched (builder v) (gen v) (gen v').
Proof.
  intros H. apply Insert_blocks in H as (Hb & Hg).
  split; [exact Hb|]. split; [rewrite Hg; apply length_alter|].
  eapply touched_alter; eauto.
Qed.

Lemma touched_Create n parent v e v' :
  on_gen (BasicBlock_Create n parent) v = Ok (e, v') →
  e = length (basic_blocks (gen v))
  ∧ builder v' = builder v
  ∧ length (basic_blocks (gen v')) = S (length (basic_blocks (gen v)))
  ∧ touched (length (basic_blocks (gen v))) (gen v) (gen v').
Proof.
  intros [= <- <-]; simpl. rewrite length_app; simpl.
  repeat split; try lia.
  - simpl. rewrite length_app. lia.
  - intros i b _ Hb. simpl. apply lookup_app_l_Some. exact Hb.
  - exists []. intros b Hb. apply lookup_lt_Some in Hb. lia.
Qed.

Lemma touched_visit_expression node v value v' :
  visit_expression node v = Ok (value, v') →
  builder v' = builder v
  ∧ length (basic_blocks (gen v')) = length (basic_blocks (gen v))
  ∧ touched (builder v) (gen v) (gen v').
Proof.
  intros H.
  assert (Hs : straight_line v v').
  { revert H. generalize v value v'.
    change (preserves straight_line (visit_expression node)).
    apply straight_line_visit_expression. }
  destruct Hs as [Hb _ Hl Hk (new & _ & Ha)].
  repeat split; eauto. lia.
Qed.

Lemma touched_gate bb k t v u v' :
  when_no_terminator bb k v = Ok (u, v') →
  (∀ u' v'', k v = Ok (u', v'') →
     builder v'' = t
     ∧ ∃ i, basic_blocks (gen v'')
            = alter (push_inst i) t (basic_blocks (gen v))) →
  (builder v' = builder v ∨ builder v' = t)
  ∧ length (basic_blocks (gen v')) = length (basic_blocks (gen v))
  ∧ touched t (gen v) (gen v').
Proof.
  intros H Hk. unfold when_no_terminator in H.
  apply mbind_Ok in H as (term & v1 & [= <- <-] & H).
  destruct (basic_blocks (gen v) !! bb ≫= getTerminator) as [term|].
  - injection H as _ <-. auto using touched_refl.
  - destruct (Hk _ _ H) as (Hb & i & Hg).
    split; [auto|]. split; [rewrite Hg; apply length_alter|].
    eapply touched_alter; eauto.
Qed.

Lemma touched_gate_there bb op v u v' :
  when_no_terminator bb (SetInsertPoint bb >> Insert op >> mret tt) v
    = Ok (u, v') →
  (builder v' = builder v ∨ builder v' = bb)
  ∧ length (basic_blocks (gen v')) = length (basic_blocks (gen v))
  ∧ touched bb (gen v) (gen v').
Proof.
  intros H. eapply touched_gate; [exact H|].
  intros u' v'' Hk.
  apply mbind_Ok in Hk as (? & v1 & [= <- <-] & Hk).
  apply mbind_Ok in Hk as (? & v2 & Hk & [= _ <-]).
  apply Insert_blocks in Hk as (Hb & Hg). eauto.
Qed.

Lemma touched_gate_here bb op v u v' :
  when_no_terminator bb (Insert op >> mret tt) v = Ok (u, v') →
  builder v' = builder v
  ∧ length (basic_blocks (gen v')) = length (basic_blocks (gen v))
  ∧ touched (builder v) (gen v) (gen v').
Proof.
  intros H.
  destruct (touched_gate bb _ (builder v) _ _ _ H) as (Hb & Hl & Ht).
  - intros u' v'' Hk.
    apply mbind_Ok in Hk as (? & v2 & Hk & [= _ <-]).
    apply Insert_blocks in Hk as (Hb & Hg). eauto.
  - split; [destruct Hb; auto | auto].
Qed.

(** Replace every step of a lowering by what it touches, where it leaves
    the builder, and how many blocks there are after it. *)
Ltac touched_facts IH :=
  repeat
    match goal with
    | H : GetInsertBlock _ = Ok _ |- _ => injection H as <- <-
    | H : getParent _ _ = Ok _ |- _ => apply getParent_Ok in H as (-> & _)
    | H : mret _ _ = Ok _ |- _ => injection H as <- <-
    | H : (if ?c then _ else _) _ = Ok _ |- _ => destruct c
    | H : on_gen (BasicBlock_Create _ _) _ = Ok _ |- _ =>
        apply touched_Create in H as (-> & ? & ? & ?)
    | H : SetInsertPoint _ _ = Ok _ |- _ =>
        apply SetInsertPoint_eq in H as ->
    | H : visit_expression _ _ = Ok _ |- _ =>
        apply touched_visit_expression in H as (? & ? & ?)
    | H : visit_statement _ ?s = Ok (_, ?s') |- _ =>
        pose proof (sf_blocks _ _ (visit_statement_frame _ _ _ _ H));
        apply IH in H as [? ? _]
    | H : when_no_terminator _ (SetInsertPoint _ >> _ >> mret tt) _ = Ok _
      |- _ => apply touched_gate_there in H as (? & ? & ?)
    | H : when_no_terminator _ (_ >> mret tt) _ = Ok _ |- _ =>
        apply touched_gate_here in H as (? & ? & ?)
    | H : _ _ = Ok (_, _) |- _ =>
        apply touched_Insert in H as (? & ? & ?)
    end;
  cbn [gen builder] in *.

(** Chain the steps from the last to the first. *)
Ltac touched_chain :=
  repeat
    match goal with
    | |- touched ?t ?g ?g => apply touched_refl
    | H : touched _ _ ?g' |- touched _ _ ?g' =>
        eapply touched_then; [|exact H|lia]
    end.

Lemma branches_out_visit_statements (body : list statement) :
  Forall
    (λ s, ∀ v u v', visit_statement s v = Ok (u, v') → branches_out v v')
    body →
  ∀ v u v', forM_ visit_statement body v = Ok (u, v') → branches_out v v'.
Proof.
  induction 1 as [|s body Hs _ IHbody]; intros v u v' H.
  - injection H as <- <-. split; auto using touched_refl.
  - simpl in H. apply mbind_Ok in H as ([] & v1 & H1 & H2).
    destruct (Hs _ _ _ H1) as [Ht1 Hb1 Hv1].
    destruct (IHbody _ _ _ H2) as [Ht2 Hb2 Hv2].
    pose proof (t_length _ _ _ Ht1). pose proof (t_length _ _ _ Ht2).
    split; [|lia|congruence].
    eapply touched_then; [exact Ht1 | exact Ht2 | lia].
Qed.

Lemma branches_out_visit_statement (node : statement) :
  ∀ v u v', visit_statement node v = Ok (u, v') → branches_out v v'.
Proof.
  induction node as
    [condition body IH | to from | condition main_body else_body IH
    | e | value | body IH] using statement_nested_ind;
    intros v u v' H;
    pose proof (sf_variables _ _ (visit_statement_frame _ _ _ _ H)) as Hvars;
    simpl in H.
  - split_binds H. touched_facts IH.
    split; cbn [gen builder]; [touched_chain | lia | exact Hvars].
  - split_binds H; touched_facts IH;
      (split; cbn [gen builder]; [touched_chain | lia | exact Hvars]).
  - split_binds H; touched_facts IH;
      (split; cbn [gen builder]; [touched_chain | lia | exact Hvars]).
  - split_binds H; touched_facts IH;
      (split; cbn [gen builder]; [touched_chain | lia | exact Hvars]).
  - destruct value; split_binds H; touched_facts IH;
      (split; cbn [gen builder]; [touched_chain | lia | exact Hvars]).
  - pose proof (branches_out_visit_statements body IH v u v' H) as [? ? _].
    split; auto.
Qed.

(** X13: a statement is lowered into the block the builder is in and into
    blocks it creates.  Whatever the statement, every other block that
    existed is left as it was, the builder's block only gets instructions
    appended, no block is lost, the builder ends in the block it started
    in or in a block created by the statement, and the variable slots are
    as before. *)
Theorem statement_lowering_branches_out (node : statement)
    (v v' : code_gen_visitor) (u : unit) :
  visit_statement node v = Ok (u, v') → branches_out v v'.
Proof. apply branches_out_visit_statement. Qed.

Lemma statement_lowering_branches_out_witness :
  match visit_statement loop_with_branch fresh_visitor with
  | Ok (_, v') => branches_out fresh_visitor v'
  | Throw _ => False
  end.
Proof.
  destruct (visit_statement loop_with_branch fresh_visitor)
    as [[[] v']|e] eqn:H.
  - exact (statement_lowering_branches_out _ _ _ _ H).
  - vm_compute in H. discriminate H.
Defined.

(** ** Every block a function's lowering creates is its own *)

Lemma parents_same v v' :
  same_parents v v' → parents (gen v') = parents (gen v).
Proof. intros H. exact H. Qed.

Lemma parents_Create n parent v e v' :
  on_gen (BasicBlock_Create n parent) v = Ok (e, v') →
  e = length (parents (gen v))
  ∧ parents (gen v') = parents (gen v) ++ [parent].
Proof.
  intros H. apply BasicBlock_Create_parents in H as (-> & _ & H).
  unfold parents. rewrite length_fmap. auto.
Qed.

Lemma parents_getParent bb v parent v' :
  getParent bb v = Ok (parent, v') →
  v' = v ∧ ∀ p, parents (gen v) !! bb = Some p → parent = p.
Proof.
  intros [= <- <-]. split; [reflexivity|]. intros p. unfold parents.
  rewrite list_lookup_fmap. intros ->. reflexivity.
Qed.

Lemma parents_Insert op v value v' :
  Insert op v = Ok (value, v') →
  builder v' = builder v ∧ parents (gen v') = parents (gen v).
Proof.
  intros H. split; [apply (Insert_cursor _ _ _ _ H)|].
  exact (Insert_parents _ _ _ _ H).
Qed.

Lemma parents_visit_expression node v value v' :
  visit_expression node v = Ok (value, v') →
  builder v' = builder v ∧ parents (gen v') = parents (gen v).
Proof.
  intros H. split; [apply (visit_expression_cursor _ _ _ _ H)|].
  exact (same_parents_visit_expression _ _ _ _ H).
Qed.

(** Replace every step of a lowering by what it does to the list of
    parents; the visits of nested statements are kept, marked
    [recorded]. *)
Ltac parent_facts :=
  repeat
    match goal with
    | H : GetInsertBlock _ = Ok _ |- _ => injection H as <- <-
    | H : getParent _ _ = Ok _ |- _ =>
        apply parents_getParent in H as (-> & ?)
    | H : mret _ _ = Ok _ |- _ => injection H as <- <-
    | H : (if ?c then _ else _) _ = Ok _ |- _ => destruct c
    | H : on_gen (BasicBlock_Create _ _) _ = Ok _ |- _ =>
        apply parents_Create in H as (-> & ?)
    | H : SetInsertPoint _ _ = Ok _ |- _ =>
        apply SetInsertPoint_eq in H as ->
    | H : visit_expression _ _ = Ok _ |- _ =>
        apply parents_visit_expression in H as (? & ?)
    | H : visit_statement ?b ?s = Ok (?a, ?s') |- _ =>
        change (recorded (visit_statement b s = Ok (a, s'))) in H
    | H : when_no_terminator ?bb ?k ?s = Ok (_, ?s') |- _ =>
        let Hp := fresh "Hp" in
        assert (Hp : preserves same_parents (when_no_terminator bb k))
          by same_parents_steps;
        apply Hp, parents_same in H;
        clear Hp
    | H : _ _ = Ok (_, _) |- _ => apply parents_Insert in H as (? & ?)
    end;
  cbn [gen builder] in *.

(** Use the induction hypothesis [IH] of each nested statement: it is
    lowered into a block that was just created for [p]. *)
Ltac nested_parents IH :=
  repeat
    match goal with
    | Hr : recorded (visit_statement _ ?s = Ok _) |- _ =>
        unfold recorded in Hr;
        apply IH in Hr as [(? & ? & ?) ?];
        [|cbn [gen builder];
          match goal with
          | Heq : parents ?g = _ ++ [_] |- parents ?g !! _ = _ =>
              rewrite Heq; apply list_lookup_middle; reflexivity
          end];
        cbn [gen builder] in *
    end.

(** Bring the list of parents after the lowering back to the one before
    it. *)
Ltac unwind_parents :=
  repeat
    match goal with
    | H : parents ?g = _ |- context [parents ?g] => rewrite H; clear H
    | H : builder ?s = _ |- context [builder ?s] => rewrite H; clear H
    end.

(** The builder is in a block that was created last, for [p]. *)
Ltac in_new_block :=
  repeat
    match goal with
    | |- (_ ++ [_]) !! length _ = Some _ =>
        apply list_lookup_middle; reflexivity
    | H : parents ?g = _ |- parents ?g !! _ = _ => rewrite H
    end.

(** The parents after the lowering are those before it and parents [p]. *)
Ltac only_parents_added :=
  first
    [ exists []; unwind_parents; rewrite app_nil_r;
      split; [reflexivity | constructor]
    | eexists; unwind_parents; rewrite <- ?app_assoc;
      split; [reflexivity | repeat (apply Forall_app; split); auto] ].

(** The parent of the blocks a statement creates is the parent of the
    block it is lowered into. *)
Ltac known_parent p Hp :=
  match goal with
  | Hparent : ∀ p0, _ → ?a = p0 |- _ =>
      let Ha := fresh "Ha" in
      assert (Ha : a = p) by (apply Hparent; unwind_parents; exact Hp);
      subst a; clear Hparent
  end.

Lemma stays_in_visit_statements p (body : list statement) :
  Forall
    (λ s, ∀ v u v',
       visit_statement s v = Ok (u, v') →
       parents (gen v) !! builder v = Some p → stays_in p v v') body →
  ∀ v u v',
    forM_ visit_statement body v = Ok (u, v') →
    parents (gen v) !! builder v = Some p → stays_in p v v'.
Proof.
  induction 1 as [|s body Hs _ IHbody]; intros v u v' H Hp.
  - injection H as <- <-. split; [|exact Hp].
    exists []. rewrite app_nil_r. auto.
  - simpl in H. apply mbind_Ok in H as ([] & v1 & H1 & H2).
    destruct (Hs _ _ _ H1 Hp) as [(new1 & Hn1 & Hall1) Hb1].
    destruct (IHbody _ _ _ H2 Hb1) as [(new2 & Hn2 & Hall2) Hb2].
    split; [|exact Hb2].
    exists (new1 ++ new2). rewrite Hn2, Hn1, app_assoc.
    split; [reflexivity | apply Forall_app; auto].
Qed.

Lemma stays_in_visit_statement p (node : statement) :
  ∀ v u v',
    visit_statement node v = Ok (u, v') →
    parents (gen v) !! builder v = Some p → stays_in p v v'.
Proof.
  induction node as
    [condition body IH | to from | condition main_body else_body IH
    | e | value | body IH] using statement_nested_ind;
    intros v u v' H Hp; simpl in H.
  - split_binds H. parent_facts.
    known_parent p Hp. nested_parents IH.
    split; cbn [gen builder]; [only_parents_added | in_new_block].
  - split_binds H; parent_facts;
      (split; cbn [gen builder];
         [only_parents_added | unwind_parents; exact Hp]).
  - split_binds H; parent_facts; known_parent p Hp; nested_parents IH;
      (split; cbn [gen builder]; [only_parents_added | in_new_block]).
  - split_binds H; parent_facts;
      (split; cbn [gen builder];
         [only_parents_added | unwind_parents; exact Hp]).
  - destruct value; split_binds H; parent_facts;
      (split; cbn [gen builder];
         [only_parents_added | unwind_parents; exact Hp]).
  - apply (stays_in_visit_statements p body IH v u v' H Hp).
Qed.

Lemma take_of_lookups {A} (l l' : list A) :
  (∀ i x, l !! i = Some x → l' !! i = Some x) → take (length l) l' = l.
Proof.
  intros Hl. apply list_eq. intros i.
  destruct (decide (i < length l)%nat) as [Hi|Hi].
  - rewrite lookup_take_lt by exact Hi.
    destruct (lookup_lt_is_Some_2 _ _ Hi) as [x Hx].
    rewrite Hx. apply Hl. exact Hx.
  - rewrite lookup_take_ge by lia. symmetry. apply lookup_ge_None. lia.
Qed.

Lemma lower_body_steps func g llvm_func code_gen :
  lower_body func g = Ok (llvm_func, code_gen) →
  ∃ g1 u,
    get_or_declare_function (start (fd_range func)) (fd_signature func) g
    = Ok (llvm_func, g1)
    ∧ visit_statement (fd_body func)
        {| builder := length (basic_blocks g1);
           gen :=
             set_basic_blocks
               (basic_blocks g1 ++
                  [{| bb_name := "entry";
                      bb_parent := function_name llvm_func;
                      bb_insts := [] |}]) g1;
           variables := ∅ |}
      = Ok (u, code_gen).
Proof.
  unfold lower_body.
  destruct (get_or_declare_function _ _ g) as [[f g1]|] eqn:H1;
    [|discriminate].
  simpl.
  match goal with
  | |- context [visit_statement ?b ?v0] =>
      destruct (visit_statement b v0) as [[u v1]|] eqn:H2; [|discriminate]
  end.
  intros [= <- <-]. eauto.
Qed.

(** What lowering one function does to the store: the blocks that existed
    are as they were, and after them comes the function's "entry" block
    and whatever other blocks its body needs, all of them its own. *)
Lemma compile_function_blocks func g u g' :
  compile_function func g = Ok (u, g') →
  ∃ run,
    basic_blocks g' = basic_blocks g ++ run
    ∧ blocks_of (module_name (fd_signature func)) run.
Proof.
  intros H. unfold compile_function in H.
  destruct (lower_body func g) as [[llvm_func v1]|] eqn:Hbody;
    [|discriminate].
  apply lower_body_steps in Hbody as (g1 & u1 & Hdecl & Hvisit).
  pose proof (get_or_declare_function_value _ _ _ _ _ Hdecl) as ->.
  pose proof (rf_blocks _ _ (get_or_declare_function_frame _ _ _ _ _ Hdecl))
    as Hg1.
  simpl in Hvisit. rewrite Hg1 in Hvisit.
  set (p := module_name (fd_signature func)) in *.
  set (n := length (basic_blocks g)) in *.
  match type of Hvisit with
  | visit_statement _ ?v = _ => set (v0 := v) in *
  end.
  assert (Hp0 : parents (gen v0) !! builder v0 = Some p).
  { unfold parents; simpl. rewrite fmap_app. simpl.
    apply list_lookup_middle. rewrite length_fmap. reflexivity. }
  pose proof (stays_in_visit_statement p _ _ _ _ Hvisit Hp0)
    as [(new & Hnew & Hall) _].
  pose proof (branches_out_visit_statement _ _ _ _ Hvisit)
    as [Htouched Hbuilder _].
  assert (Hlast : touched n (gen v0) g'
                  ∧ parents g' = parents (gen v1)).
  { destruct (bool_decide _).
    - destruct (CreateRetVoid v1) as [[value v2]|] eqn:Hret; [|discriminate].
      injection H as _ <-.
      pose proof (Insert_parents _ _ _ _ Hret) as Hparents.
      apply touched_Insert in Hret as (_ & _ & Hret).
      split; [|exact Hparents].
      eapply touched_then;
        [exact Htouched
        | eapply touched_same_blocks; [|exact Hret]; reflexivity
        | exact Hbuilder ].
    - injection H as _ <-. split; [exact Htouched | reflexivity]. }
  destruct Hlast as [[_ Hkept (insts & Hentry)] Hparents].
  assert (Hold : take n (basic_blocks g') = basic_blocks g).
  { apply take_of_lookups. intros i b Hb. apply Hkept.
    - apply lookup_lt_Some in Hb. fold n in Hb. lia.
    - simpl. apply lookup_app_l_Some. exact Hb. }
  specialize (Hentry _ (list_lookup_middle _ [] _ n eq_refl)).
  simpl in Hentry.
  exists (drop n (basic_blocks g')). split.
  { rewrite <- Hold. rewrite take_drop. reflexivity. }
  assert (Hrun : bb_parent <$> drop n (basic_blocks g') = p :: new).
  { rewrite fmap_drop. fold (parents g'). rewrite Hparents, Hnew.
    unfold parents; simpl. rewrite fmap_app, <- app_assoc. simpl.
    apply drop_app_length'. rewrite length_fmap. reflexivity. }
  split.
  - rewrite (drop_S _ _ _ Hentry). eauto.
  - assert (Hown : Forall (λ q, q = p)
                     (bb_parent <$> drop n (basic_blocks g'))).
    { rewrite Hrun. constructor; [reflexivity|].
      eapply Forall_impl; [exact Hall|]. intros q <-. reflexivity. }
    apply Forall_fmap in Hown. exact Hown.
Qed.

(** X14: lowering a function appends its blocks to the store and changes
    nothing that was there.  After a successful [compile_function] the
    blocks that existed are as they were, in their places, and after them
    comes a run of new blocks that starts with a block named "entry" and
    consists only of blocks of the function lowered. *)
Theorem function_lowering_appends_own_blocks (func : function_definition)
    (g g' : code_generation) (u : unit) :
  compile_function func g = Ok (u, g') →
  ∃ run,
    basic_blocks g' = basic_blocks g ++ run
    ∧ blocks_of (module_name (fd_signature func)) run.
Proof. apply compile_function_blocks. Qed.

Lemma function_lowering_appends_own_blocks_witness :
  match
    compile_function (define "f" ∅ loop_with_branch)
      (gen fresh_visitor)
  with
  | Ok (_, g') =>
      ∃ run,
        basic_blocks g' = basic_blocks (gen fresh_visitor) ++ run
        ∧ blocks_of "f" run
  | Throw _ => False
  end.
Proof.
  destruct (compile_function _ _) as [[[] g']|e] eqn:H.
  - exact (function_lowering_appends_own_blocks _ _ _ _ H).
  - vm_compute in H. discriminate H.
Defined.

(** ** The layout of a generated module *)

Lemma compile_functions_blocks funcs :
  ∀ g u g',
    forM_ compile_function funcs g = Ok (u, g') →
    ∃ runs,
      laid_out funcs runs
      ∧ basic_blocks g' = basic_blocks g ++ concat runs.
Proof.
  induction funcs as [|func funcs IH]; intros g u g' H; simpl in H.
  - injection H as <- <-. exists []. split; [constructor|].
    simpl. rewrite app_nil_r. reflexivity.
  - apply mbind_Ok in H as ([] & g1 & H1 & H2).
    apply compile_function_blocks in H1 as (run & Hrun & Hown).
    apply IH in H2 as (runs & Hruns & Hrest).
    exists (run :: runs). split; [constructor; auto|].
    rewrite Hrest, Hrun. simpl. rewrite app_assoc. reflexivity.
Qed.

(** The stages of [generate]: the externs, the function definitions, and
    the entry function with its block. *)
Lemma generate_stages mod_body g u g' :
  generate mod_body g = Ok (u, g') →
  ∃ g1 g2,
    forM_ compile_extern_function (omap as_extern_function mod_body) g
    = Ok (tt, g1)
    ∧ forM_ compile_function (omap as_function mod_body) g1 = Ok (tt, g2)
    ∧ llvm_module g' = llvm_module g2 ++ [entry_function (llvm_module g2)]
    ∧ basic_blocks g'
      = basic_blocks g2
        ++ [entry_block (llvm_module g2) (next_inst g2)
              (constructor_functions g2)].
Proof.
  intros H. unfold generate, collect in H. rewrite collect_from in H.
  simpl in H.
  apply mbind_Ok in H as ([] & g1 & H1 & H).
  apply mbind_Ok in H as ([] & g2 & H2 & H).
  apply mbind_Ok in H as (entry & g3 & [= <- <-] & H).
  apply mbind_Ok in H as (bb & g4 & [= <- <-] & H).
  apply mbind_Ok in H as ([] & g5 & H5 & H).
  apply mbind_Ok in H as (value & g6 & [= _ <-] & [= _ <-]).
  exists g1, g2. split; [exact H1|]. split; [exact H2|].
  unfold call_constructors in H5. simpl in H5.
  eapply call_constructors_last in H5 as (Hblocks & Hnext & Hmodule);
    [|reflexivity].
  simpl. split; [exact Hmodule|].
  rewrite Hblocks, Hnext. simpl.
  replace (length (basic_blocks g2)) with (length (basic_blocks g2) + 0)%nat
    by lia.
  rewrite alter_app_r. reflexivity.
Qed.

Lemma compile_function_declares func g u g' :
  compile_function func g = Ok (u, g') →
  llvm_module g `prefix_of` llvm_module g'
  ∧ declared_in (llvm_module g') (module_name (fd_signature func)).
Proof.
  intros H. unfold compile_function in H.
  destruct (lower_body func g) as [[llvm_func v1]|] eqn:Hbody;
    [|discriminate].
  apply lower_body_steps in Hbody as (g1 & u1 & Hdecl & Hvisit).
  pose proof (get_or_declare_function_declares _ _ _ _ _ Hdecl) as Hin.
  pose proof (rf_module _ _ (get_or_declare_function_frame _ _ _ _ _ Hdecl))
    as Hm1.
  pose proof (sf_module _ _ (visit_statement_frame _ _ _ _ Hvisit)) as Hm2.
  simpl in Hm2.
  assert (Hm3 : llvm_module (gen v1) `prefix_of` llvm_module g').
  { destruct (bool_decide _).
    - destruct (CreateRetVoid v1) as [[value v2]|] eqn:Hret; [|discriminate].
      injection H as _ <-. simpl.
      exact (sf_module _ _ (Insert_statement_frame _ _ _ _ Hret)).
    - injection H as _ <-. reflexivity. }
  split.
  - etrans; [exact Hm1|]. etrans; [exact Hm2 | exact Hm3].
  - eapply getFunction_prefix; [|exact Hin]. etrans; eauto.
Qed.

Lemma compile_functions_declare funcs :
  ∀ g u g',
    forM_ compile_function funcs g = Ok (u, g') →
    llvm_module g `prefix_of` llvm_module g'
    ∧ Forall
        (λ func,
           declared_in (llvm_module g') (module_name (fd_signature func)))
        funcs.
Proof.
  induction funcs as [|func funcs IH]; intros g u g' H; simpl in H.
  - injection H as <- <-. split; [reflexivity | constructor].
  - apply mbind_Ok in H as ([] & g1 & H1 & H2).
    apply compile_function_declares in H1 as (Hm1 & Hin).
    apply IH in H2 as (Hm2 & Hall).
    split; [etrans; eauto|]. constructor; [|exact Hall].
    eapply getFunction_prefix; eauto.
Qed.

(** No block of a laid-out module body belongs to a function the module
    does not have. *)
Lemma laid_out_no_blocks m n funcs runs :
  n ∉ fn_name <$> m →
  Forall (λ func, declared_in m (module_name (fd_signature func))) funcs →
  laid_out funcs runs →
  filter (λ b, bb_parent b = n) (concat runs) = [].
Proof.
  intros Hfree Hdecl Hruns. revert Hdecl.
  induction Hruns as [|func run funcs runs [_ Hown] _ IH]; [reflexivity|].
  intros [Hin Hdecl]%Forall_cons. simpl. rewrite filter_app, (IH Hdecl).
  rewrite app_nil_r. clear IH.
  induction Hown as [|b run Hb _ IHrun]; [reflexivity|].
  rewrite filter_cons_False; [exact IHrun|].
  intros Heq. rewrite Hb in Heq. unfold declared_in in Hin.
  rewrite Heq in Hin. contradiction.
Qed.

(** X15: the layout of a generated module.  After a successful
    [generate] the store holds the blocks it held, then one run of blocks
    per function definition of the body, in declaration order, each
    starting with an "entry" block and holding only blocks of that
    function (an extern gets no block), and last the single block of the
    entry function, which calls the recorded constructors in order and
    returns.  The entry function is the last function of the module, and
    its name is the name of no other function of the module; in a store
    that was empty it has no other block. *)
Theorem generated_module_layout (mod_body : list declaration)
    (g g' : code_generation) (u : unit) :
  generate mod_body g = Ok (u, g') →
  ∃ m runs n,
    let cs := constructor_functions g ++ constructors_of mod_body in
    laid_out (omap as_function mod_body) runs
    ∧ basic_blocks g'
      = basic_blocks g ++ concat runs ++ [entry_block m n cs]
    ∧ llvm_module g' = m ++ [entry_function m]
    ∧ (fn_name (entry_function m) ∉ fn_name <$> m)
    ∧ (basic_blocks g = [] →
       function_blocks g' (fn_name (entry_function m))
       = [entry_block m n cs]).
Proof.
  intros H. apply generate_stages in H as (g1 & g2 & H1 & H2 & Hm & Hb).
  pose proof (compile_extern_functions_frame _ _ _ _ H1)
    as [_ Hb1 Hc1 _ _].
  pose proof (compile_functions_blocks _ _ _ _ H2) as (runs & Hruns & Hb2).
  pose proof (compile_functions_declare _ _ _ _ H2) as (_ & Hdecl).
  pose proof (compile_functions_constructors _ _ _ _ H2) as Hc2.
  exists (llvm_module g2), runs, (next_inst g2). simpl.
  assert (Hfresh : unique_name (llvm_module g2) "entry"
                   ∉ fn_name <$> llvm_module g2).
  { apply getFunction_None; [|apply unique_name_fresh].
    apply unique_name_named. discriminate. }
  split; [exact Hruns|]. split; [|split; [exact Hm|split]].
  - rewrite Hb, Hb2, Hb1, <- app_assoc.
    unfold constructors_of. rewrite <- Hc1, <- Hc2. reflexivity.
  - exact Hfresh.
  - intros Hempty. unfold function_blocks.
    rewrite Hb, Hb2, Hb1, Hempty. simpl.
    rewrite filter_app, (laid_out_no_blocks _ _ _ _ Hfresh Hdecl Hruns).
    rewrite filter_cons_True by reflexivity.
    unfold constructors_of. rewrite <- Hc1, <- Hc2. reflexivity.
Qed.

Lemma generated_module_layout_witness :
  match generate loop_with_return (initial (IntegerTy 64)) with
  | Ok (_, g') =>
      ∃ m runs n,
        laid_out (omap as_function loop_with_return) runs
        ∧ basic_blocks g'
          = concat runs ++ [entry_block m n (constructors_of loop_with_return)]
        ∧ llvm_module g' = m ++ [entry_function m]
        ∧ (fn_name (entry_function m) ∉ fn_name <$> m)
        ∧ function_blocks g' (fn_name (entry_function m))
          = [entry_block m n (constructors_of loop_with_return)]
  | Throw _ => False
  end.
Proof.
  destruct (generate loop_with_return (initial (IntegerTy 64)))
    as [[[] g']|e] eqn:H.
  - destruct (generated_module_layout _ _ _ _ H)
      as (m & runs & n & Hruns & Hb & Hm & Hfresh & Hentry).
    exists m, runs, n. repeat split; auto.
  - vm_compute in H. discriminate H.
Defined.

(** ** Externs come first *)

(** A name other than the empty one that a function of the module has
    is found. *)
Lemma declared_in_found m n :
  n ≠ "" → declared_in m n → is_Some (getFunction m n).
Proof.
  intros Hn Hin. destruct (getFunction m n) eqn:Hfind; [eauto|].
  apply getFunction_None in Hfind; [contradiction | exact Hn].
Qed.

Lemma get_or_declare_function_module pos signature g f g' :
  get_or_declare_function pos signature g = Ok (f, g') →
  llvm_module g' = llvm_module g
  ∨ ∃ ft,
      llvm_module g'
      = llvm_module g ++
          [{| fn_name := module_name signature; fn_type := ft;
              fn_linkage := if is_extern signature then ExternalLinkage
                            else InternalLinkage |}].
Proof.
  intros H. unfold get_or_declare_function in H.
  fold (module_name signature) in H.
  destruct (getFunction (llvm_module g) (module_name signature)) eqn:Hfound.
  - injection H as _ <-. left. reflexivity.
  - apply mbind_Ok in H as (ft & g1 & Hft & Hcreate).
    injection Hcreate as _ <-. right. exists ft. simpl.
    rewrite (get_llvm_function_type_module _ _ _ _ _ Hft).
    rewrite unique_name_free by exact Hfound. reflexivity.
Qed.

Lemma compile_extern_functions_external funcs :
  Forall (λ func, is_extern (efd_signature func) = true) funcs →
  ∀ g u g',
    forM_ compile_extern_function funcs g = Ok (u, g') →
    Forall external (llvm_module g) →
    Forall external (llvm_module g')
    ∧ llvm_module g `prefix_of` llvm_module g'
    ∧ Forall
        (λ func,
           declared_in (llvm_module g') (name (efd_signature func)))
        funcs.
Proof.
  induction 1 as [|func funcs Hflag _ IH]; intros g u g' H Hext; simpl in H.
  - injection H as <- <-. split; [exact Hext|].
    split; [reflexivity | constructor].
  - apply mbind_Ok in H as ([] & g1 & H1 & H2).
    apply mbind_Ok in H1 as (f & g0 & H1 & [= <-]).
    pose proof (get_or_declare_function_declares _ _ _ _ _ H1) as Hin.
    pose proof (rf_module _ _ (get_or_declare_function_frame _ _ _ _ _ H1))
      as Hm1.
    unfold module_name in Hin. rewrite Hflag in Hin.
    assert (Hext1 : Forall external (llvm_module g0)).
    { destruct (get_or_declare_function_module _ _ _ _ _ H1)
        as [-> | (ft & ->)]; [exact Hext|].
      apply Forall_app. split; [exact Hext|].
      constructor; [|constructor]. unfold external. simpl.
      rewrite Hflag. reflexivity. }
    destruct (IH _ _ _ H2 Hext1) as (Hext2 & Hm2 & Hall).
    split; [exact Hext2|]. split; [etrans; eauto|].
    constructor; [|exact Hall]. eapply getFunction_prefix; eauto.
Qed.

(** X16: externs are declared before any function is lowered, so an
    extern's name always resolves to an external function.  When the
    module starts empty and the extern definitions carry the extern flag,
    then after [generate] the module has, for every extern of the body, an
    external function of its plain name, and when that name is not empty
    the function found under it is external, wherever the extern stands in
    the body and even if a function definition has the same module-level
    name.  The module has a function for every function definition of the
    body, and it is found under the definition's module-level name when
    that name is not empty. *)
Theorem externs_resolve_to_external_functions (mod_body : list declaration)
    (g g' : code_generation) (u : unit) :
  llvm_module g = [] →
  externs_flagged mod_body →
  generate mod_body g = Ok (u, g') →
  (∀ func, func ∈ omap as_extern_function mod_body →
     (∃ f, f ∈ llvm_module g'
           ∧ fn_name f = name (efd_signature func) ∧ external f)
     ∧ (name (efd_signature func) ≠ "" →
        ∃ f, getFunction (llvm_module g') (name (efd_signature func))
             = Some f
             ∧ external f))
  ∧ (∀ func, func ∈ omap as_function mod_body →
       declared_in (llvm_module g') (module_name (fd_signature func))
       ∧ (module_name (fd_signature func) ≠ "" →
          is_Some (getFunction (llvm_module g')
                     (module_name (fd_signature func))))).
Proof.
  intros Hempty Hflags H.
  apply generate_stages in H as (g1 & g2 & H1 & H2 & Hm & _).
  destruct (compile_extern_functions_external _ Hflags _ _ _ H1)
    as (Hext & _ & Hdecl1); [rewrite Hempty; constructor|].
  destruct (compile_functions_declare _ _ _ _ H2) as ([k Hk] & Hdecl2).
  split.
  - intros func Hin.
    pose proof (proj1 (Forall_forall _ _) Hdecl1 _ Hin) as Hdecl.
    split.
    + apply list_elem_of_fmap in Hdecl as (f & Hname & Hf).
      exists f. split; [|split].
      * rewrite Hm, Hk, <- app_assoc. apply elem_of_app. left. exact Hf.
      * symmetry. exact Hname.
      * exact (proj1 (Forall_forall _ _) Hext _ Hf).
    + intros Hnamed.
      destruct (declared_in_found _ _ Hnamed Hdecl) as [f Hf].
      exists f. split.
      * rewrite Hm, Hk, <- app_assoc. apply getFunction_app_Some. exact Hf.
      * apply (proj1 (Forall_forall _ _) Hext).
        eapply getFunction_Some_elem; eauto.
  - intros func Hin.
    assert (Hdecl : declared_in (llvm_module g')
                      (module_name (fd_signature func))).
    { eapply getFunction_prefix;
        [|exact (proj1 (Forall_forall _ _) Hdecl2 _ Hin)].
      rewrite Hm. apply prefix_app_r. reflexivity. }
    split; [exact Hdecl|].
    intros Hnamed. exact (declared_in_found _ _ Hnamed Hdecl).
Qed.

Lemma externs_resolve_to_external_functions_witness :
  match generate extern_and_definition (initial (IntegerTy 64)) with
  | Ok (_, g') =>
      ∃ f, getFunction (llvm_module g') "puts" = Some f ∧ external f
  | Throw _ => False
  end.
Proof.
  destruct (generate extern_and_definition (initial (IntegerTy 64)))
    as [[[] g']|e] eqn:H.
  - apply (externs_resolve_to_external_functions
             extern_and_definition (initial (IntegerTy 64)) g' tt eq_refl)
      with (func := {| efd_range := at_start; efd_signature := sig_puts |});
      [repeat constructor | exact H | | discriminate].
    apply list_elem_of_here.
  - vm_compute in H. discriminate H.
Defined.

(** ** The shape of a lowered loop *)

(** A gated branch at the end of block [bb]: the block gets the branch
    unless it ends in a terminator, and no other block changes. *)
Lemma gate_block bb k op v u v' b :
  when_no_terminator bb k v = Ok (u, v') →
  (∀ u' v'', k v = Ok (u', v'') →
     ∃ i, basic_blocks (gen v'')
          = alter (push_inst (i, op)) bb (basic_blocks (gen v))) →
  basic_blocks (gen v) !! bb = Some b →
  length (basic_blocks (gen v')) = length (basic_blocks (gen v))
  ∧ kept_except bb (gen v) (gen v')
  ∧ ∃ b', basic_blocks (gen v') !! bb = Some b'
          ∧ branch_unless_terminated b op b'.
Proof.
  intros H Hk Hb. unfold when_no_terminator in H.
  apply mbind_Ok in H as (term & v1 & [= <- <-] & H).
  unfold branch_unless_terminated. rewrite Hb in H. simpl in H.
  destruct (getTerminator b) as [term|].
  - injection H as _ <-. split; [reflexivity|].
    split; [apply kept_except_refl | eauto].
  - destruct (Hk _ _ H) as (i & Hg).
    split; [rewrite Hg; apply length_alter|].
    split; [eapply alter_push_kept; eauto|].
    exists (push_inst (i, op) b). split; [|eauto].
    rewrite Hg, list_lookup_alter_eq, Hb. reflexivity.
Qed.

Lemma gate_here_block bb op v u v' b :
  when_no_terminator bb (Insert op >> mret tt) v = Ok (u, v') →
  builder v = bb →
  basic_blocks (gen v) !! bb = Some b →
  length (basic_blocks (gen v')) = length (basic_blocks (gen v))
  ∧ kept_except bb (gen v) (gen v')
  ∧ ∃ b', basic_blocks (gen v') !! bb = Some b'
          ∧ branch_unless_terminated b op b'.
Proof.
  intros H Hbuilder. eapply gate_block; [exact H|].
  intros u' v'' Hk.
  apply mbind_Ok in Hk as (? & v2 & Hk & [= _ <-]).
  apply Insert_blocks in Hk as (_ & Hg). rewrite Hbuilder in Hg. eauto.
Qed.

Lemma gate_there_block bb op v u v' b :
  when_no_terminator bb (SetInsertPoint bb >> Insert op >> mret tt) v
    = Ok (u, v') →
  basic_blocks (gen v) !! bb = Some b →
  length (basic_blocks (gen v')) = length (basic_blocks (gen v))
  ∧ kept_except bb (gen v) (gen v')
  ∧ ∃ b', basic_blocks (gen v') !! bb = Some b'
          ∧ branch_unless_terminated b op b'.
Proof.
  intros H. eapply gate_block; [exact H|].
  intros u' v'' Hk.
  apply mbind_Ok in Hk as (? & v1 & [= <- <-] & Hk).
  apply mbind_Ok in Hk as (? & v2 & Hk & [= _ <-]).
  apply Insert_blocks in Hk as (_ & Hg). eauto.
Qed.



(** ** The shape of a lowered conditional *)



(** ** Returns and assignments *)

Lemma with_code_app b code code' :
  with_code (with_code b code) code' = with_code b (code ++ code').
Proof. unfold with_code; simpl. rewrite app_assoc. reflexivity. Qed.

Lemma Insert_at op v value v' b :
  Insert op v = Ok (value, v') →
  basic_blocks (gen v) !! builder v = Some b →
  value = Inst (next_inst (gen v)) op
  ∧ builder v' = builder v
  ∧ basic_blocks (gen v') !! builder v
    = Some (with_code b [(next_inst (gen v), op)]).
Proof.
  intros [= <- <-] Hb. simpl.
  rewrite list_lookup_alter_eq, Hb. auto.
Qed.






(** ** Arguments are passed as lowered; returns and assignments load *)

(** The code a statement adds to use the value [r] of an expression: the
    load of [r] and [op] on what was loaded when [r] is a stack slot,
    [op] on [r] itself otherwise. *)
Lemma read_then_insert r op v used s value v' b :
  (if isa_AllocaInst r then CreateLoad r else mret r) v = Ok (used, s) →
  Insert (op used) s = Ok (value, v') →
  basic_blocks (gen v) !! builder v = Some b →
  ∃ j k,
    basic_blocks (gen v') !! builder v
    = Some (with_code b
              (if isa_AllocaInst r
               then [(j, Load r); (k, op (Inst j (Load r)))]
               else [(k, op r)])).
Proof.
  intros Hread Hinsert Hb. destruct (isa_AllocaInst r).
  - destruct (Insert_at _ _ _ _ _ Hread Hb) as (-> & Hbuilder & Hb1).
    rewrite <- Hbuilder in Hb1.
    destruct (Insert_at _ _ _ _ _ Hinsert Hb1) as (_ & _ & Hb2).
    rewrite with_code_app, Hbuilder in Hb2. eexists _, _. exact Hb2.
  - injection Hread as <- <-.
    destruct (Insert_at _ _ _ _ _ Hinsert Hb) as (_ & _ & Hb2).
    exists 0%nat. eexists. exact Hb2.
Qed.

(** C10: the call instruction takes the values of the argument
    expressions as their lowering produced them, in order, and lowering
    the call adds no load anywhere; an argument that is a reference to a
    variable is therefore the stack slot itself.  A return and an
    assignment load first: when the value of the returned expression, or
    of the source of the assignment, is a stack slot, the builder's block
    gets, after the code of the expressions, a load from the slot and then
    the return, or the store, of what was loaded; a value that is no
    stack slot is returned or stored as it is.  A reference to a variable
    without a recorded slot is lowered to a stack slot, so returning it or
    assigning from it loads. *)
Theorem call_arguments_passed_as_lowered :
  (∀ rng function arguments v value v',
     visit_expression (call rng function arguments) v = Ok (value, v') →
     ∃ func v1 args v2,
       visit_expression function v = Ok (func, v1)
       ∧ mapM visit_expression arguments v1 = Ok (args, v2)
       ∧ value = Inst (next_inst (gen v2)) (Call func args)
       ∧ ∀ i, inst_in (gen v') i → is_load i.2 = true → inst_in (gen v) i)
  ∧ (∀ rng function vars v value v',
       Forall (λ var, variables v !! var_id var = None) vars →
       visit_expression (call rng function (variable_ref <$> vars)) v
         = Ok (value, v') →
       ∃ id func args,
         value = Inst id (Call func args)
         ∧ Forall (λ arg, isa_AllocaInst arg = true) args
         ∧ length args = length vars)
  ∧ (∀ e v u v' b0,
       basic_blocks (gen v) !! builder v = Some b0 →
       visit_statement (ret (Some e)) v = Ok (u, v') →
       ∃ r v1 code j k,
         visit_expression e v = Ok (r, v1)
         ∧ basic_blocks (gen v1) !! builder v = Some (with_code b0 code)
         ∧ basic_blocks (gen v') !! builder v
           = Some (with_code b0
                     (code ++
                        if isa_AllocaInst r
                        then [(j, Load r); (k, Ret (Inst j (Load r)))]
                        else [(k, Ret r)])%list))
  ∧ (∀ to from v u v' b0,
       basic_blocks (gen v) !! builder v = Some b0 →
       visit_statement (assignment to from) v = Ok (u, v') →
       ∃ target v1 source v2 code j k,
         visit_expression to v = Ok (target, v1)
         ∧ visit_expression from v1 = Ok (source, v2)
         ∧ basic_blocks (gen v2) !! builder v = Some (with_code b0 code)
         ∧ basic_blocks (gen v') !! builder v
           = Some (with_code b0
                     (code ++
                        if isa_AllocaInst source
                        then [(j, Load source);
                              (k, Store (Inst j (Load source)) target)]
                        else [(k, Store source target)])%list))
  ∧ (∀ var v slot v',
       variables v !! var_id var = None →
       visit_expression (variable_ref var) v = Ok (slot, v') →
       isa_AllocaInst slot = true).
Proof.
  assert (Hcall : ∀ rng function arguments v value v',
     visit_expression (call rng function arguments) v = Ok (value, v') →
     ∃ func v1 args v2,
       visit_expression function v = Ok (func, v1)
       ∧ mapM visit_expression arguments v1 = Ok (args, v2)
       ∧ value = Inst (next_inst (gen v2)) (Call func args)
       ∧ ∀ i, inst_in (gen v') i → is_load i.2 = true → inst_in (gen v) i).
  { intros rng function arguments v value v' H.
    pose proof (ef_loads _ _ (visit_expression_frame _ _ _ _ H)) as Hloads.
    simpl in H. apply mbind_Ok in H as (func & v1 & H1 & H).
    destruct (isa_Function func); [|discriminate].
    apply mbind_Ok in H as (args & v2 & H2 & H).
    apply Insert_Ok in H as (-> & _ & _).
    exists func, v1, args, v2. auto. }
  split; [exact Hcall | split; [|split; [|split]]].
  - intros rng function vars v value v' Hmiss H.
    apply Hcall in H as (func & v1 & args & v2 & H1 & H2 & -> & _).
    pose proof (ef_variables _ _ (visit_expression_frame _ _ _ _ H1)) as Hv.
    rewrite <- Hv in Hmiss.
    destruct (variable_arguments_are_slots _ _ _ _ Hmiss H2).
    eauto 6.
  - intros e v u v' b0 Hb0 H. simpl in H.
    apply mbind_Ok in H as (r & s1 & Hvalue & H).
    apply mbind_Ok in H as (used & s2 & Hread & H).
    apply mbind_Ok in H as (value & s3 & Hret & [= _ <-]).
    pose proof (straight_line_visit_expression _ _ _ _ Hvalue)
      as [Hbuilder1 _ _ _ (code & _ & Hb1)].
    specialize (Hb1 _ Hb0). fold (with_code b0 code) in Hb1.
    rewrite <- Hbuilder1 in Hb1.
    destruct (read_then_insert _ Ret _ _ _ _ _ _ Hread Hret Hb1)
      as (j & k & Hb2).
    rewrite with_code_app, Hbuilder1 in Hb2.
    rewrite Hbuilder1 in Hb1. eauto 10.
  - intros to from v u v' b0 Hb0 H. simpl in H.
    apply mbind_Ok in H as (target & s1 & Hto & H).
    apply mbind_Ok in H as (source & s2 & Hfrom & H).
    apply mbind_Ok in H as (used & s3 & Hread & H).
    apply mbind_Ok in H as (value & s4 & Hstore & [= _ <-]).
    pose proof (straight_line_visit_expression _ _ _ _ Hto)
      as [Hbuilder1 _ _ _ (code_to & _ & Hb1)].
    specialize (Hb1 _ Hb0). fold (with_code b0 code_to) in Hb1.
    rewrite <- Hbuilder1 in Hb1.
    pose proof (straight_line_visit_expression _ _ _ _ Hfrom)
      as [Hbuilder2 _ _ _ (code_from & _ & Hb2)].
    specialize (Hb2 _ Hb1).
    fold (with_code (with_code b0 code_to) code_from) in Hb2.
    rewrite with_code_app in Hb2. rewrite <- Hbuilder2 in Hb2.
    destruct (read_then_insert _ (λ x, Store x target) _ _ _ _ _ _
                Hread Hstore Hb2) as (j & k & Hb3).
    rewrite with_code_app, Hbuilder2, Hbuilder1 in Hb3.
    rewrite Hbuilder2, Hbuilder1 in Hb2.
    exists target, s1, source, s2, (code_to ++ code_from)%list, j, k.
    auto.
  - intros var v slot v' Hmiss H.
    exact (visit_variable_ref_slot _ _ _ _ Hmiss H).
Qed.

Lemma call_arguments_passed_as_lowered_witness :
  match
    visit_expression
      (call at_start (symbol_wrapper at_start sig_p_i32)
         (variable_ref <$> [x_i32])) fresh_visitor,
    visit_statement return_variable fresh_visitor
  with
  | Ok (value, _), Ok (_, v') =>
      (∃ id func args,
         value = Inst id (Call func args)
         ∧ Forall (λ arg, isa_AllocaInst arg = true) args
         ∧ length args = length [x_i32])
      ∧ ∃ r v1 code j k,
          visit_expression (variable_ref x_i32) fresh_visitor = Ok (r, v1)
          ∧ isa_AllocaInst r = true
          ∧ basic_blocks (gen v1) !! 0%nat
            = Some (with_code
                      {| bb_name := "entry"; bb_parent := "f";
                         bb_insts := [] |} code)
          ∧ basic_blocks (gen v') !! 0%nat
            = Some (with_code
                      {| bb_name := "entry"; bb_parent := "f";
                         bb_insts := [] |}
                      (code ++ [(j, Load r); (k, Ret (Inst j (Load r)))]))
  | _, _ => False
  end.
Proof.
  destruct (visit_expression _ fresh_visitor) as [[value v0]|e] eqn:H;
    [|vm_compute in H; discriminate H].
  destruct (visit_statement return_variable fresh_visitor)
    as [[[] v']|e] eqn:H'; [|vm_compute in H'; discriminate H'].
  destruct call_arguments_passed_as_lowered
    as (_ & Hargs & Hret & _ & Hslot).
  split.
  - apply (Hargs at_start (symbol_wrapper at_start sig_p_i32) [x_i32]
             fresh_visitor value v0); [|exact H].
    repeat constructor.
  - destruct (Hret (variable_ref x_i32) fresh_visitor tt v' _ eq_refl H')
      as (r & v1 & code & j & k & Hr & Hb1 & Hb).
    pose proof (Hslot x_i32 fresh_visitor r v1 eq_refl Hr) as Hr'.
    rewrite Hr' in Hb. exists r, v1, code, j, k. auto.
Defined.

(** ** Where [generate] fails *)

Lemma forM_Throw {S A} (f : A → M S unit) (l : list A) :
  ∀ s e, forM_ f l s = Throw e ↔ first_failure f l s e.
Proof.
  induction l as [|a l IH]; intros s e; simpl.
  - split; [discriminate|].
    intros (done & x & rest & s0 & Hl & _). destruct done; discriminate.
  - unfold mbind at 1. split.
    + destruct (f a s) as [[[] s1]|e1] eqn:Ha.
      * intros (done & x & rest & s0 & -> & Hdone & Hx)%IH.
        exists (a :: done), x, rest, s0. split; [reflexivity|].
        split; [|exact Hx]. simpl. unfold mbind. rewrite Ha. exact Hdone.
      * intros [= <-]. exists [], a, l, s. auto.
    + intros (done & x & rest & s0 & Hl & Hdone & Hx).
      destruct done as [|a' done]; simpl in Hl; injection Hl as <- ->.
      * injection Hdone as <-. rewrite Hx. reflexivity.
      * simpl in Hdone. apply mbind_Ok in Hdone as ([] & s1 & Ha & Hdone).
        rewrite Ha. apply IH. exists done, x, rest, s0. auto.
Qed.

(** Creating the entry function, its block, the calls of the constructors
    and the return cannot fail. *)
Lemma call_constructors_total bb cs :
  ∀ g, ∃ g',
    forM_ (λ constructor_func,
             builder_insert bb (Call constructor_func []) >> mret tt)
      cs g = Ok (tt, g').
Proof.
  induction cs as [|c cs IH]; intros g; simpl; [eauto|].
  unfold mbind at 1. simpl. apply IH.
Qed.

(** X21: [generate] fails exactly where the first definition fails, the
    externs being taken before the function definitions: it raises [e] if
    and only if lowering the externs in order stops at an extern that
    raises [e], or all externs are lowered and lowering the function
    definitions in order stops at a function that raises [e].  Nothing
    [generate] does after that, the entry function included, can fail. *)
Theorem generate_fails_at_first_failing_definition
    (mod_body : list declaration) (g : code_generation) (e : exception) :
  generate mod_body g = Throw e
  ↔ first_failure compile_extern_function
      (omap as_extern_function mod_body) g e
    ∨ ∃ g1,
        forM_ compile_extern_function (omap as_extern_function mod_body) g
        = Ok (tt, g1)
        ∧ first_failure compile_function (omap as_function mod_body) g1 e.
Proof.
  unfold generate, collect. rewrite collect_from. simpl.
  unfold mbind at 1.
  destruct (forM_ compile_extern_function _ g) as [[[] g1]|e1] eqn:H1.
  - unfold mbind at 1.
    destruct (forM_ compile_function _ g1) as [[[] g2]|e2] eqn:H2.
    + split.
      * unfold mbind, Function_Create, BasicBlock_Create, call_constructors.
        simpl.
        match goal with
        | |- context [forM_ ?f ?cs ?s] =>
            destruct (call_constructors_total
                        (length (basic_blocks g2)) cs s) as [g' ->]
        end.
        discriminate.
      * intros [Hfail | (g1' & [= <-] & Hfail)].
        -- apply forM_Throw in Hfail. rewrite H1 in Hfail. discriminate.
        -- apply forM_Throw in Hfail. rewrite H2 in Hfail. discriminate.
    + split.
      * intros [= <-]. right. exists g1. split; [reflexivity|].
        apply forM_Throw. exact H2.
      * intros [Hfail | (g1' & [= <-] & Hfail)].
        -- apply forM_Throw in Hfail. rewrite H1 in Hfail. discriminate.
        -- apply forM_Throw in Hfail. rewrite H2 in Hfail. exact Hfail.
  - split.
    + intros [= <-]. left. apply forM_Throw. exact H1.
    + intros [Hfail | (g1' & [=] & _)].
      apply forM_Throw in Hfail. rewrite H1 in Hfail. exact Hfail.
Qed.

(** ** Binary operations *)




(** ** The shape of a lowered conditional with an else branch *)



(** ** The exceptions of the code generator *)

Lemma raises_only_mbind {S A B} (P : exception → Prop) (m : M S A)
    (k : A → M S B) :
  raises_only P m → (∀ a, raises_only P (k a)) →
  raises_only P (mbind m k).
Proof.
  intros Hm Hk s e H. unfold mbind in H.
  destruct (m s) as [[a s']|e'] eqn:Hms.
  - exact (Hk _ _ _ H).
  - injection H as <-. exact (Hm _ _ Hms).
Qed.

Lemma raises_only_lift_result {S A} (P : exception → Prop) (r : result A) :
  (∀ e, r = Throw e → P e) → raises_only P (@lift_result S A r).
Proof.
  intros Hr s e H. unfold lift_result in H. destruct r; [discriminate|].
  injection H as <-. auto.
Qed.

Lemma raises_only_on_gen {A} (P : exception → Prop)
    (m : M code_generation A) :
  raises_only P m → raises_only P (on_gen m).
Proof.
  intros Hm v e H. unfold on_gen in H.
  destruct (m (gen v)) as [[a g]|e'] eqn:Hmg; [discriminate|].
  injection H as <-. exact (Hm _ _ Hmg).
Qed.

Lemma raises_only_mapM {S A B} (P : exception → Prop) (f : A → M S B)
    (l : list A) :
  Forall (λ a, raises_only P (f a)) l → raises_only P (mapM f l).
Proof.
  induction 1 as [|a l Ha _ IH]; simpl; [discriminate|].
  apply raises_only_mbind; [exact Ha | intros b].
  apply raises_only_mbind; [exact IH | discriminate].
Qed.

Lemma raises_only_forM_ {S A} (P : exception → Prop) (f : A → M S unit)
    (l : list A) :
  Forall (λ a, raises_only P (f a)) l → raises_only P (forM_ f l).
Proof.
  induction 1 as [|a l Ha _ IH]; simpl; [discriminate|].
  apply raises_only_mbind; [exact Ha | intros _; exact IH].
Qed.

Lemma raises_only_Insert (P : exception → Prop) op :
  raises_only P (Insert op).
Proof. discriminate. Qed.

Lemma raises_only_when_no_terminator (P : exception → Prop) bb k :
  raises_only P k → raises_only P (when_no_terminator bb k).
Proof.
  intros Hk. apply raises_only_mbind; [discriminate|].
  intros [t|]; [discriminate | exact Hk].
Qed.

Ltac catalogue :=
  right; right; eexists _, _; split; [reflexivity|];
  unfold compiler_errors;
  repeat first [apply list_elem_of_here | apply list_elem_of_further].

Lemma get_llvm_type_raises size_type t e :
  get_llvm_type size_type t = Throw e → catalogued e.
Proof.
  destruct t as [[]|]; simpl; intros [= <-];
    [catalogue | left; reflexivity].
Qed.

Lemma lower_parameters_raises size_type pos params e :
  lower_parameters size_type pos params = Throw e → catalogued e.
Proof.
  induction params as [|param params IH]; simpl; [discriminate|].
  destruct (get_llvm_type _ _) as [ty|e'] eqn:Hty.
  - destruct (isValidArgumentType ty).
    + destruct (lower_parameters _ _ params) as [tys|e'];
        [discriminate|].
      intros [= <-]. auto.
    + intros [= <-]. catalogue.
  - intros [= <-]. eapply get_llvm_type_raises; eauto.
Qed.

Lemma get_llvm_function_type_raises pos signature :
  raises_only catalogued (get_llvm_function_type pos signature).
Proof.
  intros g e. unfold get_llvm_function_type.
  destruct (function_type_map g !! mangled_name signature); [discriminate|].
  destruct (get_llvm_type _ _) as [rt|e'] eqn:Hrt.
  - rewrite (proj1 (lowered_type_valid _ _ _ Hrt)).
    destruct (lower_parameters _ _ _) as [tys|e'] eqn:Htys; [discriminate|].
    intros [= <-]. eapply lower_parameters_raises; eauto.
  - intros [= <-]. eapply get_llvm_type_raises; eauto.
Qed.

Lemma get_or_declare_function_raises pos signature :
  raises_only catalogued (get_or_declare_function pos signature).
Proof.
  intros g e. unfold get_or_declare_function.
  destruct (getFunction _ _); [discriminate|].
  apply raises_only_mbind;
    [apply get_llvm_function_type_raises | discriminate].
Qed.

Lemma visit_number_literal_raises rng value eval_type e :
  visit_number_literal rng value eval_type = Throw e → catalogued e.
Proof.
  destruct value, eval_type as [[]|]; simpl; intros [= <-];
    first [right; left; reflexivity | catalogue].
Qed.

Lemma visit_expression_raises (node : expression) :
  raises_only catalogued (visit_expression node).
Proof.
  induction node as
    [rng signature | rng function arguments IHf IHargs | value | var
    | rng value eval_type | rng l operation r IHl IHr]
    using expression_nested_ind; simpl.
  - apply raises_only_on_gen, get_or_declare_function_raises.
  - apply raises_only_mbind; [exact IHf | intros value].
    destruct (isa_Function value).
    + apply raises_only_mbind;
        [apply raises_only_mapM; exact IHargs | intros vals].
      apply raises_only_Insert.
    + intros v e [= <-]. catalogue.
  - discriminate.
  - intros v e. unfold visit_variable_ref.
    destruct (variables v !! var_id var); [discriminate|].
    apply raises_only_mbind; [|intros ty; apply raises_only_Insert].
    apply raises_only_lift_result. apply get_llvm_type_raises.
  - apply raises_only_lift_result. apply visit_number_literal_raises.
  - apply raises_only_mbind; [exact IHl | intros lhs].
    apply raises_only_mbind; [exact IHr | intros rhs].
    destruct (visit_binary_operation_cases rng operation lhs rhs)
      as [(_ & ->) | (_ & op & _ & _ & _ & _ & ->)].
    + intros v e [= <-]. catalogue.
    + destruct (_ && _); [discriminate | apply raises_only_Insert].
Qed.

(** Take a lowering apart into its steps: the visits of expressions and
    of nested statements may fail, nothing else does. *)
Ltac raises_steps IH :=
  repeat first
    [ exact IH
    | apply visit_expression_raises
    | apply raises_only_Insert
    | apply raises_only_when_no_terminator
    | apply raises_only_mbind; [|intros ?]
    | match goal with
      | |- raises_only _ (if ?c then _ else _) => destruct c
      | |- raises_only _ (match ?o with Some _ => _ | None => _ end) =>
          destruct o
      end
    | discriminate ].

Lemma visit_statement_raises (node : statement) :
  raises_only catalogued (visit_statement node).
Proof.
  induction node as
    [condition body IH | to from | condition main_body else_body IH
    | e | value | body IH] using statement_nested_ind; simpl.
  - raises_steps IH.
  - raises_steps I.
  - raises_steps IH.
  - raises_steps I.
  - destruct value; raises_steps I.
  - apply raises_only_forM_. exact IH.
Qed.

Lemma compile_function_raises func :
  raises_only catalogued (compile_function func).
Proof.
  intros g e. unfold compile_function, lower_body.
  destruct (get_or_declare_function _ _ g) as [[f g1]|e1] eqn:H1.
  - simpl.
    match goal with
    | |- context [visit_statement ?b ?v0] =>
        destruct (visit_statement b v0) as [[u v1]|e2] eqn:H2
    end.
    + destruct (bool_decide _); discriminate.
    + intros [= <-]. exact (visit_statement_raises _ _ _ H2).
  - intros [= <-]. exact (get_or_declare_function_raises _ _ _ _ H1).
Qed.

Lemma compile_extern_function_raises func :
  raises_only catalogued (compile_extern_function func).
Proof.
  apply raises_only_mbind;
    [apply get_or_declare_function_raises | discriminate].
Qed.

Lemma generate_raises mod_body :
  raises_only catalogued (generate mod_body).
Proof.
  unfold generate.
  apply raises_only_mbind.
  { apply raises_only_forM_, Forall_forall. intros func _.
    apply compile_extern_function_raises. }
  intros _. apply raises_only_mbind.
  { apply raises_only_forM_, Forall_forall. intros func _.
    apply compile_function_raises. }
  intros _. apply raises_only_mbind; [discriminate | intros f].
  apply raises_only_mbind; [discriminate | intros bb].
  apply raises_only_mbind.
  { intros g e. unfold call_constructors.
    apply raises_only_forM_, Forall_forall. intros c _.
    apply raises_only_mbind; discriminate. }
  intros _. apply raises_only_mbind; discriminate.
Qed.

(** X23: the exceptions of the code generator.  Whatever the module
    body, an exception raised by [generate] (and so by the lowering of
    any function, statement or expression in it) is the runtime error for
    class types, [std::bad_variant_access] (a number literal of class
    type), or a compiler exception whose message is "internal compiler
    error: " followed by one of: unknown type, invalid parameter type,
    expected function for call, unknown integer type, unknown floating
    point type, unknown number type, invalid binary operation.  The
    message "invalid return type" is never raised. *)
Theorem generate_raises_catalogued_exceptions
    (mod_body : list declaration) (g : code_generation) (e : exception) :
  generate mod_body g = Throw e →
  catalogued e
  ∧ ∀ pos,
      e ≠ compiler_exception pos
            "internal compiler error: invalid return type".
Proof.
  intros H. pose proof (generate_raises _ _ _ H) as He.
  split; [exact He|].
  intros pos ->. destruct He as [He | [He | (pos' & what & He & Hin)]];
    try discriminate He.
  injection He as _ He. unfold compiler_errors in Hin.
  repeat (apply elem_of_cons in Hin as [-> | Hin]; [discriminate He|]).
  apply elem_of_nil in Hin. exact Hin.
Qed.

Lemma generate_raises_catalogued_exceptions_witness :
  catalogued (runtime_error "TODO: class types are not supported").
Proof.
  apply (generate_raises_catalogued_exceptions class_parameter_module
           (initial (IntegerTy 64))).
  reflexivity.
Defined.

(** ** Every block but the one lowering falls out of ends in a terminator *)

Lemma kept_closed t g g' i :
  kept_except t g g' → i ≠ t → closed_at i g → closed_at i g'.
Proof. intros Hk Hi (b & Hb & Hclosed). exists b; split; auto. Qed.

Lemma tidy_getTerminator_Some b t :
  tidy b → getTerminator b = Some t → closed b.
Proof.
  intros [Hopen | Hclosed] Ht; [|exact Hclosed]. exfalso.
  unfold getTerminator in Ht.
  destruct (last (bb_insts b)) as [i|] eqn:Hlast; [|discriminate].
  destruct (isTerminator i.2) eqn:Hi; [|discriminate].
  apply last_Some in Hlast as (body & Hb). unfold open in Hopen.
  rewrite Hb in Hopen. apply Forall_app in Hopen as (_ & Hi').
  apply Forall_cons in Hi' as (Hi' & _). unfold quiet in Hi'. congruence.
Qed.

(** A gate that requests a terminator leaves a tidy block closed, whether
    the request takes place or not. *)
Lemma branch_closes b op b' :
  tidy b → isTerminator op = true →
  branch_unless_terminated b op b' → closed b'.
Proof.
  intros Htidy Hop. unfold branch_unless_terminated.
  destruct (getTerminator b) as [t|] eqn:Ht.
  - intros ->. eapply tidy_getTerminator_Some; eauto.
  - intros (i & ->). apply open_push_terminator; [|exact Hop].
    apply tidy_getTerminator_None; auto.
Qed.

Lemma Insert_closes op v value v' :
  Insert op v = Ok (value, v') →
  isTerminator op = true →
  open_at (builder v) (gen v) → closed_at (builder v) (gen v').
Proof.
  intros H Hop (b & Hb & Hopen). apply Insert_blocks in H as (_ & Hg).
  exists (push_inst (next_inst (gen v), op) b). split.
  - rewrite Hg, list_lookup_alter_eq, Hb. reflexivity.
  - apply open_push_terminator; auto.
Qed.

Lemma gate_there_closes bb op v u v' :
  when_no_terminator bb (SetInsertPoint bb >> Insert op >> mret tt) v
    = Ok (u, v') →
  isTerminator op = true →
  tidy_blocks (gen v) →
  (bb < length (basic_blocks (gen v)))%nat →
  closed_at bb (gen v').
Proof.
  intros H Hop Htidy Hbb. destruct (lookup_lt_is_Some_2 _ _ Hbb) as [b Hb].
  destruct (gate_there_block _ _ _ _ _ _ H Hb)
    as (_ & _ & b' & Hb' & Hbranch).
  exists b'. split; [exact Hb'|]. eapply branch_closes; eauto.
Qed.

Lemma gate_here_closes bb op v u v' :
  when_no_terminator bb (Insert op >> mret tt) v = Ok (u, v') →
  isTerminator op = true →
  builder v = bb →
  tidy_blocks (gen v) →
  (bb < length (basic_blocks (gen v)))%nat →
  closed_at bb (gen v').
Proof.
  intros H Hop Hbuilder Htidy Hbb.
  destruct (lookup_lt_is_Some_2 _ _ Hbb) as [b Hb].
  destruct (gate_here_block _ _ _ _ _ _ H Hbuilder Hb)
    as (_ & _ & b' & Hb' & Hbranch).
  exists b'. split; [exact Hb'|]. eapply branch_closes; eauto.
Qed.

(** Record, for every step that requests a terminator, the block it
    leaves closed. *)
Ltac closing_facts :=
  repeat
    match goal with
    | H : when_no_terminator ?bb (SetInsertPoint _ >> _ >> mret tt) ?v
          = Ok (_, ?v') |- _ =>
        lazymatch goal with
        | _ : tidy_blocks (gen v) → _ → closed_at bb (gen v') |- _ => fail
        | _ => pose proof (gate_there_closes _ _ _ _ _ H eq_refl)
        end
    | H : when_no_terminator ?bb (_ >> mret tt) ?v = Ok (_, ?v') |- _ =>
        lazymatch goal with
        | _ : tidy_blocks (gen v) → _ → closed_at bb (gen v') |- _ => fail
        | _ : builder v = bb → _ → _ → closed_at bb (gen v') |- _ => fail
        | _ => pose proof (gate_here_closes _ _ _ _ _ H eq_refl)
        end
    | H : _ ?v = Ok (_, ?v') |- _ =>
        lazymatch goal with
        | _ : open_at (builder v) (gen v) → closed_at (builder v) (gen v')
          |- _ => fail
        | _ => pose proof (Insert_closes _ _ _ _ H eq_refl)
        end
    end.

(** Replace every step of a lowering by what it does to the blocks, the
    nested statements being settled. *)
Ltac closed_block_facts IH Hlast Hsettled :=
  repeat
    match goal with
    | H : visit_statement _ ?s = Ok (_, ?s') |- _ =>
        pose proof (sf_blocks _ _ (visit_statement_frame _ _ _ _ H));
        pose proof (visit_statement_tidy _ _ _ _ H Hlast);
        pose proof (IH _ _ _ H Hlast Hsettled);
        clear H
    end;
  block_facts IH Hlast.

(** Use what is known of each nested statement, first to last. *)
Ltac settle_closed :=
  repeat
    match goal with
    | H : tidy_blocks ?g → open_at ?i ?g → lowered_tidily _ _ _ |- _ =>
        let Ht := fresh "Ht" in
        let Ho := fresh "Ho" in
        assert (Ht : tidy_blocks g) by chase;
        assert (Ho : open_at i g) by chase;
        specialize (H Ht Ho); destruct H as [? ? ? ?];
        repeat
          match goal with
          | H' : tidy_blocks g → open_at i g → lowered_closed _ _ _ |- _ =>
              specialize (H' Ht Ho); destruct H' as [? ? ? ? ?]
          end;
        cbn [gen builder] in *
    end.

(** Decide how a nested body ends, and keep of what is known of it the
    part that applies. *)
Ltac body_ends body :=
  destruct (stays_put body) eqn:?, (terminates_block body) eqn:?;
  try discriminate;
  repeat
    match goal with
    | H : true = true → _ |- _ => specialize (H eq_refl)
    | H : false = false → _ |- _ => specialize (H eq_refl)
    | H : true = false → _ |- _ => clear H
    | H : false = true → _ |- _ => clear H
    | H : _ ∧ _ |- _ => destruct H
    end.

(** Follow a closed block through the steps after the one that closed
    it. *)
Ltac closed_goal :=
  first
    [ assumption
    | match goal with
      | H : _ |- closed_at _ _ => apply H; solve [chase]
      | H : kept_except ?t ?g ?g' |- closed_at ?i ?g' =>
          apply (kept_closed t g g' i H); [lia | closed_goal]
      | H : _ → kept_except ?t ?g ?g' |- closed_at ?i ?g' =>
          apply (kept_closed t g g' i);
            [apply H; solve [chase] | lia | closed_goal]
      end ].

Lemma stays_put_cons s body :
  stays_put (normal_block (s :: body))
  = stays_put s && stays_put (normal_block body).
Proof. reflexivity. Qed.

Lemma terminates_block_cons s body :
  terminates_block (normal_block (s :: body))
  = terminates_block s || terminates_block (normal_block body).
Proof. reflexivity. Qed.

Lemma settled_cons s body :
  settled (normal_block (s :: body))
  = settled s && settled (normal_block body).
Proof. reflexivity. Qed.

(** A sequence of statements, given the property for each of them. *)
Lemma visit_statements_closed (body : list statement) :
  Forall
    (λ s, ∀ v u v',
       visit_statement s v = Ok (u, v') →
       returns_last s = true →
       settled s = true →
       tidy_blocks (gen v) →
       open_at (builder v) (gen v) →
       lowered_closed s v v') body →
  ∀ v u v',
    forM_ visit_statement body v = Ok (u, v') →
    returns_last (normal_block body) = true →
    settled (normal_block body) = true →
    tidy_blocks (gen v) →
    open_at (builder v) (gen v) →
    lowered_closed (normal_block body) v v'.
Proof.
  induction 1 as [|s body Hs _ IHbody];
    intros v u v' H Hlast Hsettled Htidy Hopen.
  - injection H as <- <-. split; simpl; try discriminate; auto.
    + intros i ? ?. lia.
    + intros Hne. destruct Hne. reflexivity.
  - simpl in H. apply mbind_Ok in H as ([] & v1 & H1 & H2).
    rewrite settled_cons in Hsettled.
    apply andb_true_iff in Hsettled as (Hs_settled & Hrest_settled).
    simpl in Hlast.
    apply andb_true_iff in Hlast as ((Hs_last & Hnext)%andb_true_iff & Hrest).
    pose proof (sf_blocks _ _ (visit_statement_frame _ _ _ _ H1)) as Hlen.
    destruct (visit_statement_tidy _ _ _ _ H1 Hs_last Htidy Hopen)
      as [Ht1 Ho1 Hk1 Hb1].
    destruct (Hs _ _ _ H1 Hs_last Hs_settled Htidy Hopen)
      as [Hnew1 Hstart1 Hlast1 Hstays1 Hmoves1].
    pose proof Hopen as (b0 & Hvalid%lookup_lt_Some & _).
    destruct body as [|s2 rest].
    + injection H2 as <- <-.
      split; rewrite ?stays_put_cons, ?terminates_block_cons; simpl;
        rewrite ?orb_false_r, ?andb_true_r; auto.
    + apply negb_true_iff in Hnext. specialize (Ho1 Hnext).
      pose proof (sf_blocks _ _
                    (visit_statement_frame (normal_block (s2 :: rest))
                       _ _ _ H2)) as Hlen2.
      assert (Hrest_tidy : lowered_tidily (normal_block (s2 :: rest)) v1 v').
      { apply (visit_statement_tidy (normal_block (s2 :: rest)) _ _ _ H2);
          auto. }
      destruct Hrest_tidy as [Ht2 Ho2 Hk2 Hb2].
      destruct (IHbody _ _ _ H2 Hrest Hrest_settled Ht1 Ho1)
        as [Hnew2 Hstart2 Hlast2 Hstays2 Hmoves2].
      split; rewrite ?stays_put_cons, ?terminates_block_cons, ?Hnext;
        simpl orb.
      * intros i Hge Hlt Hne.
        destruct (decide (length (basic_blocks (gen v1)) ≤ i)%nat);
          [apply Hnew2; auto|].
        destruct (decide (i = builder v1)) as [->|Hi];
          [apply Hstart2; auto|].
        apply (kept_closed _ _ _ _ Hk2 Hi). apply Hnew1; auto. lia.
      * intros Hne. destruct (decide (builder v1 = builder v)) as [Heq|Hne1].
        -- rewrite <- Heq. apply Hstart2. congruence.
        -- apply (kept_closed _ _ _ _ Hk2); [|auto].
           destruct Hb1 as [Hb1 | Hb1]; [contradiction|lia].
      * exact Hlast2.
      * intros (Hs_stays & Hrest_stays)%andb_true_iff.
        destruct (Hstays1 Hs_stays), (Hstays2 Hrest_stays).
        split; congruence.
      * intros Hmoved. destruct (stays_put s) eqn:Hs_stays.
        -- destruct (Hstays1 eq_refl) as (_ & Hsame).
           destruct (Hmoves2 Hmoved). split; lia.
        -- destruct (Hmoves1 eq_refl) as (Hl1 & Hge1).
           destruct (stays_put (normal_block (s2 :: rest))) eqn:Hrest_stays.
           ++ destruct (Hstays2 eq_refl) as (Hb & Hl). split; lia.
           ++ destruct (Hmoves2 eq_refl). split; lia.
Qed.

Lemma visit_statement_closed (node : statement) :
  ∀ v u v',
    visit_statement node v = Ok (u, v') →
    returns_last node = true →
    settled node = true →
    tidy_blocks (gen v) →
    open_at (builder v) (gen v) →
    lowered_closed node v v'.
Proof.
  induction node as
    [condition body IH | to from | condition main_body else_body IH
    | e | value | body IH] using statement_nested_ind;
    intros v u v' H Hlast Hsettled Htidy Hopen;
    pose proof Hopen as (b0 & Hb0%lookup_lt_Some & _); simpl in H.
  - simpl in Hlast, Hsettled.
    apply andb_true_iff in Hsettled as (Hsettled & Hends).
    split_binds H. closing_facts. closed_block_facts IH Hlast Hsettled.
    settle_closed. body_ends body; use_builders.
    all: split; cbn [gen builder stays_put terminates_block];
      try discriminate; try (intros _; split; lia).
    all: try (intros _; closed_goal).
    all: intros i ? ? ?.
    all: destruct (decide (i = length (basic_blocks (gen v)))) as [->|];
      [closed_goal|].
    all: destruct (decide (i = length (basic_blocks (gen s4)))) as [->|];
      [closed_goal|].
    all: try (exfalso; lia).
    destruct (decide (i = builder s7)) as [->|]; closed_goal.
  - split_binds H; closing_facts; block_facts IH Hlast;
      (split; cbn [gen builder stays_put terminates_block];
         try discriminate; intros; try (exfalso; lia); split; lia).
  - simpl in Hlast, Hsettled.
    apply andb_true_iff in Hsettled as (Hsettled & Hends).
    destruct else_body as [else_body|].
    + split_binds H. closing_facts. closed_block_facts IH Hlast Hsettled.
      settle_closed. body_ends main_body; use_builders.
      all: split; cbn [gen builder stays_put terminates_block];
        try discriminate; try (intros _; split; lia).
      all: try (intros _; closed_goal).
      all: intros i ? ? ?.
      all: destruct (decide (i = length (basic_blocks (gen s)))) as [->|];
        [closed_goal|].
      all: destruct (decide (i = length (basic_blocks (gen s4)))) as [->|];
        [closed_goal|].
      all: try (exfalso; lia).
      destruct (decide (i = builder s4)) as [->|]; [closed_goal|].
      destruct (decide (i = builder s7)) as [->|]; [closed_goal|].
      destruct (decide (i < length (basic_blocks (gen s4)))%nat);
        closed_goal.
    + split_binds H. closing_facts. closed_block_facts IH Hlast Hsettled.
      settle_closed. body_ends main_body; use_builders.
      all: split; cbn [gen builder stays_put terminates_block];
        try discriminate; try (intros _; split; lia).
      all: try (intros _; closed_goal).
      all: intros i ? ? ?.
      all: destruct (decide (i = length (basic_blocks (gen s)))) as [->|];
        [closed_goal|].
      all: try (exfalso; lia).
      destruct (decide (i = builder s4)) as [->|]; closed_goal.
  - split_binds H; closing_facts; block_facts IH Hlast;
      (split; cbn [gen builder stays_put terminates_block];
         try discriminate; intros; try (exfalso; lia); split; lia).
  - destruct value; split_binds H; closing_facts; block_facts IH Hlast;
      use_builders;
      (split; cbn [gen builder stays_put terminates_block];
         try discriminate; intros; try (exfalso; lia);
         try (split; lia)).
    all: use_builders; closed_goal.
  - apply (visit_statements_closed body IH v u v' H Hlast Hsettled Htidy
             Hopen).
Qed.

(** A store whose blocks from [length old] up to the last are closed:
    the new blocks are a run of closed blocks and the last block. *)
Lemma run_of_lookups (old run : list BasicBlock) (k : nat) :
  length (old ++ run) = S k →
  (length old ≤ k)%nat →
  (∀ i, (length old ≤ i)%nat → (i < k)%nat →
        ∃ b, (old ++ run) !! i = Some b ∧ closed b) →
  ∃ init last,
    run = init ++ [last]
    ∧ Forall closed init
    ∧ (old ++ run) !! k = Some last.
Proof.
  intros Hlen Hk Hclosed. rewrite length_app in Hlen.
  destruct (last run) as [last|] eqn:Hlast.
  - apply last_Some in Hlast as (init & ->).
    rewrite length_app in Hlen. simpl in Hlen.
    exists init, last. split; [reflexivity|]. split.
    + apply Forall_lookup. intros i b Hb.
      pose proof (lookup_lt_Some _ _ _ Hb) as Hi.
      destruct (Hclosed (length old + i)%nat) as (b' & Hb' & Hc); [lia..|].
      rewrite lookup_app_r in Hb' by lia.
      replace (length old + i - length old)%nat with i in Hb' by lia.
      rewrite lookup_app_l in Hb' by exact Hi. congruence.
    + rewrite lookup_app_r by lia. apply list_lookup_middle. lia.
  - apply last_None in Hlast as ->. simpl in Hlen. lia.
Qed.

(** Lowering one function whose returns are in place and whose bodies
    are settled: the blocks that existed are as they were, after them
    come the function's own blocks, and all of these but the last end in
    a terminator. *)
Lemma compile_function_closed func g u g' :
  returns_in_place func →
  settled (fd_body func) = true →
  tidy_blocks g →
  compile_function func g = Ok (u, g') →
  ∃ run,
    basic_blocks g' = basic_blocks g ++ run
    ∧ blocks_of (module_name (fd_signature func)) run
    ∧ run_closed func run.
Proof.
  intros [Hlast Hctor] Hsettled Htidy H.
  destruct (compile_function_blocks _ _ _ _ H) as (run & Hrun & Hown).
  exists run. split; [exact Hrun|]. split; [exact Hown|].
  unfold compile_function in H.
  destruct (lower_body func g) as [[llvm_func v1]|] eqn:Hbody;
    [|discriminate].
  apply lower_body_steps in Hbody as (g1 & u1 & Hdecl & Hvisit).
  pose proof (rf_blocks _ _ (get_or_declare_function_frame _ _ _ _ _ Hdecl))
    as Hg1.
  rewrite Hg1 in Hvisit.
  match type of Hvisit with
  | visit_statement _ ?v = _ => set (v0 := v) in *
  end.
  assert (Htidy0 : tidy_blocks (gen v0)).
  { intros i b. simpl. intros [Hb | (_ & Hb)]%lookup_app_Some.
    - eapply Htidy; eauto.
    - destruct (i - length (basic_blocks g))%nat; [|discriminate].
      injection Hb as <-. left. constructor. }
  assert (Hopen0 : open_at (builder v0) (gen v0)).
  { eexists. split; [simpl; apply list_lookup_middle; reflexivity|].
    constructor. }
  assert (Hlen0 : length (basic_blocks (gen v0))
                  = S (length (basic_blocks g))).
  { simpl. rewrite length_app. simpl. lia. }
  destruct (visit_statement_tidy _ _ _ _ Hvisit Hlast Htidy0 Hopen0)
    as [_ Hopen1 _ _].
  destruct (visit_statement_closed _ _ _ _ Hvisit Hlast Hsettled Htidy0
              Hopen0) as [Hnew Hstart Hclosed1 Hstays Hmoves].
  change (builder v0) with (length (basic_blocks g)) in *.
  assert (Hshape :
    length (basic_blocks (gen v1)) = S (builder v1)
    ∧ (length (basic_blocks g) ≤ builder v1)%nat
    ∧ ∀ i, (length (basic_blocks g) ≤ i)%nat → (i < builder v1)%nat →
           closed_at i (gen v1)).
  { destruct (stays_put (fd_body func)).
    - destruct (Hstays eq_refl) as (Hb & Hl).
      split; [lia|]. split; [lia|]. intros i ? ?. lia.
    - destruct (Hmoves eq_refl) as (Hl & Hb).
      split; [exact Hl|]. split; [lia|]. intros i Hge Hlt.
      destruct (decide (i = length (basic_blocks g))) as [->|].
      + apply Hstart. lia.
      + apply Hnew; lia. }
  destruct Hshape as (Hlen1 & Hge1 & Hinit).
  assert (Hend :
    length (basic_blocks g') = S (builder v1)
    ∧ (∀ i, (length (basic_blocks g) ≤ i)%nat → (i < builder v1)%nat →
            closed_at i g')
    ∧ ∃ last,
        basic_blocks g' !! builder v1 = Some last
        ∧ if falls_out func then open last else closed last).
  { unfold falls_out. unfold is_constructor in *.
    destruct (bool_decide _).
    - destruct (CreateRetVoid v1) as [[value v2]|] eqn:Hret; [|discriminate].
      injection H as _ <-.
      rewrite (Hctor eq_refl) in *. simpl.
      pose proof (Insert_closes _ _ _ _ Hret eq_refl (Hopen1 eq_refl))
        as (last & Hb & Hc).
      apply Insert_step in Hret as (_ & Hl & Hk & _ & _).
      split; [simpl; lia|]. split; [|eauto].
      intros i ? ?. apply (kept_closed _ _ _ _ Hk); [lia | auto].
    - injection H as _ <-. split; [exact Hlen1|]. split; [exact Hinit|].
      rewrite andb_true_r.
      destruct (terminates_block (fd_body func)); simpl.
      + destruct (Hclosed1 eq_refl) as (last & ? & ?). eauto.
      + destruct (Hopen1 eq_refl) as (last & ? & ?). eauto. }
  destruct Hend as (Hlen' & Hinit' & last & Hb & Hlast').
  rewrite Hrun in Hlen', Hb.
  destruct (run_of_lookups (basic_blocks g) run (builder v1) Hlen' Hge1)
    as (init & last' & -> & Hall & Hb').
  { intros i ? ?. destruct (Hinit' i) as (b & ? & ?); [lia..|].
    exists b. rewrite <- Hrun. auto. }
  exists init, last'. split; [reflexivity|]. split; [exact Hall|].
  assert (last' = last) as -> by congruence. exact Hlast'.
Qed.

Lemma compile_functions_closed funcs :
  ∀ g u g',
    Forall returns_in_place funcs →
    Forall (λ func, settled (fd_body func) = true) funcs →
    tidy_blocks g →
    forM_ compile_function funcs g = Ok (u, g') →
    ∃ runs,
      basic_blocks g' = basic_blocks g ++ concat runs
      ∧ laid_out funcs runs
      ∧ Forall2 run_closed funcs runs.
Proof.
  induction funcs as [|func funcs IH];
    intros g u g' Hplace Hsettled Htidy H; simpl in H.
  - injection H as <- <-. exists []. simpl. rewrite app_nil_r.
    split; [reflexivity|]. split; constructor.
  - apply mbind_Ok in H as ([] & g1 & H1 & H2).
    apply Forall_cons in Hplace as (Hfunc & Hplace).
    apply Forall_cons in Hsettled as (Hbody & Hsettled).
    pose proof (compile_function_tidy _ _ _ _ Hfunc Htidy H1) as Htidy1.
    destruct (compile_function_closed _ _ _ _ Hfunc Hbody Htidy H1)
      as (run & Hrun & Hown & Hclosed).
    destruct (IH _ _ _ Hplace Hsettled Htidy1 H2)
      as (runs & Hruns & Hlaid & Hall).
    exists (run :: runs). split; [|split; constructor; auto].
    rewrite Hruns, Hrun. simpl. rewrite app_assoc. reflexivity.
Qed.

(** Where the gates look: in [fn f() { while (true) { if (true) { x =
    true; } } }] the body of the loop is left in the merge block "end" of
    the conditional, but the gate of the back edge looks at the block
    "loopbody", which ends in the conditional branch; the merge block is
    branched to and ends in no terminator. *)
Remark merge_block_of_nested_branch_left_open :
  settled (fd_body branch_in_loop) = false
  ∧ returns_last (fd_body branch_in_loop) = true
  ∧ lowered_blocks branch_in_loop
    = Some
        [{| bb_name := "entry"; bb_parent := "f";
            bb_insts := [(0%nat, Br 1)] |};
         {| bb_name := "loopstart"; bb_parent := "f";
            bb_insts := [(5%nat, CondBr (ConstantInt 1 1) 2 5)] |};
         {| bb_name := "loopbody"; bb_parent := "f";
            bb_insts := [(3%nat, CondBr (ConstantInt 1 1) 3 4)] |};
         {| bb_name := "mainbody"; bb_parent := "f";
            bb_insts :=
              [(1%nat, Alloca (IntegerTy 32));
               (2%nat, Store (ConstantInt 1 1)
                         (Inst 1 (Alloca (IntegerTy 32))));
               (4%nat, Br 4)] |};
         {| bb_name := "end"; bb_parent := "f"; bb_insts := [] |};
         {| bb_name := "end"; bb_parent := "f"; bb_insts := [] |}].
Proof. repeat split; vm_compute; reflexivity. Qed.

(** C1 (as amended): when in every function of the module no return is
    followed by another statement of its block, the body of a function
    tagged "constructor" does not end in a return, and every body of a
    loop or of a conditional ends in a return or holds no loop and no
    conditional of its own, then after [generate] the store holds the
    blocks it held, then the blocks of each function definition in
    declaration order, then the block of the entry function.  Every block
    of a function but its last ends in exactly one terminator, with no
    instruction after it.  The last block of a function, where its
    lowering ended, has no terminator at all when lowering fell out of the
    function (the body does not end in a return and the function is not a
    constructor), and ends in exactly one terminator otherwise.  The block
    of the entry function ends in exactly one terminator. *)
Theorem lowered_blocks_closed (mod_body : list declaration)
    (g g' : code_generation) (u : unit) :
  Forall returns_in_place (collected_functions (collect mod_body)) →
  Forall (λ func, settled (fd_body func) = true)
    (collected_functions (collect mod_body)) →
  tidy_blocks g →
  generate mod_body g = Ok (u, g') →
  ∃ runs entry,
    basic_blocks g' = basic_blocks g ++ concat runs ++ [entry]
    ∧ laid_out (collected_functions (collect mod_body)) runs
    ∧ Forall2 run_closed (collected_functions (collect mod_body)) runs
    ∧ closed entry.
Proof.
  intros Hplace Hsettled Htidy H.
  assert (Hfuncs : collected_functions (collect mod_body)
                   = omap as_function mod_body).
  { unfold collect. rewrite collect_from. reflexivity. }
  rewrite Hfuncs in *.
  apply generate_stages in H as (g1 & g2 & H1 & H2 & _ & Hb).
  pose proof (rf_blocks _ _ (compile_extern_functions_frame _ _ _ _ H1))
    as Hb1.
  assert (Htidy1 : tidy_blocks g1)
    by (unfold tidy_blocks; rewrite Hb1; exact Htidy).
  destruct (compile_functions_closed _ _ _ _ Hplace Hsettled Htidy1 H2)
    as (runs & Hruns & Hlaid & Hall).
  eexists runs, _. split; [|split; [exact Hlaid|split; [exact Hall|]]].
  - rewrite Hb, Hruns, Hb1, <- app_assoc. reflexivity.
  - eexists _, _. split; [reflexivity|].
    split; [apply constructor_calls_quiet | reflexivity].
Qed.

Lemma lowered_blocks_closed_witness :
  match generate loop_then_branch (initial (IntegerTy 64)) with
  | Ok (_, g') =>
      ∃ runs entry,
        basic_blocks g' = concat runs ++ [entry]
        ∧ laid_out (collected_functions (collect loop_then_branch)) runs
        ∧ Forall2 run_closed
            (collected_functions (collect loop_then_branch)) runs
        ∧ closed entry
  | Throw _ => False
  end.
Proof.
  destruct (generate loop_then_branch (initial (IntegerTy 64)))
    as [[[] g']|e] eqn:H.
  - apply (lowered_blocks_closed loop_then_branch (initial (IntegerTy 64))
             g' tt); [| | |exact H].
    + repeat constructor; discriminate.
    + repeat constructor.
    + intros i b Hb. discriminate Hb.
  - vm_compute in H. discriminate H.
Defined.
